(** * The ekam build driver: [Driver] and [Driver::ActionDriver]

    A shallow embedding of [src/Driver.h] and [src/Driver.cpp].  The C++
    objects live in an explicit store: every [ActionDriver] allocated by
    [Driver::queueNewAction] sits in a heap indexed by its address, and the
    collections of the [Driver] (the owning vectors [activeActions] and
    [pendingActions], the owning map [blockedActionPtrs], the multimap
    [blockedActions]) hold addresses, as the C++ ones hold pointers.  Member
    functions become computations in a state-and-exception monad over the
    whole [Driver]. *)

From stdpp Require Import gmap strings list fin_maps.

Set Warnings "-clear-no-such-hyp,-level-tolerance".

Open Scope stdpp_scope.



(** ** External collaborators *)

(** [EntityId] (Entity.h) is an opaque hashable identifier. *)
Definition EntityId := string.

(** Address of an [ActionDriver] on the C++ heap. *)
Definition ptr := nat.

(** Modelled from the spec: [File.h] is not part of the sources.  The driver
    relies only on [isDirectory], [list], [createDirectory], [relative],
    [parent], [basename] and [displayName]; [clone] yields an independent
    handle to the same path and is the identity on the handles of the model.
    [FS] is the state of the file system behind the handles. *)
Class FileInterface (File FS : Type) := {
  File_isDirectory : File -> FS -> bool;
  File_createDirectory : File -> FS -> FS;
  File_list : File -> FS -> list File;
  File_relative : File -> string -> File;
  File_parent : File -> File;
  File_basename : File -> string;
  File_displayName : File -> string
}.

(** Modelled from the spec: [Action.h] is not part of the sources.  An action
    shows the driver its verb; what it does once started reaches the driver
    only through the [BuildContext] calls below. *)
Record Action := { getVerb : string }.

(** Modelled from the spec: [Dashboard.h] is not part of the sources.  A task
    carries a state and an output stream. *)
Module Dashboard.
Inductive TaskState := PENDING | RUNNING | BLOCKED | SUCCESS | PASSED | FAILED.

Record Task := {
  verb : string;
  noun : string;
  state : TaskState;
  output : list string
}.

Definition beginTask (v n : string) : Task :=
  {| verb := v; noun := n; state := PENDING; output := [] |}.

Definition setState (s : TaskState) (t : Task) : Task :=
  {| verb := verb t; noun := noun t; state := s; output := output t |}.

Definition addOutput (text : string) (t : Task) : Task :=
  {| verb := verb t; noun := noun t; state := state t;
     output := output t ++ [text] |}.
End Dashboard.

(** The anonymous enum of [ActionDriver]. *)
Inductive State := PENDING | RUNNING | SUCCEEDED | PASSED | FAILED.

#[global] Instance State_eq_dec : EqDecision State.
Proof. solve_decision. Defined.

(** Callbacks waiting in the [EventManager].  A [StartCallback] is posted
    through the [EventGroup] of its driver, a [DoneCallback] directly on the
    [EventManager]. *)
Inductive Callback :=
| StartCallback (actionDriver : ptr)
| DoneCallback (action : ptr).

#[global] Instance Callback_eq_dec : EqDecision Callback.
Proof. solve_decision. Defined.

(** Modelled from the spec: [EventGroup.h] is not part of the sources;
    [cancelAll] drops the pending callbacks registered through the group. *)
Definition inEventGroup (owner : ptr) (c : Callback) : bool :=
  match c with
  | StartCallback p => bool_decide (p = owner)
  | DoneCallback _ => false
  end.

Definition EventGroup_cancelAll (owner : ptr) (queue : list Callback) : list Callback :=
  filter (λ c, inEventGroup owner c = false) queue.

Section Driver.

Context {File FS : Type} `{FileInterface File FS}.

(** Modelled from the spec: [ActionFactory] (Action.h) is not part of the
    sources; the two overloads of [tryMakeAction] and the trigger entities. *)
Record ActionFactory := {
  enumerateTriggerEntities : list EntityId;
  tryMakeAction : File -> option Action;
  tryMakeActionForEntity : EntityId -> File -> option Action
}.

(** Ghost record of what a run of [returned] does, in the order it does it:
    [EvUnblock id w] when [id] is erased from the missing dependencies of the
    waiter [w], [EvTrigger id file] when a factory registered for [id] is
    offered [(id, file)], [EvScan src tmp] when [scanForActions] is entered. *)
Inductive Event :=
| EvUnblock (id : EntityId) (waiter : ptr)
| EvTrigger (id : EntityId) (file : File)
| EvScan (src tmp : File).

Record Provision := {
  file : File;
  entities : list EntityId
}.

Record ActionDriver := {
  action : Action;
  tmpdir : File;
  dashboardTask : Dashboard.Task;
  state : State;
  missingDependencies : gmap EntityId string;
  outputs : list File;
  provisions : list Provision
}.

Record Driver := {
  (* the collaborators the driver points to *)
  eventManager : list Callback;
  fileSystem : FS;
  trace : list Event;
  (* the store of ActionDriver objects *)
  heap : gmap ptr ActionDriver;
  nextPtr : ptr;
  (* the members of Driver.h *)
  src : File;
  tmp : File;
  maxConcurrentActions : Z;
  actionFactories : gmap string ActionFactory;
  triggers : list (EntityId * ActionFactory);
  entityMap : gmap EntityId File;
  filePtrs : list File;
  activeActions : list ptr;
  pendingActions : list ptr;
  blockedActions : list (EntityId * ptr);
  blockedActionPtrs : gset ptr
}.

(** ** Field updates *)

Definition set_eventManager (f : list Callback -> list Callback) (d : Driver) : Driver :=
  {| eventManager := f (eventManager d); fileSystem := fileSystem d; trace := trace d;
     heap := heap d; nextPtr := nextPtr d; src := src d; tmp := tmp d;
     maxConcurrentActions := maxConcurrentActions d;
     actionFactories := actionFactories d; triggers := triggers d;
     entityMap := entityMap d; filePtrs := filePtrs d;
     activeActions := activeActions d; pendingActions := pendingActions d;
     blockedActions := blockedActions d; blockedActionPtrs := blockedActionPtrs d |}.

Definition set_fileSystem (f : FS -> FS) (d : Driver) : Driver :=
  {| eventManager := eventManager d; fileSystem := f (fileSystem d); trace := trace d;
     heap := heap d; nextPtr := nextPtr d; src := src d; tmp := tmp d;
     maxConcurrentActions := maxConcurrentActions d;
     actionFactories := actionFactories d; triggers := triggers d;
     entityMap := entityMap d; filePtrs := filePtrs d;
     activeActions := activeActions d; pendingActions := pendingActions d;
     blockedActions := blockedActions d; blockedActionPtrs := blockedActionPtrs d |}.

Definition set_trace (f : list Event -> list Event) (d : Driver) : Driver :=
  {| eventManager := eventManager d; fileSystem := fileSystem d; trace := f (trace d);
     heap := heap d; nextPtr := nextPtr d; src := src d; tmp := tmp d;
     maxConcurrentActions := maxConcurrentActions d;
     actionFactories := actionFactories d; triggers := triggers d;
     entityMap := entityMap d; filePtrs := filePtrs d;
     activeActions := activeActions d; pendingActions := pendingActions d;
     blockedActions := blockedActions d; blockedActionPtrs := blockedActionPtrs d |}.

Definition set_heap (f : gmap ptr ActionDriver -> gmap ptr ActionDriver) (d : Driver) : Driver :=
  {| eventManager := eventManager d; fileSystem := fileSystem d; trace := trace d;
     heap := f (heap d); nextPtr := nextPtr d; src := src d; tmp := tmp d;
     maxConcurrentActions := maxConcurrentActions d;
     actionFactories := actionFactories d; triggers := triggers d;
     entityMap := entityMap d; filePtrs := filePtrs d;
     activeActions := activeActions d; pendingActions := pendingActions d;
     blockedActions := blockedActions d; blockedActionPtrs := blockedActionPtrs d |}.

Definition set_nextPtr (f : ptr -> ptr) (d : Driver) : Driver :=
  {| eventManager := eventManager d; fileSystem := fileSystem d; trace := trace d;
     heap := heap d; nextPtr := f (nextPtr d); src := src d; tmp := tmp d;
     maxConcurrentActions := maxConcurrentActions d;
     actionFactories := actionFactories d; triggers := triggers d;
     entityMap := entityMap d; filePtrs := filePtrs d;
     activeActions := activeActions d; pendingActions := pendingActions d;
     blockedActions := blockedActions d; blockedActionPtrs := blockedActionPtrs d |}.

Definition set_actionFactories
    (f : gmap string ActionFactory -> gmap string ActionFactory) (d : Driver) : Driver :=
  {| eventManager := eventManager d; fileSystem := fileSystem d; trace := trace d;
     heap := heap d; nextPtr := nextPtr d; src := src d; tmp := tmp d;
     maxConcurrentActions := maxConcurrentActions d;
     actionFactories := f (actionFactories d); triggers := triggers d;
     entityMap := entityMap d; filePtrs := filePtrs d;
     activeActions := activeActions d; pendingActions := pendingActions d;
     blockedActions := blockedActions d; blockedActionPtrs := blockedActionPtrs d |}.

Definition set_triggers
    (f : list (EntityId * ActionFactory) -> list (EntityId * ActionFactory))
    (d : Driver) : Driver :=
  {| eventManager := eventManager d; fileSystem := fileSystem d; trace := trace d;
     heap := heap d; nextPtr := nextPtr d; src := src d; tmp := tmp d;
     maxConcurrentActions := maxConcurrentActions d;
     actionFactories := actionFactories d; triggers := f (triggers d);
     entityMap := entityMap d; filePtrs := filePtrs d;
     activeActions := activeActions d; pendingActions := pendingActions d;
     blockedActions := blockedActions d; blockedActionPtrs := blockedActionPtrs d |}.

Definition set_entityMap (f : gmap EntityId File -> gmap EntityId File) (d : Driver) : Driver :=
  {| eventManager := eventManager d; fileSystem := fileSystem d; trace := trace d;
     heap := heap d; nextPtr := nextPtr d; src := src d; tmp := tmp d;
     maxConcurrentActions := maxConcurrentActions d;
     actionFactories := actionFactories d; triggers := triggers d;
     entityMap := f (entityMap d); filePtrs := filePtrs d;
     activeActions := activeActions d; pendingActions := pendingActions d;
     blockedActions := blockedActions d; blockedActionPtrs := blockedActionPtrs d |}.

Definition set_filePtrs (f : list File -> list File) (d : Driver) : Driver :=
  {| eventManager := eventManager d; fileSystem := fileSystem d; trace := trace d;
     heap := heap d; nextPtr := nextPtr d; src := src d; tmp := tmp d;
     maxConcurrentActions := maxConcurrentActions d;
     actionFactories := actionFactories d; triggers := triggers d;
     entityMap := entityMap d; filePtrs := f (filePtrs d);
     activeActions := activeActions d; pendingActions := pendingActions d;
     blockedActions := blockedActions d; blockedActionPtrs := blockedActionPtrs d |}.

Definition set_activeActions (f : list ptr -> list ptr) (d : Driver) : Driver :=
  {| eventManager := eventManager d; fileSystem := fileSystem d; trace := trace d;
     heap := heap d; nextPtr := nextPtr d; src := src d; tmp := tmp d;
     maxConcurrentActions := maxConcurrentActions d;
     actionFactories := actionFactories d; triggers := triggers d;
     entityMap := entityMap d; filePtrs := filePtrs d;
     activeActions := f (activeActions d); pendingActions := pendingActions d;
     blockedActions := blockedActions d; blockedActionPtrs := blockedActionPtrs d |}.

Definition set_pendingActions (f : list ptr -> list ptr) (d : Driver) : Driver :=
  {| eventManager := eventManager d; fileSystem := fileSystem d; trace := trace d;
     heap := heap d; nextPtr := nextPtr d; src := src d; tmp := tmp d;
     maxConcurrentActions := maxConcurrentActions d;
     actionFactories := actionFactories d; triggers := triggers d;
     entityMap := entityMap d; filePtrs := filePtrs d;
     activeActions := activeActions d; pendingActions := f (pendingActions d);
     blockedActions := blockedActions d; blockedActionPtrs := blockedActionPtrs d |}.

Definition set_blockedActions
    (f : list (EntityId * ptr) -> list (EntityId * ptr)) (d : Driver) : Driver :=
  {| eventManager := eventManager d; fileSystem := fileSystem d; trace := trace d;
     heap := heap d; nextPtr := nextPtr d; src := src d; tmp := tmp d;
     maxConcurrentActions := maxConcurrentActions d;
     actionFactories := actionFactories d; triggers := triggers d;
     entityMap := entityMap d; filePtrs := filePtrs d;
     activeActions := activeActions d; pendingActions := pendingActions d;
     blockedActions := f (blockedActions d); blockedActionPtrs := blockedActionPtrs d |}.

Definition set_blockedActionPtrs (f : gset ptr -> gset ptr) (d : Driver) : Driver :=
  {| eventManager := eventManager d; fileSystem := fileSystem d; trace := trace d;
     heap := heap d; nextPtr := nextPtr d; src := src d; tmp := tmp d;
     maxConcurrentActions := maxConcurrentActions d;
     actionFactories := actionFactories d; triggers := triggers d;
     entityMap := entityMap d; filePtrs := filePtrs d;
     activeActions := activeActions d; pendingActions := pendingActions d;
     blockedActions := blockedActions d; blockedActionPtrs := f (blockedActionPtrs d) |}.

Definition set_dashboardTask (f : Dashboard.Task -> Dashboard.Task) (a : ActionDriver)
    : ActionDriver :=
  {| action := action a; tmpdir := tmpdir a; dashboardTask := f (dashboardTask a);
     state := state a; missingDependencies := missingDependencies a;
     outputs := outputs a; provisions := provisions a |}.

Definition set_state (s : State) (a : ActionDriver) : ActionDriver :=
  {| action := action a; tmpdir := tmpdir a; dashboardTask := dashboardTask a;
     state := s; missingDependencies := missingDependencies a;
     outputs := outputs a; provisions := provisions a |}.

Definition set_missingDependencies
    (f : gmap EntityId string -> gmap EntityId string) (a : ActionDriver) : ActionDriver :=
  {| action := action a; tmpdir := tmpdir a; dashboardTask := dashboardTask a;
     state := state a; missingDependencies := f (missingDependencies a);
     outputs := outputs a; provisions := provisions a |}.

Definition set_outputs (f : list File -> list File) (a : ActionDriver) : ActionDriver :=
  {| action := action a; tmpdir := tmpdir a; dashboardTask := dashboardTask a;
     state := state a; missingDependencies := missingDependencies a;
     outputs := f (outputs a); provisions := provisions a |}.

Definition set_provisions (f : list Provision -> list Provision) (a : ActionDriver)
    : ActionDriver :=
  {| action := action a; tmpdir := tmpdir a; dashboardTask := dashboardTask a;
     state := state a; missingDependencies := missingDependencies a;
     outputs := outputs a; provisions := f (provisions a) |}.

(** ** The monad of member functions

    A call either returns, throws a [std::exception] (both leave a [Driver]
    behind), dereferences a pointer that owns nothing ([Undefined]), or does
    not come back within the given number of loop iterations ([Diverge]). *)
Inductive Outcome (A : Type) :=
| Ok (a : A) (d : Driver)
| Throw (what : string) (d : Driver)
| Undefined
| Diverge.
Arguments Ok {A} a d.
Arguments Throw {A} what d.
Arguments Undefined {A}.
Arguments Diverge {A}.

Definition M (A : Type) : Type := Driver -> Outcome A.

Definition ret {A} (a : A) : M A := λ d, Ok a d.

Definition bind {A B} (m : M A) (k : A -> M B) : M B := λ d,
  match m d with
  | Ok a d' => k a d'
  | Throw e d' => Throw e d'
  | Undefined => Undefined
  | Diverge => Diverge
  end.

Definition throw {A} (what : string) : M A := λ d, Throw what d.
Definition undefined {A} : M A := λ _, Undefined.
Definition gets {A} (f : Driver -> A) : M A := λ d, Ok (f d) d.
Definition modify (f : Driver -> Driver) : M unit := λ d, Ok tt (f d).

(** [try { m } catch (const std::exception& e) { handler(e) }] *)
Definition try_catch {A} (m : M A) (handler : string -> M A) : M A := λ d,
  match m d with
  | Throw e d' => handler e d'
  | r => r
  end.

#[global] Instance M_ret : MRet M := @ret.
#[global] Instance M_bind : MBind M := λ A B k m, bind m k.

Fixpoint forEach {A} (l : list A) (body : A -> M unit) : M unit :=
  match l with
  | [] => ret tt
  | x :: l' => body x;; forEach l' body
  end.

(** [*p]: the object at address [p]. *)
Definition deref (p : ptr) : M ActionDriver := λ d,
  match heap d !! p with
  | Some a => Ok a d
  | None => Undefined
  end.

(** [p->field = ...]: an assignment to members of the object at [p]. *)
Definition update (p : ptr) (f : ActionDriver -> ActionDriver) : M unit := λ d,
  match heap d !! p with
  | Some a => Ok tt (set_heap (insert p (f a)) d)
  | None => Undefined
  end.

Definition record (e : Event) : M unit := modify (set_trace (λ t, t ++ [e])).

(** ** Containers *)

(** [OwnedPtrVector::releaseBack]: the vector without its last element, and
    that element. *)
Definition releaseBack {A} (v : list A) : option (list A * A) :=
  match reverse v with
  | [] => None
  | x :: r => Some (reverse r, x)
  end.

(** The loop at the head of [returned]: the first slot of the vector that
    holds [this] is released into [self] and the tail shifted down. *)
Fixpoint releaseAndShift (this : ptr) (v : list ptr) : option ptr * list ptr :=
  match v with
  | [] => (None, [])
  | p :: v' =>
      if decide (p = this) then (Some p, v')
      else let '(self, r) := releaseAndShift this v' in (self, p :: r)
  end.

(** [unordered_multimap::equal_range] and the erasure of a range.  The list
    keeps the entries in the order of their insertion; the container
    promises no order among equal keys, so what is said of a bucket is said
    of its entries, not of their order. *)
Definition equal_range {V} (id : EntityId) (m : list (EntityId * V)) : list V :=
  (filter (λ kv, kv.1 = id) m).*2.

Definition erase_range {V} (id : EntityId) (m : list (EntityId * V)) : list (EntityId * V) :=
  filter (λ kv, kv.1 ≠ id) m.

(** ** Driver::ActionDriver *)

Definition ActionDriver_new (actionToAdopt : Action) (tmploc : File)
    (taskToAdopt : Dashboard.Task) : ActionDriver :=
  {| action := actionToAdopt; tmpdir := File_parent tmploc;
     dashboardTask := taskToAdopt; state := PENDING;
     missingDependencies := ∅; outputs := []; provisions := [] |}.

(** [~ActionDriver] and the release of the storage. *)
Definition ActionDriver_delete (this : ptr) : M unit :=
  modify (set_eventManager (EventGroup_cancelAll this));;
  modify (set_heap (delete this)).

Definition ActionDriver_start (this : ptr) : M unit :=
  (* state != PENDING only logs a DEBUG_ERROR *)
  update this (set_state RUNNING);;
  update this (set_dashboardTask (Dashboard.setState Dashboard.RUNNING));;
  modify (set_eventManager (λ q, q ++ [StartCallback this])).

Definition ensureRunning (this : ptr) : M unit :=
  a ← deref this;
  if decide (state a ≠ RUNNING) then throw "Action is not running." else ret tt.

Definition findOptionalProvider (this : ptr) (id : EntityId) : M (option File) :=
  ensureRunning this;;
  gets (λ d, entityMap d !! id).

Definition findProvider (this : ptr) (id : EntityId) (title : string) : M (option File) :=
  ensureRunning this;;
  result ← findOptionalProvider this id;
  match result with
  | None => update this (set_missingDependencies (insert id title))
  | Some _ => ret tt
  end;;
  ret result.

Definition provide (this : ptr) (f : File) (ids : list EntityId) : M unit :=
  ensureRunning this;;
  update this (set_provisions (λ ps, ps ++ [{| file := f; entities := ids |}])).

Definition log (this : ptr) (text : string) : M unit :=
  ensureRunning this;;
  update this (set_dashboardTask (Dashboard.addOutput text)).

Definition newOutput (this : ptr) (basename : string) : M File :=
  ensureRunning this;;
  a ← deref this;
  let f := File_relative (tmpdir a) basename in
  update this (set_outputs (λ os, os ++ [f]));;
  ret f.

Definition queueDoneCallback (this : ptr) : M unit :=
  modify (set_eventManager (λ q, q ++ [DoneCallback this])).

Definition success (this : ptr) : M unit :=
  ensureRunning this;;
  a ← deref this;
  if decide (missingDependencies a ≠ ∅)
  then throw "Action reported success despite missing dependencies."
  else update this (set_state SUCCEEDED);;
       queueDoneCallback this.

Definition passed (this : ptr) : M unit :=
  ensureRunning this;;
  a ← deref this;
  if decide (missingDependencies a ≠ ∅)
  then throw "Action reported success despite missing dependencies."
  else update this (set_state PASSED);;
       queueDoneCallback this.

Definition failed (this : ptr) : M unit :=
  ensureRunning this;;
  update this (set_state FAILED);;
  queueDoneCallback this.

Definition newline : string := String (Ascii.ascii_of_nat 10) EmptyString.

Definition threwException (this : ptr) (what : string) : M unit :=
  update this (set_dashboardTask
    (Dashboard.addOutput ("uncaught exception: " +:+ what +:+ newline)));;
  a ← deref this;
  if decide (state a = RUNNING) then failed this else ret tt.

Definition threwUnknownException (this : ptr) : M unit :=
  update this (set_dashboardTask
    (Dashboard.addOutput ("uncaught exception of unknown type" +:+ newline)));;
  a ← deref this;
  if decide (state a = RUNNING) then failed this else ret tt.

(** ** Driver *)

Definition Driver_new (fs : FS) (src' tmp' : File) (maxConcurrentActions' : Z) : Driver :=
  {| eventManager := []; fileSystem := fs; trace := [];
     heap := ∅; nextPtr := 0; src := src'; tmp := tmp';
     maxConcurrentActions := maxConcurrentActions';
     actionFactories := ∅; triggers := []; entityMap := ∅; filePtrs := [];
     activeActions := []; pendingActions := [];
     blockedActions := []; blockedActionPtrs := ∅ |}.

(** [triggers.insert] for every listed entity.  The list takes a new entry at
    its end; where the container puts it among equal keys is its own
    matter. *)
Definition addActionFactory (name : string) (factory : ActionFactory) : M unit :=
  modify (set_actionFactories (insert name factory));;
  forEach (enumerateTriggerEntities factory)
    (λ e, modify (set_triggers (λ t, t ++ [(e, factory)]))).

Definition queueNewAction (actionToAdopt : Action) (f tmpLocation : File) : M unit :=
  let task := Dashboard.beginTask (getVerb actionToAdopt) (File_displayName f) in
  p ← gets nextPtr;
  modify (set_nextPtr S);;
  modify (set_heap (insert p (ActionDriver_new actionToAdopt tmpLocation task)));;
  modify (set_pendingActions (λ q, q ++ [p])).

(** The loop of [startSomeActions]; every iteration takes one element off
    [pendingActions], so [n] iterations are enough for a queue of length [n]. *)
Fixpoint startSomeActions_loop (n : nat) : M unit := λ d,
  if bool_decide (Z.of_nat (length (activeActions d)) < maxConcurrentActions d)%Z
     && bool_decide (pendingActions d ≠ [])
  then
    match n, releaseBack (pendingActions d) with
    | S n', Some (rest, p) =>
        (modify (set_pendingActions (λ _, rest));;
         modify (set_activeActions (λ v, v ++ [p]));;
         try_catch (ActionDriver_start p) (threwException p);;
         startSomeActions_loop n') d
    | _, _ => Diverge
    end
  else Ok tt d.

Definition startSomeActions : M unit := λ d,
  startSomeActions_loop (length (pendingActions d)) d.

(** The body of the factory loop of [scanForActions]. *)
Definition offerFile (srcFile tmpLocation : File) (factory : ActionFactory) : M unit :=
  match tryMakeAction factory srcFile with
  | Some a => queueNewAction a srcFile tmpLocation
  | None => ret tt
  end.

(** The work-list loop of [scanForActions]; [fuel] bounds its iterations. *)
Fixpoint scanForActions_loop (fuel : nat) (fileQueue : list (File * File)) : M unit :=
  match releaseBack fileQueue with
  | None => ret tt
  | Some (rest, (srcFile, tmpLocation)) =>
      match fuel with
      | 0 => λ _, Diverge
      | S fuel' =>
          isDir ← gets (λ d, File_isDirectory srcFile (fileSystem d));
          if (isDir : bool) then
            tmpIsDir ← gets (λ d, File_isDirectory tmpLocation (fileSystem d));
            (if (tmpIsDir : bool) then ret tt
             else modify (set_fileSystem (File_createDirectory tmpLocation)));;
            children ← gets (λ d, File_list srcFile (fileSystem d));
            scanForActions_loop fuel'
              (rest ++ ((λ c, (c, File_relative tmpLocation (File_basename c))) <$> children))
          else
            factories ← gets (λ d, (map_to_list (actionFactories d)).*2);
            forEach factories (offerFile srcFile tmpLocation);;
            scanForActions_loop fuel' rest
      end
  end.

Definition scanForActions (fuel : nat) (src' tmp' : File) : M unit :=
  record (EvScan src' tmp');;
  scanForActions_loop fuel [(src', tmp')].

Definition Driver_start (fuel : nat) : M unit :=
  s ← gets src;
  t ← gets tmp;
  scanForActions fuel s t;;
  startSomeActions.

(** [~Driver]: the body of the destructor. *)
Definition Driver_delete : M unit :=
  blocked ← gets (λ d, elements (blockedActionPtrs d));
  forEach blocked
    (λ p, update p (set_dashboardTask (Dashboard.setState Dashboard.FAILED))).

(** ** ActionDriver::returned *)

(** The body of the loop over [blockedActions.equal_range(id)]. *)
Definition unblockAction (id : EntityId) (waiter : ptr) : M unit :=
  record (EvUnblock id waiter);;
  update waiter (set_missingDependencies (delete id));;
  w ← deref waiter;
  if decide (missingDependencies w = ∅) then
    blocked ← gets blockedActionPtrs;
    if decide (waiter ∈ blocked) then
      modify (set_blockedActionPtrs (λ s, s ∖ {[waiter]}));;
      modify (set_pendingActions (λ q, q ++ [waiter]))
    else ret tt (* DEBUG_ERROR *)
  else ret tt.

(** The body of the loop over [triggers.equal_range(id)]. *)
Definition fireTrigger (id : EntityId) (f : File) (factory : ActionFactory) : M unit :=
  record (EvTrigger id f);;
  match tryMakeActionForEntity factory id f with
  | Some triggeredAction => queueNewAction triggeredAction f f
  | None => ret tt
  end.

(** The two halves of the body of the loop over the entities of one
    provision: "Unblock blocked actions" and "Fire triggers". *)
Definition unblockActions (id : EntityId) : M unit :=
  range ← gets (λ d, equal_range id (blockedActions d));
  forEach range (unblockAction id);;
  modify (set_blockedActions (erase_range id)).

Definition fireTriggers (id : EntityId) (f : File) : M unit :=
  triggerRange ← gets (λ d, equal_range id (triggers d));
  forEach triggerRange (fireTrigger id f).

(** The body of the loop over the entities of one provision. *)
Definition registerEntity (f : File) (id : EntityId) : M unit :=
  modify (set_entityMap (insert id f));;
  unblockActions id;;
  fireTriggers id f.

(** The body of the loop over [provisions]. *)
Definition registerProvider (p : Provision) : M unit :=
  modify (set_filePtrs (λ fs, fs ++ [file p]));;
  forEach (entities p) (registerEntity (file p)).

Definition returned (fuel : nat) (this : ptr) : M unit :=
  a ← deref this;
  (* state == PENDING only logs a DEBUG_ERROR *)
  active ← gets activeActions;
  let '(self, rest) := releaseAndShift this active in
  modify (set_activeActions (λ _, rest));;
  if decide (missingDependencies a ≠ ∅) then
    (* Failed due to missing dependencies.  Reset state to PENDING. *)
    update this (set_state PENDING);;
    modify (set_eventManager (EventGroup_cancelAll this));;
    update this (set_provisions (λ _, []));;
    update this (set_outputs (λ _, []));;
    update this (set_dashboardTask (Dashboard.setState Dashboard.BLOCKED));;
    (* Insert self into the blocked actions map.  When the loop above found
       nothing, [self] owns nothing and the map is handed a null owner. *)
    match self with
    | Some _ => modify (set_blockedActionPtrs (λ s, {[this]} ∪ s))
    | None => undefined
    end;;
    forEach (map_to_list (missingDependencies a))
      (λ kv, modify (set_blockedActions (λ m, m ++ [(kv.1, this)])))
  else
    (if decide (state a = SUCCEEDED ∨ state a = PASSED) then
       update this (set_dashboardTask (Dashboard.setState
         (if decide (state a = PASSED) then Dashboard.PASSED else Dashboard.SUCCESS)));;
       (* Register providers. *)
       forEach (provisions a) registerProvider;;
       (* Enqueue new actions based on output files. *)
       forEach (outputs a) (λ o, scanForActions fuel o o)
     else
       update this (set_dashboardTask (Dashboard.setState Dashboard.FAILED)));;
    (* [self] goes out of scope and deletes what it owns. *)
    match self with
    | Some _ => ActionDriver_delete this
    | None => ret tt
    end.

(** [StartCallback::run] hands control to the action, which from then on
    talks to the driver through the [BuildContext] calls. *)
Definition StartCallback_run (actionDriver : ptr) : M unit := ret tt.

Definition DoneCallback_run (fuel : nat) (action' : ptr) : M unit :=
  returned fuel action';;  (* may delete action *)
  startSomeActions.


(** ** The event loop

    What a running action may ask of its [BuildContext]. *)
Inductive Call :=
| CallFindProvider (id : EntityId) (title : string)
| CallFindOptionalProvider (id : EntityId)
| CallProvide (f : File) (ids : list EntityId)
| CallLog (text : string)
| CallNewOutput (basename : string)
| CallSuccess
| CallPassed
| CallFailed.

Definition call (this : ptr) (c : Call) : M unit :=
  match c with
  | CallFindProvider id title => findProvider this id title;; ret tt
  | CallFindOptionalProvider id => findOptionalProvider this id;; ret tt
  | CallProvide f ids => provide this f ids
  | CallLog text => log this text
  | CallNewOutput basename => newOutput this basename;; ret tt
  | CallSuccess => success this
  | CallPassed => passed this
  | CallFailed => failed this
  end.

(** One turn of the single-threaded event loop, or one call from outside.
    The driver is configured and started by its owner; the [EventManager]
    runs any of the waiting callbacks to completion; an action (whose code is
    not the driver's) may at any moment make any [BuildContext] call on any
    live [ActionDriver], and an exception escaping it reaches the handler of
    the [EventGroup].  A turn exists only when the code run by it returns. *)
Inductive step : Driver -> Driver -> Prop :=
| step_addActionFactory name factory d d' :
    addActionFactory name factory d = Ok tt d' ->
    step d d'
| step_start fuel d d' :
    Driver_start fuel d = Ok tt d' ->
    step d d'
| step_StartCallback q1 q2 p d d' :
    eventManager d = q1 ++ StartCallback p :: q2 ->
    StartCallback_run p (set_eventManager (λ _, q1 ++ q2) d) = Ok tt d' ->
    step d d'
| step_DoneCallback fuel q1 q2 p d d' :
    eventManager d = q1 ++ DoneCallback p :: q2 ->
    DoneCallback_run fuel p (set_eventManager (λ _, q1 ++ q2) d) = Ok tt d' ->
    step d d'
| step_call_returns this c d d' :
    call this c d = Ok tt d' ->
    step d d'
| step_call_throws this c what d d' :
    call this c d = Throw what d' ->
    step d d'
| step_threwException this what d d' :
    threwException this what d = Ok tt d' ->
    step d d'
| step_threwUnknownException this d d' :
    threwUnknownException this d = Ok tt d' ->
    step d d'.

(** The states the driver can be in between two turns of the event loop. *)
Definition reachable (d : Driver) : Prop :=
  ∃ fs src' tmp' maxConcurrentActions',
    rtc step (Driver_new fs src' tmp' maxConcurrentActions') d.

End Driver.

Arguments Ok {File FS A} a d.
Arguments Throw {File FS A} what d.
Arguments Undefined {File FS A}.
Arguments Diverge {File FS A}.
Arguments EvUnblock {File} id waiter.
Arguments EvTrigger {File} id file.
Arguments EvScan {File} src tmp.
Arguments ActionFactory File : clear implicits.
Arguments Event File : clear implicits.
Arguments Provision File : clear implicits.
Arguments ActionDriver File : clear implicits.
Arguments Driver File FS : clear implicits.
Arguments Outcome File FS A : clear implicits.
Arguments M File FS A : clear implicits.

(** ** Vocabulary of the specification *)

Section Specification.

Context {File FS : Type} {HF : FileInterface File FS}.

(** What [returned] leaves of an [ActionDriver] that it rolls back. *)
Definition rolledBack (a : ActionDriver File) : ActionDriver File :=
  {| action := action a; tmpdir := tmpdir a;
     dashboardTask := Dashboard.setState Dashboard.BLOCKED (dashboardTask a);
     state := PENDING; missingDependencies := missingDependencies a;
     outputs := []; provisions := [] |}.

(** The missing dependencies of the driver at [p], none when there is no
    driver at [p]. *)
Definition missingOf (d : Driver File FS) (p : ptr) : gmap EntityId string :=
  from_option missingDependencies ∅ (heap d !! p).

(** The driver left by a run of the unblock loop over the waiters [l] that
    produced the store [h'] and promoted [promoted]. *)
Definition unblocked (id : EntityId) (l : list ptr) (h' : gmap ptr (ActionDriver File))
    (promoted : list ptr) (d : Driver File FS) : Driver File FS :=
  set_pendingActions (λ q, q ++ promoted)
    (set_blockedActionPtrs (λ s, s ∖ list_to_set promoted)
      (set_heap (λ _, h')
        (set_trace (λ t, t ++ (EvUnblock id <$> l)) d))).

(** The events of publishing one entity: its waiters are unblocked, then its
    triggers fire. *)
Definition entityBlock (f : File) (id : EntityId) (es : list (Event File)) : Prop :=
  ∃ (waiters : list ptr) (factories : list (ActionFactory File)),
    es = (EvUnblock id <$> waiters) ++ ((λ _, EvTrigger id f) <$> factories).

(** The events of registering one provision: one block per entity, in the
    order of the entities. *)
Definition provisionBlock (p : Provision File) (es : list (Event File)) : Prop :=
  ∃ blocks, es = concat blocks ∧ Forall2 (entityBlock (file p)) (entities p) blocks.

(** The events of a commit: one block per provision, then one scan per
    output. *)
Definition commitTrace (a : ActionDriver File) (es : list (Event File)) : Prop :=
  ∃ blocks, es = concat blocks ++ ((λ o, EvScan o o) <$> outputs a) ∧
    Forall2 provisionBlock (provisions a) blocks.

Definition isUnblock (e : Event File) : bool :=
  match e with EvUnblock _ _ => true | _ => false end.
Definition isTrigger (e : Event File) : bool :=
  match e with EvTrigger _ _ => true | _ => false end.
Definition isScan (e : Event File) : bool :=
  match e with EvScan _ _ => true | _ => false end.

(** Every event that satisfies [earlier] comes before every event that
    satisfies [later]. *)
Definition allBefore (earlier later : Event File -> bool) (es : list (Event File)) : Prop :=
  ∀ i j ei ej, es !! i = Some ei -> es !! j = Some ej ->
    earlier ei = true -> later ej = true -> i < j.

(** Within the events of one [returned]: every unblock before every
    trigger, and every trigger before every scan. *)
Definition unblockThenTriggerThenScan (es : list (Event File)) : Prop :=
  allBefore isUnblock isTrigger es ∧ allBefore isTrigger isScan es.

(** The run of a driver is untouched: same state, same staged provisions
    and outputs. *)
Definition sameRun (a a' : ActionDriver File) : Prop :=
  state a' = state a ∧ provisions a' = provisions a ∧ outputs a' = outputs a.

(** From [d0] to [d] no driver was started, stopped, blocked, deleted or
    revived: the active vector is the same, the blocked set did not grow, and
    every address handed out before [d0] still holds the same run, or still
    holds nothing. *)
Definition keepsDrivers (d0 d : Driver File FS) : Prop :=
  activeActions d = activeActions d0 ∧
  blockedActionPtrs d ⊆ blockedActionPtrs d0 ∧
  nextPtr d0 ≤ nextPtr d ∧
  (∀ p : ptr, is_Some (heap d !! p) -> p < nextPtr d) ∧
  ∀ p : ptr, p < nextPtr d0 ->
    match heap d0 !! p with
    | Some a => ∃ a', heap d !! p = Some a' ∧ sameRun a a'
    | None => heap d !! p = None
    end.

(** A driver object as the constructor leaves it, up to its task. *)
Definition pristine (a : ActionDriver File) : Prop :=
  state a = PENDING ∧ missingDependencies a = ∅ ∧ provisions a = [] ∧ outputs a = [].

(** A driver object as the rollback leaves it. *)
Definition rewound (a : ActionDriver File) : Prop :=
  state a = PENDING ∧ provisions a = [] ∧ outputs a = [].

(** The drivers whose completion callback waits in the queue of the
    [EventManager]. *)
Definition doneCallbacks (queue : list Callback) : list ptr :=
  omap (λ c, match c with
             | DoneCallback p => Some p
             | StartCallback _ => None
             end) queue.

(** The invariant of a driver created with [maxConcurrentActions = cap],
    also for a driver caught in the middle of [returned]: the addresses in
    [limbo] are those of the [ActionDriver] being finalized, which at that
    point no collection owns, and [drain] is the entity whose bucket of
    [blockedActions] is being emptied. *)
Record Inv (cap : Z) (limbo : list ptr) (drain : option EntityId) (d : Driver File FS)
    : Prop := {
  inv_max : maxConcurrentActions d = cap;
  inv_pending_NoDup : NoDup (pendingActions d);
  inv_active_NoDup : NoDup (activeActions d);
  inv_pending : ∀ p, p ∈ pendingActions d ->
    (p ∉ activeActions d) ∧ (p ∉ blockedActionPtrs d) ∧ (p ∉ limbo) ∧
    ∃ a, heap d !! p = Some a ∧ pristine a;
  inv_blocked : ∀ p, p ∈ blockedActionPtrs d ->
    (p ∉ activeActions d) ∧ (p ∉ limbo) ∧ ∃ a, heap d !! p = Some a ∧ rewound a;
  inv_active : ∀ p : ptr, p ∈ activeActions d -> (p ∉ limbo) ∧ is_Some (heap d !! p);
  inv_limbo : ∀ p : ptr, p ∈ limbo -> is_Some (heap d !! p);
  inv_heap : ∀ p : ptr, is_Some (heap d !! p) -> p < nextPtr d;
  inv_cap : (Z.of_nat (length (activeActions d)) ≤ Z.max 0 cap)%Z;
  (* a driver that has left state PENDING is active, or being finalized *)
  inv_running : ∀ (p : ptr) a, heap d !! p = Some a -> state a ≠ PENDING ->
    p ∈ activeActions d ∨ p ∈ limbo;
  (* a completion callback waits for an active driver that has reported *)
  inv_done : ∀ p : ptr, p ∈ doneCallbacks (eventManager d) ->
    p ∈ activeActions d ∧
    ∃ a, heap d !! p = Some a ∧ state a ≠ PENDING ∧ state a ≠ RUNNING;
  inv_done_NoDup : NoDup (doneCallbacks (eventManager d));
  (* an edge of [blockedActions] leads to a blocked driver that misses its key *)
  inv_edges : ∀ id (p : ptr), (id, p) ∈ blockedActions d ->
    drain = Some id ∨ (p ∈ blockedActionPtrs d ∧ is_Some (missingOf d p !! id))
}.


(** The three calls by which an action reports its outcome. *)
Definition reports (c : @Call File) : bool :=
  match c with
  | CallSuccess | CallPassed | CallFailed => true
  | _ => false
  end.

(** What a [BuildContext] call that returns has made of the driver object
    [a] that made it. *)
Definition staged (entities' : gmap EntityId File) (c : @Call File) (a : ActionDriver File)
    : ActionDriver File :=
  match c with
  | CallFindProvider id title =>
      match entities' !! id with
      | Some _ => a
      | None => set_missingDependencies (insert id title) a
      end
  | CallFindOptionalProvider _ => a
  | CallProvide f ids =>
      set_provisions (λ ps, ps ++ [{| file := f; entities := ids |}]) a
  | CallLog text => set_dashboardTask (Dashboard.addOutput text) a
  | CallNewOutput basename =>
      set_outputs (λ os, os ++ [File_relative (tmpdir a) basename]) a
  | CallSuccess => set_state SUCCEEDED a
  | CallPassed => set_state PASSED a
  | CallFailed => set_state FAILED a
  end.

(** The entity map after the provisions [ps] have been registered, one after
    the other, each with its entities in the order of its list. *)
Definition publish (ps : list (Provision File)) (m : gmap EntityId File)
    : gmap EntityId File :=
  foldl (λ m p, foldl (λ m id, <[id := file p]> m) m (entities p)) m ps.

(** The driver after [Driver::queueNewAction]. *)
Definition enqueued (act : Action) (f tmpLocation : File) (d : Driver File FS)
    : Driver File FS :=
  set_pendingActions (λ q, q ++ [nextPtr d])
    (set_heap (insert (nextPtr d)
        (ActionDriver_new act tmpLocation
           (Dashboard.beginTask (getVerb act) (File_displayName f))))
      (set_nextPtr S d)).

(** From [d0] to [d] nothing happened but what a scan does: directories were
    created, and [n] new drivers, all as the constructor leaves them, were
    allocated at the next [n] addresses and appended to the pending queue. *)
Definition onlyQueued (d0 d : Driver File FS) : Prop :=
  ∃ (n : nat) (dirs : list File),
    pendingActions d = pendingActions d0 ++ seq (nextPtr d0) n ∧
    nextPtr d = nextPtr d0 + n ∧
    (∀ i, i < n -> ∃ a, heap d !! (nextPtr d0 + i) = Some a ∧ pristine a ∧
       Dashboard.state (dashboardTask a) = Dashboard.PENDING) ∧
    (∀ p : ptr, p < nextPtr d0 -> heap d !! p = heap d0 !! p) ∧
    fileSystem d = foldl (λ fs t, File_createDirectory t fs) (fileSystem d0) dirs ∧
    eventManager d = eventManager d0 ∧ entityMap d = entityMap d0 ∧
    filePtrs d = filePtrs d0 ∧ activeActions d = activeActions d0 ∧
    blockedActions d = blockedActions d0 ∧
    blockedActionPtrs d = blockedActionPtrs d0 ∧
    actionFactories d = actionFactories d0 ∧ triggers d = triggers d0 ∧
    maxConcurrentActions d = maxConcurrentActions d0.

(** What [ActionDriver::start] makes of a driver object. *)
Definition startedRun (a : ActionDriver File) : ActionDriver File :=
  set_dashboardTask (Dashboard.setState Dashboard.RUNNING) (set_state RUNNING a).

(** No slot is idle while an action waits. *)
Definition saturated (d : Driver File FS) : Prop :=
  pendingActions d = [] ∨
  (maxConcurrentActions d ≤ Z.of_nat (length (activeActions d)))%Z.

(** What the collections of the driver say of one another, beyond [Inv];
    [fin] lists the driver that is being finalized, from the moment its
    completion callback is taken off the queue.  Every object is owned by a
    collection; a start callback waits only for an active driver; an active
    driver has been started, shows RUNNING on the dashboard, and once it has
    reported has its completion callback waiting; a blocked driver shows
    BLOCKED, misses something, and sits in the bucket of every entity it
    misses; and no bucket lists a driver twice. *)
Record Consistent (fin : list ptr) (d : Driver File FS) : Prop := {
  con_owned : ∀ p : ptr, is_Some (heap d !! p) ->
    p ∈ pendingActions d ∨ p ∈ activeActions d ∨ p ∈ blockedActionPtrs d ∨ p ∈ fin;
  con_start : ∀ p : ptr, StartCallback p ∈ eventManager d ->
    p ∈ activeActions d ∨ p ∈ fin;
  con_active : ∀ (p : ptr) a, p ∈ activeActions d -> heap d !! p = Some a ->
    state a ≠ PENDING ∧
    Dashboard.state (dashboardTask a) = Dashboard.RUNNING ∧
    (state a = RUNNING ∨ p ∈ doneCallbacks (eventManager d) ∨ p ∈ fin);
  con_blocked : ∀ (p : ptr) a, p ∈ blockedActionPtrs d -> heap d !! p = Some a ->
    missingDependencies a ≠ ∅ ∧
    Dashboard.state (dashboardTask a) = Dashboard.BLOCKED ∧
    ∀ id, is_Some (missingDependencies a !! id) -> (id, p) ∈ blockedActions d;
  con_edges_NoDup : NoDup (blockedActions d)
}.

(** While the bucket of [id] is drained, the blocked drivers that still miss
    [id] are among the waiters [l] that the loop has yet to visit. *)
Definition drained (id : EntityId) (l : list ptr) (d : Driver File FS) : Prop :=
  ∀ (p : ptr) a, p ∈ blockedActionPtrs d -> heap d !! p = Some a ->
    is_Some (missingDependencies a !! id) -> p ∈ l.

(** The outcome [r] is a return that satisfies [post] or, when [mayRun]
    holds, a loop that is still going when its turns have run out; it is
    neither an exception nor the use of an object that is not there. *)
Definition finishes {A} (mayRun : Prop) (post : A -> Driver File FS -> Prop)
    (r : Outcome File FS A) : Prop :=
  match r with
  | Ok a d' => post a d'
  | Diverge => mayRun
  | Throw _ _ | Undefined => False
  end.

(** The number of files in a tree of depth [r] in which no directory has
    more than [b] entries, at most. *)
Fixpoint treeSize (b r : nat) : nat :=
  match r with
  | 0 => 1
  | S r' => 1 + b * treeSize b r'
  end.

(** The turns that the loop of [scanForActions] needs for a work list, at
    most, when [rank] bounds the depth of what is below a file. *)
Definition scanCost (rank : File -> nat) (b : nat) (fileQueue : list (File * File)) : nat :=
  sum_list ((λ st, treeSize b (rank st.1)) <$> fileQueue).

(** The words of the specification on a repeated publication: publishing a
    pair that [entityMap] already records changes nothing that can be
    observed. *)
Definition republishChangesNothing (f : File) (id : EntityId) (d : Driver File FS) : Prop :=
  entityMap d !! id = Some f ->
  ∀ d', registerEntity f id d = Ok tt d' ->
    entityMap d' = entityMap d ∧ heap d' = heap d ∧
    pendingActions d' = pendingActions d ∧ activeActions d' = activeActions d ∧
    blockedActionPtrs d' = blockedActionPtrs d ∧ blockedActions d' = blockedActions d ∧
    eventManager d' = eventManager d.
End Specification.

(** ** A small build

    Paths are lists of names and the file system is a list of entries, each
    flagged as a directory or not.  The factory [onSource] offers an action
    for the two sources, [onHeader] for every file called [gen.h], and
    [onLib] is triggered by the entity [LIB].  The action of [w.c] needs
    [HDR]; the action of [p.c] writes [gen.h] and provides both [LIB] and
    [HDR] with [p.o]. *)
Module Scenario.

Definition Path := list string.
Definition Disk := list (Path * bool).

#[global] Instance Disk_FileInterface : FileInterface Path Disk := {|
  File_isDirectory f fs := bool_decide ((f, true) ∈ fs);
  File_createDirectory f fs := fs ++ [(f, true)];
  File_list f fs := (filter (λ e, removelast e.1 = f ∧ e.1 ≠ []) fs).*1;
  File_relative f b := f ++ [b];
  File_parent f := removelast f;
  File_basename f := List.last f "";
  File_displayName f := String.concat "/" f
|}.

(** Runs a call and keeps the driver it leaves behind. *)
Definition exec {A} (m : M Path Disk A) (d : Driver Path Disk) : Driver Path Disk :=
  match m d with
  | Ok _ d' => d'
  | Throw _ d' => d'
  | _ => d
  end.

(** The event loop takes the first waiting callback off the queue. *)
Definition turn (d : Driver Path Disk) : Driver Path Disk :=
  match eventManager d with
  | [] => d
  | StartCallback p :: q => exec (StartCallback_run p) (set_eventManager (λ _, [] ++ q) d)
  | DoneCallback p :: q => exec (DoneCallback_run 8 p) (set_eventManager (λ _, [] ++ q) d)
  end.

Definition onSource : ActionFactory Path :=
  {| enumerateTriggerEntities := [];
     tryMakeAction f :=
       if bool_decide (f = ["src"; "w.c"] ∨ f = ["src"; "p.c"])
       then Some {| getVerb := "compile" |} else None;
     tryMakeActionForEntity _ _ := None |}.

Definition onHeader : ActionFactory Path :=
  {| enumerateTriggerEntities := [];
     tryMakeAction f :=
       if bool_decide (List.last f "" = "gen.h") then Some {| getVerb := "scan" |} else None;
     tryMakeActionForEntity _ _ := None |}.

Definition onLib : ActionFactory Path :=
  {| enumerateTriggerEntities := ["LIB"];
     tryMakeAction _ := None;
     tryMakeActionForEntity _ _ := Some {| getVerb := "link" |} |}.

Definition disk : Disk :=
  [(["src"], true); (["src"; "p.c"], false); (["src"; "w.c"], false); (["tmp"], true)].

Definition created : Driver Path Disk := Driver_new disk ["src"] ["tmp"] 2.

Definition withSource : Driver Path Disk := exec (addActionFactory "source" onSource) created.
Definition withHeader : Driver Path Disk :=
  exec (addActionFactory "header" onHeader) withSource.
Definition configured : Driver Path Disk := exec (addActionFactory "lib" onLib) withHeader.

(** [Driver::start]: the scan queues [w.c] (at address 0) before [p.c] (at
    address 1), and both are started. *)
Definition started : Driver Path Disk := exec (Driver_start 8) configured.

(** Their start callbacks have run. *)
Definition running : Driver Path Disk := turn (turn started).

(** [w.c] looks for [HDR], which nobody provides yet, and gives up. *)
Definition asked : Driver Path Disk := exec (findProvider 0 "HDR" "header of p") running.
Definition gaveUp : Driver Path Disk := exec (failed 0) asked.

(** Its completion callback runs: the action is rolled back and blocked. *)
Definition blocked : Driver Path Disk := turn gaveUp.

(** [p.c] writes [gen.h], provides [LIB] and [HDR], and reports success. *)
Definition written : Driver Path Disk := exec (newOutput 1 "gen.h") blocked.
Definition provided : Driver Path Disk :=
  exec (provide 1 ["tmp"; "p.o"] ["LIB"; "HDR"]) written.
Definition succeeded : Driver Path Disk := exec (success 1) provided.

(** Its completion callback is taken off the queue and [returned] runs:
    the commit. *)
Definition committing : Driver Path Disk := set_eventManager (λ _, []) succeeded.
Definition finalized : Driver Path Disk := exec (returned 8 1) committing.

(** The whole callback: the commit, then [startSomeActions]. *)
Definition committed : Driver Path Disk := turn succeeded.

(** The same two actions, queued by hand and not started. *)
Definition queued : Driver Path Disk :=
  exec (queueNewAction {| getVerb := "compile" |} ["src"; "p.c"] ["tmp"; "p.c"])
    (exec (queueNewAction {| getVerb := "compile" |} ["src"; "w.c"] ["tmp"; "w.c"])
       configured).


(** [p.c] gives up although it misses nothing; its completion callback is
    taken off the queue. *)
Definition failing : Driver Path Disk :=
  set_eventManager (λ _, []) (exec (failed 1) running).

(** While [w.c] is still running, having looked for [HDR] in vain, [p.c]
    provides [HDR] and its commit runs; only then does [w.c] give up. *)
Definition overtaken : Driver Path Disk :=
  turn (exec (success 1) (exec (provide 1 ["tmp"; "p.o"] ["HDR"]) asked)).
Definition tooLate : Driver Path Disk := exec (failed 0) overtaken.

(** The same build with no slot at all. *)
Definition idle : Driver Path Disk :=
  exec (Driver_start 8)
    (exec (addActionFactory "source" onSource) (Driver_new disk ["src"] ["tmp"] 0)).

(** After the commit of [p.c], [w.c] runs again.  It provides [LIB] once
    more, with the same file, and reports success; its completion callback
    is taken off the queue and [returned] runs. *)
Definition rerun : Driver Path Disk := turn (turn committed).
Definition providedAgain : Driver Path Disk :=
  exec (provide 0 ["tmp"; "p.o"] ["LIB"]) rerun.
Definition succeededAgain : Driver Path Disk := exec (success 0) providedAgain.
Definition recommitting : Driver Path Disk := set_eventManager (λ _, []) succeededAgain.
Definition republished : Driver Path Disk := exec (returned 8 0) recommitting.

(** A file system that is one directory listing itself. *)
Definition Cycle_FileInterface : FileInterface unit unit := {|
  File_isDirectory _ _ := true;
  File_createDirectory _ fs := fs;
  File_list _ _ := [tt];
  File_relative f _ := f;
  File_parent f := f;
  File_basename _ := ".";
  File_displayName _ := "."
|}.

(** A file system that is a full binary tree: the file [n] is a directory
    with the entry [n - 1] twice, and [0] is a plain file. *)
Definition Tree_FileInterface : FileInterface nat unit := {|
  File_isDirectory n _ := negb (Nat.eqb n 0);
  File_createDirectory _ fs := fs;
  File_list n _ := match n with 0 => [] | S m => [m; m] end;
  File_relative f _ := f;
  File_parent f := f;
  File_basename _ := "x";
  File_displayName _ := "x"
|}.

End Scenario.

(** * Properties *)

Section Properties.

Context {File FS : Type} {HF : FileInterface File FS}.


(** ** Running the monad *)

Lemma bind_Ok {A B} (m : M File FS A) (k : A -> M File FS B) (d d' : Driver File FS) (b : B) :
  (m ≫= k) d = Ok b d' ↔ ∃ a d1, m d = Ok a d1 ∧ k a d1 = Ok b d'.
Proof.
  unfold mbind, M_bind, bind. destruct (m d) as [a d1| | |]; naive_solver.
Qed.

Lemma bind_Throw {A B} (m : M File FS A) (k : A -> M File FS B) (d d' : Driver File FS) (e : string) :
  (m ≫= k) d = Throw e d' ↔
  m d = Throw e d' ∨ ∃ a d1, m d = Ok a d1 ∧ k a d1 = Throw e d'.
Proof.
  unfold mbind, M_bind, bind. destruct (m d) as [a d1| | |]; naive_solver.
Qed.

Lemma deref_Ok (p : ptr) (d d' : Driver File FS) (a : ActionDriver File) :
  deref p d = Ok a d' ↔ heap d !! p = Some a ∧ d' = d.
Proof.
  unfold deref. destruct (heap d !! p); naive_solver.
Qed.

Lemma update_Ok (p : ptr) (f : ActionDriver File -> ActionDriver File) (d d' : Driver File FS) (u : unit) :
  update p f d = Ok u d' ↔
  ∃ a, heap d !! p = Some a ∧ d' = set_heap (insert p (f a)) d.
Proof.
  unfold update. destruct u, (heap d !! p) as [a|]; naive_solver.
Qed.

Lemma gets_Ok {A} (f : Driver File FS -> A) (d d' : Driver File FS) (a : A) :
  gets f d = Ok a d' ↔ a = f d ∧ d' = d.
Proof. unfold gets. split; [by intros [= <- <-] | by intros [-> ->]]. Qed.

Lemma modify_Ok (f : Driver File FS -> Driver File FS) (d d' : Driver File FS) (u : unit) :
  modify f d = Ok u d' ↔ d' = f d.
Proof. unfold modify. destruct u. split; [by intros [= <-] | by intros ->]. Qed.

Lemma ret_Ok {A} (a b : A) (d d' : Driver File FS) :
  ret a d = Ok b d' ↔ b = a ∧ d' = d.
Proof. unfold ret. split; [by intros [= <- <-] | by intros [-> ->]]. Qed.

Lemma queueNewAction_Ok (act : Action) (f t : File) (d : Driver File FS) :
  queueNewAction act f t d =
    Ok tt (set_pendingActions (λ q, q ++ [nextPtr d])
      (set_heap (insert (nextPtr d)
          (ActionDriver_new act t
             (Dashboard.beginTask (getVerb act) (File_displayName f))))
        (set_nextPtr S d))).
Proof. done. Qed.

Lemma queueNewAction_inv (act : Action) (f t : File) (d d' : Driver File FS) (u : unit) :
  queueNewAction act f t d = Ok u d' ->
  d' = set_pendingActions (λ q, q ++ [nextPtr d])
      (set_heap (insert (nextPtr d)
          (ActionDriver_new act t
             (Dashboard.beginTask (getVerb act) (File_displayName f))))
        (set_nextPtr S d)).
Proof. rewrite queueNewAction_Ok. by intros [= <-]. Qed.

(** Forward execution of a run that is known to return. *)
Ltac run_inv :=
  repeat match goal with
  | Hrun : (_ ≫= _) _ = Ok _ _ |- _ =>
      let a := fresh "a" in let d := fresh "d" in let Ha := fresh "Hrun" in
      apply bind_Ok in Hrun as (a & d & Ha & Hrun)
  | Hrun : deref _ _ = Ok _ _ |- _ =>
      let Hh := fresh "Hheap" in apply deref_Ok in Hrun as [Hh ->]
  | Hrun : update _ _ _ = Ok _ _ |- _ =>
      let a := fresh "a" in let Hh := fresh "Hheap" in
      apply update_Ok in Hrun as (a & Hh & ->)
  | Hrun : gets _ _ = Ok _ _ |- _ => apply gets_Ok in Hrun as [-> ->]
  | Hrun : modify _ _ = Ok _ _ |- _ => apply modify_Ok in Hrun as ->
  | Hrun : ret _ _ = Ok _ _ |- _ =>
      let Heq := fresh "Heq" in apply ret_Ok in Hrun as [Heq ->]; try subst
  | Hrun : throw _ _ = Ok _ _ |- _ => discriminate Hrun
  | Hrun : undefined _ = Ok _ _ |- _ => discriminate Hrun
  | u : unit |- _ => destruct u
  end.

(** The same, through the branches of the code. *)
Ltac run_cases :=
  repeat (run_inv;
    match goal with
    | Hrun : (if ?b then _ else _) _ = Ok _ _ |- _ =>
        destruct b eqn:?; cbv beta iota in Hrun
    | Hrun : match ?o with Some _ => _ | None => _ end _ = Ok _ _ |- _ =>
        destruct o eqn:?; cbv beta iota in Hrun
    | Hrun : queueNewAction _ _ _ _ = Ok _ _ |- _ => apply queueNewAction_inv in Hrun as ->
    end); run_inv.

(** Unfolds the plumbing of the monad in the goal. *)
Ltac run_unfold :=
  unfold mbind, M_bind, bind, deref, update, gets, modify, ret, throw, record; simpl.

(** Two drivers with the same members are the same driver. *)
Lemma Driver_eq (d d' : Driver File FS) :
  eventManager d = eventManager d' -> fileSystem d = fileSystem d' ->
  trace d = trace d' -> heap d = heap d' -> nextPtr d = nextPtr d' ->
  src d = src d' -> tmp d = tmp d' ->
  maxConcurrentActions d = maxConcurrentActions d' ->
  actionFactories d = actionFactories d' -> triggers d = triggers d' ->
  entityMap d = entityMap d' -> filePtrs d = filePtrs d' ->
  activeActions d = activeActions d' -> pendingActions d = pendingActions d' ->
  blockedActions d = blockedActions d' -> blockedActionPtrs d = blockedActionPtrs d' ->
  d = d'.
Proof. destruct d, d'. simpl. by intros -> -> -> -> -> -> -> -> -> -> -> -> -> -> -> ->. Qed.

Ltac driver_eq := apply Driver_eq; simpl; try done.

(** ** The BuildContext calls *)

Lemma ensureRunning_running (this : ptr) (d : Driver File FS) (a : ActionDriver File) :
  heap d !! this = Some a -> state a = RUNNING -> ensureRunning this d = Ok tt d.
Proof.
  intros Hheap Hstate. unfold ensureRunning. run_unfold. rewrite Hheap.
  by rewrite decide_False by (by intros []).
Qed.

Lemma ensureRunning_Ok (this : ptr) (d d' : Driver File FS) (u : unit) :
  ensureRunning this d = Ok u d' ->
  d' = d ∧ ∃ a, heap d !! this = Some a ∧ state a = RUNNING.
Proof.
  unfold ensureRunning. intros Hrun. run_inv.
  destruct (decide (state a ≠ RUNNING)) as [|Hs]; [done|].
  apply ret_Ok in Hrun as [_ ->]. split; [done|]. exists a. split; [done|].
  by destruct (decide (state a = RUNNING)).
Qed.

(** C4.  For a running driver, [success] and [passed] throw when dependencies
    are missing and leave the whole driver as it was: the state is still
    RUNNING and no completion callback is enqueued.  With no dependency
    missing, [success] moves the state to SUCCEEDED and [passed] to PASSED,
    and each appends one [DoneCallback] to the queue of the EventManager. *)
Theorem success_passed_require_no_missing_dependencies
    (this : ptr) (d : Driver File FS) (a : ActionDriver File) :
  heap d !! this = Some a ->
  state a = RUNNING ->
  (missingDependencies a ≠ ∅ ->
     (∃ what, success this d = Throw what d) ∧
     (∃ what, passed this d = Throw what d)) ∧
  (missingDependencies a = ∅ ->
     (∃ d', success this d = Ok tt d' ∧
        heap d' !! this = Some (set_state SUCCEEDED a) ∧
        eventManager d' = eventManager d ++ [DoneCallback this]) ∧
     (∃ d', passed this d = Ok tt d' ∧
        heap d' !! this = Some (set_state PASSED a) ∧
        eventManager d' = eventManager d ++ [DoneCallback this])).
Proof.
  intros Hheap Hstate. split; intros Hmissing.
  - split; eexists; unfold success, passed; run_unfold;
      rewrite (ensureRunning_running _ _ _ Hheap Hstate), Hheap;
      by rewrite decide_True.
  - split; eexists; unfold success, passed, queueDoneCallback; run_unfold;
      rewrite (ensureRunning_running _ _ _ Hheap Hstate), Hheap;
      (rewrite decide_False by (by intros [])); rewrite Hheap;
      (split; [reflexivity|]); simpl; by rewrite lookup_insert_eq.
Qed.

(** C8.  For a running driver, [findProvider] returns the provider recorded in
    [entityMap] and changes nothing when there is one; when there is none it
    returns no file and the driver it leaves differs from the one it found
    only in [missingDependencies] of [this], where [id] now maps to [title].
    [findOptionalProvider] returns the same and never changes anything. *)
Theorem findProvider_records_missing_dependency
    (this : ptr) (d : Driver File FS) (a : ActionDriver File)
    (id : EntityId) (title : string) :
  heap d !! this = Some a ->
  state a = RUNNING ->
  findOptionalProvider this id d = Ok (entityMap d !! id) d ∧
  match entityMap d !! id with
  | Some f => findProvider this id title d = Ok (Some f) d
  | None =>
      findProvider this id title d =
        Ok None (set_heap (insert this (set_missingDependencies (insert id title) a)) d)
  end.
Proof.
  intros Hheap Hstate.
  assert (findOptionalProvider this id d = Ok (entityMap d !! id) d) as Hopt.
  { unfold findOptionalProvider. run_unfold.
    by rewrite (ensureRunning_running _ _ _ Hheap Hstate). }
  split; [done|].
  unfold findProvider. run_unfold.
  rewrite (ensureRunning_running _ _ _ Hheap Hstate), Hopt.
  destruct (entityMap d !! id); [done|]. by rewrite Hheap.
Qed.

(** ** Loops *)

Lemma forEach_Ok_inv {A} (I : Driver File FS -> Prop) (l : list A)
    (body : A -> M File FS unit) :
  (∀ x d d', x ∈ l -> I d -> body x d = Ok tt d' -> I d') ->
  ∀ d d', I d -> forEach l body d = Ok tt d' -> I d'.
Proof.
  induction l as [|x l IH]; intros Hbody d d' HI Hrun; simpl in Hrun.
  - by apply ret_Ok in Hrun as [_ ->].
  - run_inv. eapply IH; [| |done].
    + intros y e e' Hy. apply Hbody. by right.
    + eapply Hbody; [by left|done..].
Qed.

Lemma forEach_app {A} (l1 l2 : list A) (body : A -> M File FS unit) (d : Driver File FS) :
  forEach (l1 ++ l2) body d = (forEach l1 body;; forEach l2 body) d.
Proof.
  revert d. induction l1 as [|x l1 IH]; intros d; simpl.
  - done.
  - unfold mbind, M_bind, bind in *. by destruct (body x d).
Qed.

(** ** ~Driver *)

Lemma setState_all (s : Dashboard.TaskState) (l : list ptr) (d : Driver File FS) :
  (∀ p, p ∈ l -> is_Some (heap d !! p)) ->
  ∃ d', forEach l (λ p, update p (set_dashboardTask (Dashboard.setState s))) d = Ok tt d' ∧
    (∀ p, p ∈ l -> ∃ a', heap d' !! p = Some a' ∧ Dashboard.state (dashboardTask a') = s) ∧
    (∀ p, p ∉ l -> heap d' !! p = heap d !! p) ∧
    (∀ p, is_Some (heap d' !! p) ↔ is_Some (heap d !! p)).
Proof.
  revert d. induction l as [|x l IH]; intros d Halive; simpl.
  - exists d. split; [done|]. split; [|done]. by intros p ?%elem_of_nil.
  - destruct (Halive x) as [a Ha]; [by left|].
    set (d1 := set_heap (insert x (set_dashboardTask (Dashboard.setState s) a)) d).
    destruct (IH d1) as (d' & Hrun & Hset & Hother & Hdom).
    { intros p Hp. simpl. destruct (decide (x = p)) as [->|].
      - rewrite lookup_insert_eq. eauto.
      - rewrite lookup_insert_ne by done. apply Halive. by right. }
    exists d'. split; [|split; [|split]].
    + run_unfold. rewrite Ha. exact Hrun.
    + intros p [->|Hp]%elem_of_cons; [|by apply Hset].
      destruct (decide (x ∈ l)) as [Hin|Hnin]; [by apply Hset|].
      rewrite (Hother _ Hnin). simpl. rewrite lookup_insert_eq. eauto.
    + intros p [Hne Hnin]%not_elem_of_cons. rewrite (Hother _ Hnin). simpl.
      by rewrite lookup_insert_ne.
    + intros p. rewrite Hdom. simpl. destruct (decide (x = p)) as [->|].
      * rewrite lookup_insert_eq, Ha. split; eauto.
      * by rewrite lookup_insert_ne.
Qed.

(** ** Driver::startSomeActions *)

Lemma releaseBack_snoc {A} (v : list A) (x : A) : releaseBack (v ++ [x]) = Some (v, x).
Proof. unfold releaseBack. by rewrite reverse_snoc, reverse_involutive. Qed.

Lemma releaseBack_nil {A} : releaseBack (@nil A) = None.
Proof. done. Qed.

Lemma releaseBack_Some {A} (v rest : list A) (x : A) :
  releaseBack v = Some (rest, x) -> v = rest ++ [x].
Proof.
  destruct v as [|y v _] using rev_ind; [done|].
  rewrite releaseBack_snoc. by intros [= -> ->].
Qed.

Lemma releaseBack_None {A} (v : list A) : releaseBack v = None -> v = [].
Proof. destruct v as [|y v _] using rev_ind; [done|]. by rewrite releaseBack_snoc. Qed.

Lemma ActionDriver_start_Ok (p : ptr) (d : Driver File FS) (a : ActionDriver File) :
  heap d !! p = Some a ->
  ActionDriver_start p d =
    Ok tt (set_eventManager (λ q, q ++ [StartCallback p])
      (set_heap (insert p (set_dashboardTask (Dashboard.setState Dashboard.RUNNING)
                            (set_state RUNNING a)))
        (set_heap (insert p (set_state RUNNING a)) d))).
Proof.
  intros Hheap. unfold ActionDriver_start. run_unfold. rewrite Hheap. simpl.
  by rewrite lookup_insert_eq.
Qed.

Lemma startSomeActions_loop_spec (n : nat) (d : Driver File FS) :
  length (pendingActions d) ≤ n ->
  (∀ p, p ∈ pendingActions d -> is_Some (heap d !! p)) ->
  ∃ d' k, startSomeActions_loop n d = Ok tt d' ∧
    k ≤ length (pendingActions d) ∧
    ((Z.of_nat (length (activeActions d)) < maxConcurrentActions d)%Z ->
     pendingActions d ≠ [] -> k < length (pendingActions d)) ∧
    pendingActions d' = take k (pendingActions d) ∧
    activeActions d' = activeActions d ++ reverse (drop k (pendingActions d)) ∧
    eventManager d' =
      eventManager d ++ (StartCallback <$> reverse (drop k (pendingActions d))).
Proof.
  revert d. induction n as [|n IH]; intros d Hlen Halive; simpl.
  - destruct (pendingActions d) eqn:Hp; [|simpl in Hlen; lia].
    rewrite (bool_decide_eq_false_2 ([] ≠ [])) by (by intros []).
    rewrite andb_false_r. exists d, 0. rewrite Hp. simpl.
    rewrite !app_nil_r. repeat split; try done.
  - case_bool_decide as Hact; simpl; [case_bool_decide as Hne; simpl|].
    + destruct (releaseBack (pendingActions d)) as [[rest p]|] eqn:Hback;
        [|by apply releaseBack_None in Hback].
      apply releaseBack_Some in Hback.
      destruct (Halive p) as [a Ha]; [rewrite Hback; set_solver|].
      run_unfold. unfold try_catch. rewrite ActionDriver_start_Ok with (a := a) by done.
      match goal with |- ∃ d' k, startSomeActions_loop n ?d1 = _ ∧ _ =>
        destruct (IH d1) as (d' & k & Hrun & Hk & _ & Hpend & Hactive & Hqueue) end.
      { simpl. rewrite Hback, length_app in Hlen. simpl in Hlen. lia. }
      { simpl. intros q Hq. destruct (decide (p = q)) as [->|].
        - rewrite lookup_insert_eq. eauto.
        - rewrite !lookup_insert_ne by done. apply Halive. rewrite Hback. set_solver. }
      simpl in Hk, Hpend, Hactive, Hqueue.
      exists d', k. rewrite Hback, length_app. simpl.
      rewrite take_app_le, drop_app_le, reverse_snoc by done. simpl.
      rewrite Hactive, Hqueue, <- !(assoc_L (++)). simpl.
      repeat split; try done; lia.
    + exists d, (length (pendingActions d)). rewrite firstn_all, drop_all. simpl.
      rewrite !app_nil_r. repeat split; try done.
    + exists d, (length (pendingActions d)). rewrite firstn_all, drop_all. simpl.
      rewrite !app_nil_r. repeat split; try done.
Qed.

(** C5.  The pending queue is LIFO.  When [newer] was enqueued after [older],
    both are still pending and a slot is free, [startSomeActions] leaves a
    prefix of the queue pending and starts what it cut off the back in
    reverse order: [newer] is started first, and [older] either is started
    right after it or is not started. *)
Theorem startSomeActions_is_LIFO (d : Driver File FS) (queue : list ptr) (older newer : ptr) :
  pendingActions d = queue ++ [older; newer] ->
  (∀ p, p ∈ pendingActions d -> is_Some (heap d !! p)) ->
  (Z.of_nat (length (activeActions d)) < maxConcurrentActions d)%Z ->
  ∃ d' k rest, startSomeActions d = Ok tt d' ∧
    pendingActions d' = take k (pendingActions d) ∧
    reverse (drop k (pendingActions d)) = newer :: rest ∧
    activeActions d' = activeActions d ++ newer :: rest ∧
    eventManager d' = eventManager d ++ StartCallback newer :: (StartCallback <$> rest) ∧
    (rest = [] ∨ ∃ rest', rest = older :: rest').
Proof.
  intros Hpending Halive Hslot.
  destruct (startSomeActions_loop_spec (length (pendingActions d)) d)
    as (d' & k & Hrun & _ & Hk & Hpend & Hactive & Hqueue); [done..|].
  specialize (Hk Hslot). rewrite Hpending in Hk.
  specialize (Hk ltac:(by destruct queue)).
  rewrite length_app in Hk. simpl in Hk.
  assert (∃ rest, reverse (drop k (pendingActions d)) = newer :: rest ∧
            (rest = [] ∨ ∃ rest', rest = older :: rest')) as (rest & Hrev & Hrest).
  { rewrite Hpending. destruct (decide (k ≤ length queue)) as [Hle|Hgt].
    - rewrite drop_app_le by done.
      rewrite reverse_app. simpl. eexists. split; [done|]. right. eauto.
    - rewrite drop_app_ge by lia.
      replace (k - length queue) with 1 by lia. simpl.
      exists []. split; [done|]. by left. }
  exists d', k, rest. rewrite Hactive, Hqueue, Hrev. by repeat split.
Qed.

(** ** ActionDriver::returned: rollback *)

Lemma releaseAndShift_elem_of (this : ptr) (v : list ptr) :
  this ∈ v -> (releaseAndShift this v).1 = Some this.
Proof.
  induction v as [|p v IH]; simpl; [by intros ?%elem_of_nil|].
  intros Hin. destruct (decide (p = this)) as [->|Hne]; [done|].
  apply elem_of_cons in Hin as [->|Hin]; [done|].
  specialize (IH Hin). by destruct (releaseAndShift this v).
Qed.

Lemma releaseAndShift_not_elem_of (this : ptr) (v : list ptr) :
  this ∉ v -> releaseAndShift this v = (None, v).
Proof.
  induction v as [|p v IH]; simpl; [done|].
  intros [Hne Hnin]%not_elem_of_cons. rewrite decide_False by done.
  by rewrite IH.
Qed.

Lemma releaseAndShift_sublist (this : ptr) (v : list ptr) :
  sublist (releaseAndShift this v).2 v.
Proof.
  induction v as [|p v IH]; simpl; [done|].
  destruct (decide (p = this)); simpl; [by apply sublist_cons|].
  destruct (releaseAndShift this v). simpl in *. by apply sublist_skip.
Qed.

Lemma releaseAndShift_NoDup (this : ptr) (v : list ptr) :
  NoDup v -> (this ∉ (releaseAndShift this v).2) ∧ NoDup ((releaseAndShift this v).2).
Proof.
  intros Hnd. split; [|eapply sublist_NoDup; [done|apply releaseAndShift_sublist]].
  induction Hnd as [|p v Hp Hnd IH]; simpl; [by intros ?%elem_of_nil|].
  destruct (decide (p = this)) as [->|Hne]; simpl; [done|].
  destruct (releaseAndShift this v). simpl in *. set_solver.
Qed.

Lemma add_edges_Ok (this : ptr) (l : list (EntityId * string)) (d : Driver File FS) :
  forEach l (λ kv, modify (set_blockedActions (λ m, m ++ [(kv.1, this)]))) d =
    Ok tt (set_blockedActions (λ m, m ++ ((λ kv, (kv.1, this)) <$> l)) d).
Proof.
  revert d. induction l as [|x l IH]; intros d; simpl.
  - unfold ret. f_equal. driver_eq. by rewrite app_nil_r.
  - run_unfold. rewrite IH. f_equal. driver_eq. by rewrite <- (assoc_L (++)).
Qed.

Lemma returned_rollback_Ok (fuel : nat) (this : ptr) (d : Driver File FS)
    (a : ActionDriver File) :
  heap d !! this = Some a ->
  missingDependencies a ≠ ∅ ->
  this ∈ activeActions d ->
  returned fuel this d =
    Ok tt
      (set_blockedActions
         (λ m, m ++ ((λ kv, (kv.1, this)) <$> map_to_list (missingDependencies a)))
      (set_blockedActionPtrs (λ s, {[this]} ∪ s)
      (set_heap (λ _, <[this := rolledBack a]> (heap d))
      (set_eventManager (EventGroup_cancelAll this)
      (set_activeActions (λ _, (releaseAndShift this (activeActions d)).2) d))))).
Proof.
  intros Hheap Hmissing Hactive.
  pose proof (add_edges_Ok this (map_to_list (missingDependencies a))) as Hedges.
  unfold returned. unfold modify in Hedges. run_unfold. rewrite Hheap.
  pose proof (releaseAndShift_elem_of _ _ Hactive) as Hself.
  destruct (releaseAndShift this (activeActions d)) as [self rest]. simpl in Hself.
  subst self. rewrite decide_True by done. simpl. rewrite Hheap. simpl.
  repeat (rewrite lookup_insert_eq; simpl).
  rewrite Hedges. f_equal. driver_eq. by rewrite !insert_insert_eq.
Qed.

(** C2.  Whatever state the action reported, [returned] on an active driver
    with missing dependencies rolls everything back: [entityMap] (and the
    file pool) are as before, the provisions and outputs of the driver are
    empty, the callbacks of its [EventGroup] are cancelled, its task is
    BLOCKED, its state is PENDING, it has left [activeActions] for
    [blockedActionPtrs], and [blockedActions] has gained exactly one edge to
    it for every key of its [missingDependencies]; no other driver is
    touched and nothing is queued. *)
Theorem returned_rollback_is_total (fuel : nat) (this : ptr) (d : Driver File FS)
    (a : ActionDriver File) :
  heap d !! this = Some a ->
  missingDependencies a ≠ ∅ ->
  this ∈ activeActions d ->
  NoDup (activeActions d) ->
  ∃ d' a' edges, returned fuel this d = Ok tt d' ∧
    entityMap d' = entityMap d ∧ filePtrs d' = filePtrs d ∧
    heap d' !! this = Some a' ∧
    provisions a' = [] ∧ outputs a' = [] ∧
    missingDependencies a' = missingDependencies a ∧
    eventManager d' = EventGroup_cancelAll this (eventManager d) ∧
    Dashboard.state (dashboardTask a') = Dashboard.BLOCKED ∧
    state a' = PENDING ∧
    (this ∉ activeActions d') ∧ sublist (activeActions d') (activeActions d) ∧
    blockedActionPtrs d' = {[this]} ∪ blockedActionPtrs d ∧
    blockedActions d' = blockedActions d ++ edges ∧
    NoDup edges ∧
    (∀ id p, (id, p) ∈ edges ↔ p = this ∧ is_Some (missingDependencies a !! id)) ∧
    (∀ p, p ≠ this -> heap d' !! p = heap d !! p) ∧
    pendingActions d' = pendingActions d ∧ trace d' = trace d.
Proof.
  intros Hheap Hmissing Hactive Hnd.
  eexists _, (rolledBack a), ((λ kv, (kv.1, this)) <$> map_to_list (missingDependencies a)).
  split; [by apply returned_rollback_Ok|]. simpl.
  rewrite lookup_insert_eq.
  pose proof (releaseAndShift_NoDup this _ Hnd) as [Hnin _].
  pose proof (releaseAndShift_sublist this (activeActions d)) as Hsub.
  do 13 (split; [done|]). split; [|split; [|split; [|done]]].
  - apply NoDup_fmap_2_strong; [|apply NoDup_map_to_list].
    intros [i x] [j y] Hx Hy [= Hij]. simpl in Hij. subst j.
    apply elem_of_map_to_list in Hx, Hy. congruence.
  - intros id p. rewrite list_elem_of_fmap. split.
    + intros ([i x] & [= -> ->] & Hx). apply elem_of_map_to_list in Hx. simpl. eauto.
    + intros [-> [x Hx]]. exists (id, x). split; [done|]. by apply elem_of_map_to_list.
  - intros p Hp. by rewrite lookup_insert_ne.
Qed.

(** ** ActionDriver::returned: unblocking *)

Lemma unblockAction_Ok (id : EntityId) (w : ptr) (d : Driver File FS) (a : ActionDriver File) :
  heap d !! w = Some a ->
  unblockAction id w d =
    Ok tt (unblocked id [w] (<[w := set_missingDependencies (delete id) a]> (heap d))
             (if decide (delete id (missingDependencies a) = ∅ ∧ w ∈ blockedActionPtrs d)
              then [w] else []) d).
Proof.
  intros Hheap. unfold unblockAction. run_unfold. rewrite Hheap. simpl.
  rewrite lookup_insert_eq. simpl.
  destruct (decide (delete id (missingDependencies a) = ∅)) as [Hempty|Hne]; simpl.
  - destruct (decide (w ∈ blockedActionPtrs d)) as [Hin|Hnin].
    + rewrite decide_True by done. f_equal. driver_eq. set_solver.
    + rewrite decide_False by (by intros [_ ?]). f_equal. driver_eq.
      * by rewrite app_nil_r.
      * set_solver.
  - rewrite decide_False by (by intros [? _]). f_equal. driver_eq.
    + by rewrite app_nil_r.
    + set_solver.
Qed.

Lemma unblock_loop (id : EntityId) (l : list ptr) (d : Driver File FS) :
  (∀ w, w ∈ l -> is_Some (heap d !! w)) ->
  ∃ h' promoted,
    forEach l (unblockAction id) d = Ok tt (unblocked id l h' promoted d) ∧
    (∀ p, h' !! p = if decide (p ∈ l)
                    then set_missingDependencies (delete id) <$> heap d !! p
                    else heap d !! p) ∧
    NoDup promoted ∧
    (∀ w, w ∈ promoted ↔
       w ∈ l ∧ w ∈ blockedActionPtrs d ∧ delete id (missingOf d w) = ∅).
Proof.
  revert d. induction l as [|w l IH]; intros d Halive.
  - exists (heap d), []. simpl. split; [|split; [|split]].
    + unfold ret. f_equal. driver_eq; [by rewrite app_nil_r..|set_solver].
    + intros p. by destruct (decide (p ∈ [])) as [?%elem_of_nil|].
    + constructor.
    + intros x. split; [by intros ?%elem_of_nil|by intros [?%elem_of_nil _]].
  - destruct (Halive w) as [a Ha]; [by left|].
    pose proof (unblockAction_Ok id w d a Ha) as Hw.
    set (a1 := set_missingDependencies (delete id) a) in *.
    set (pw := if decide (delete id (missingDependencies a) = ∅ ∧ w ∈ blockedActionPtrs d)
               then [w] else []) in *.
    set (d1 := unblocked id [w] (<[w := a1]> (heap d)) pw d) in *.
    destruct (IH d1) as (h' & promoted & Hrun & Hh' & Hnd & Hprom).
    { intros x Hx. simpl. destruct (decide (w = x)) as [->|].
      - rewrite lookup_insert_eq. eauto.
      - rewrite lookup_insert_ne by done. apply Halive. by right. }
    exists h', (pw ++ promoted). split; [|split; [|split]].
    + simpl. unfold mbind, M_bind, bind. rewrite Hw, Hrun.
      f_equal. driver_eq.
      * by rewrite <- (assoc_L (++)).
      * by rewrite <- (assoc_L (++)).
      * rewrite list_to_set_app_L. set_solver.
    + intros p. rewrite Hh'. simpl.
      destruct (decide (w = p)) as [->|Hne].
      * rewrite lookup_insert_eq, Ha.
        destruct (decide (p ∈ p :: l)) as [_|Hn]; [|by destruct Hn; left]. simpl.
        destruct (decide (p ∈ l)); [|done]. simpl. unfold a1.
        unfold set_missingDependencies. simpl. by rewrite delete_delete_eq.
      * rewrite lookup_insert_ne by done.
        destruct (decide (p ∈ l)) as [Hin|Hnin].
        -- by rewrite decide_True by (by right).
        -- by rewrite decide_False by (by intros [?|?]%elem_of_cons).
    + apply NoDup_app. split; [|split; [|done]].
      * unfold pw. case_decide; [apply NoDup_singleton|constructor].
      * intros x Hx [_ [Hb _]]%Hprom. simpl in Hb. set_solver.
    + intros x. rewrite elem_of_app, Hprom, elem_of_cons. simpl.
      unfold missingOf. simpl. unfold pw.
      destruct (decide (w = x)) as [->|Hne].
      * rewrite lookup_insert_eq, Ha. simpl. rewrite delete_delete_eq.
        case_decide as Hc; set_solver.
      * rewrite lookup_insert_ne by done. case_decide as Hc; set_solver.
Qed.

Lemma equal_range_erase_range {V} (id : EntityId) (m : list (EntityId * V)) :
  equal_range id (erase_range id m) = [].
Proof.
  unfold equal_range, erase_range. rewrite list_filter_filter.
  induction m as [|kv m IH]; [done|].
  by rewrite filter_cons_False by (by intros [? ?]).
Qed.

Lemma equal_range_erase_range_ne {V} (id id' : EntityId) (m : list (EntityId * V)) :
  id' ≠ id -> equal_range id' (erase_range id m) = equal_range id' m.
Proof.
  intros Hne. unfold equal_range, erase_range.
  rewrite list_filter_filter_l; [done|]. by intros kv ->.
Qed.

(** C3.  When a committing driver publishes [id], every waiter in the bucket
    of [id] loses [id] from its missing dependencies; exactly the waiters
    whose map is empty afterwards leave [blockedActionPtrs] and are appended
    to [pendingActions]; the bucket of [id] is then erased and no other
    bucket changes; a waiter that still misses something stays blocked. *)
Theorem unblockActions_drains_bucket (id : EntityId) (d : Driver File FS) :
  let waiters := equal_range id (blockedActions d) in
  (∀ w, w ∈ waiters -> is_Some (heap d !! w) ∧ w ∈ blockedActionPtrs d) ->
  ∃ d' promoted, unblockActions id d = Ok tt d' ∧
    (∀ w, w ∈ waiters ->
       is_Some (heap d' !! w) ∧ missingOf d' w = delete id (missingOf d w)) ∧
    (∀ w, w ∈ promoted ↔ w ∈ waiters ∧ missingOf d' w = ∅) ∧
    NoDup promoted ∧
    pendingActions d' = pendingActions d ++ promoted ∧
    blockedActionPtrs d' = blockedActionPtrs d ∖ list_to_set promoted ∧
    (∀ w, w ∈ waiters -> missingOf d' w ≠ ∅ -> w ∈ blockedActionPtrs d') ∧
    blockedActions d' = erase_range id (blockedActions d) ∧
    equal_range id (blockedActions d') = [] ∧
    (∀ id', id' ≠ id ->
       equal_range id' (blockedActions d') = equal_range id' (blockedActions d)) ∧
    (∀ p, p ∉ waiters -> heap d' !! p = heap d !! p).
Proof.
  intros waiters Hwaiters.
  destruct (unblock_loop id waiters d) as (h' & promoted & Hrun & Hh' & Hnd & Hprom).
  { intros w Hw. by apply Hwaiters. }
  assert (∀ w, w ∈ waiters ->
            is_Some (h' !! w) ∧
            from_option missingDependencies ∅ (h' !! w) = delete id (missingOf d w))
    as Hmissing.
  { intros w Hw. rewrite Hh', decide_True by done. unfold missingOf.
    destruct (Hwaiters w Hw) as [[a ->] _]. simpl. eauto. }
  eexists _, promoted. split.
  { unfold unblockActions. run_unfold. fold waiters.
    unfold mbind, M_bind, bind in Hrun. by rewrite Hrun. }
  unfold missingOf in *. simpl.
  split; [exact Hmissing|]. split.
  { intros w. rewrite Hprom. split.
    - intros (Hw & _ & Hempty). split; [done|].
      by destruct (Hmissing w Hw) as [_ ->].
    - intros [Hw Hempty]. split; [done|]. split; [by apply Hwaiters|].
      by destruct (Hmissing w Hw) as [_ <-]. }
  do 3 (split; [done|]). split.
  { intros w Hw Hne. apply elem_of_difference. split; [by apply Hwaiters|].
    rewrite elem_of_list_to_set, Hprom. intros (_ & _ & Hempty).
    destruct (Hmissing w Hw) as [_ Heq]. congruence. }
  split; [done|]. split; [apply equal_range_erase_range|]. split.
  - intros id' Hne. by apply equal_range_erase_range_ne.
  - intros p Hp. by rewrite Hh', decide_False.
Qed.

(** ** ActionDriver::returned: the order of a commit *)

(** A loop whose every iteration appends a block of events appends the
    blocks of its iterations, in order. *)
Lemma forEach_Ok_trace {A} (R : A -> list (Event File) -> Prop) (l : list A)
    (body : A -> M File FS unit) :
  (∀ x d d', x ∈ l -> body x d = Ok tt d' -> ∃ es, trace d' = trace d ++ es ∧ R x es) ->
  ∀ d d', forEach l body d = Ok tt d' ->
    ∃ blocks, trace d' = trace d ++ concat blocks ∧ Forall2 R l blocks.
Proof.
  induction l as [|x l IH]; intros Hbody d d' Hrun; simpl in Hrun.
  - apply ret_Ok in Hrun as [_ ->]. exists []. simpl. by rewrite app_nil_r.
  - run_inv.
    destruct (Hbody x d d0) as (es & Hes & HR); [by left|done|].
    destruct (IH (λ y e e' Hy, Hbody y e e' (list_elem_of_further _ _ _ Hy)) d0 d' Hrun)
      as (blocks & Hblocks & Hall).
    exists (es :: blocks). simpl. rewrite Hblocks, Hes, (assoc_L (++)).
    split; [done|]. by constructor.
Qed.

Lemma concat_singletons {A B} (g : A -> B) (l : list A) (blocks : list (list B)) :
  Forall2 (λ x es, es = [g x]) l blocks -> concat blocks = g <$> l.
Proof. induction 1 as [|x es l blocks -> _ IH]; simpl; [done|by rewrite IH]. Qed.

Lemma offerFile_trace (srcFile tmpLocation : File) (factory : ActionFactory File)
    (d d' : Driver File FS) :
  offerFile srcFile tmpLocation factory d = Ok tt d' -> trace d' = trace d.
Proof. unfold offerFile. intros Hrun. by run_cases. Qed.

Lemma scanForActions_loop_trace (fuel : nat) (fileQueue : list (File * File))
    (d d' : Driver File FS) :
  scanForActions_loop fuel fileQueue d = Ok tt d' -> trace d' = trace d.
Proof.
  revert fileQueue d. induction fuel as [|fuel IH]; intros fileQueue d; simpl.
  - destruct (releaseBack fileQueue) as [[rest [srcFile tmpLocation]]|]; [done|].
    by intros [_ ->]%ret_Ok.
  - destruct (releaseBack fileQueue) as [[rest [srcFile tmpLocation]]|];
      [|by intros [_ ->]%ret_Ok].
    intros Hrun. run_inv.
    destruct (File_isDirectory srcFile (fileSystem d)).
    + run_cases; by apply IH in Hrun as ->.
    + run_inv. apply IH in Hrun. rewrite Hrun.
      match goal with Hloop : forEach _ _ _ = Ok _ _ |- _ =>
        eapply (forEach_Ok_inv (λ e, trace e = trace d)); [|done|exact Hloop] end.
      intros x e e' _ <-. apply offerFile_trace.
Qed.

Lemma scanForActions_trace (fuel : nat) (s t : File) (d d' : Driver File FS) :
  scanForActions fuel s t d = Ok tt d' -> trace d' = trace d ++ [EvScan s t].
Proof.
  unfold scanForActions, record. intros Hrun. run_inv.
  by apply scanForActions_loop_trace in Hrun as ->.
Qed.

Lemma fireTrigger_trace (id : EntityId) (f : File) (factory : ActionFactory File)
    (d d' : Driver File FS) :
  fireTrigger id f factory d = Ok tt d' -> trace d' = trace d ++ [EvTrigger id f].
Proof. unfold fireTrigger, record. intros Hrun. by run_cases. Qed.

Lemma unblockAction_trace (id : EntityId) (w : ptr) (d d' : Driver File FS) :
  unblockAction id w d = Ok tt d' -> trace d' = trace d ++ [EvUnblock id w].
Proof.
  intros Hrun. assert (is_Some (heap d !! w)) as [a Ha].
  { unfold unblockAction, record in Hrun. run_inv. simpl in *. eauto. }
  rewrite (unblockAction_Ok _ _ _ _ Ha) in Hrun. by injection Hrun as <-.
Qed.

Lemma unblockActions_trace (id : EntityId) (d d' : Driver File FS) :
  unblockActions id d = Ok tt d' ->
  ∃ waiters, trace d' = trace d ++ (EvUnblock id <$> waiters).
Proof.
  unfold unblockActions. intros Hrun. run_inv.
  match goal with Hloop : forEach _ _ _ = Ok _ _ |- _ =>
    apply (forEach_Ok_trace (λ w es, es = [EvUnblock id w])) in Hloop
      as (blocks & Htrace & Hblocks%concat_singletons) end.
  - simpl. rewrite Htrace, Hblocks. eauto.
  - intros w e e' _ Hw. apply unblockAction_trace in Hw. eauto.
Qed.

Lemma fireTriggers_trace (id : EntityId) (f : File) (d d' : Driver File FS) :
  fireTriggers id f d = Ok tt d' ->
  ∃ factories : list (ActionFactory File),
    trace d' = trace d ++ ((λ _, EvTrigger id f) <$> factories).
Proof.
  unfold fireTriggers. intros Hrun. run_inv.
  match goal with Hloop : forEach _ _ _ = Ok _ _ |- _ =>
    apply (forEach_Ok_trace (λ _ es, es = [EvTrigger id f])) in Hloop
      as (blocks & Htrace & Hblocks%concat_singletons) end.
  - simpl. rewrite Htrace, Hblocks. eauto.
  - intros w e e' _ Hw. apply fireTrigger_trace in Hw. eauto.
Qed.

Lemma registerEntity_trace (f : File) (id : EntityId) (d d' : Driver File FS) :
  registerEntity f id d = Ok tt d' ->
  ∃ es, trace d' = trace d ++ es ∧ entityBlock f id es.
Proof.
  unfold registerEntity. intros Hrun. run_inv.
  match goal with Hu : unblockActions _ _ = Ok _ _ |- _ =>
    apply unblockActions_trace in Hu as (waiters & Hunblocked) end.
  apply fireTriggers_trace in Hrun as (factories & Htrace).
  rewrite Htrace, Hunblocked. simpl. rewrite <- (assoc_L (++)). eexists. split; [done|].
  by exists waiters, factories.
Qed.

Lemma registerProvider_trace (p : Provision File) (d d' : Driver File FS) :
  registerProvider p d = Ok tt d' ->
  ∃ es, trace d' = trace d ++ es ∧ provisionBlock p es.
Proof.
  unfold registerProvider. intros Hrun. run_inv.
  apply (forEach_Ok_trace (entityBlock (file p))) in Hrun as (blocks & Htrace & Hblocks).
  - simpl in Htrace. rewrite Htrace. eexists. split; [done|]. by exists blocks.
  - intros id e e' _. apply registerEntity_trace.
Qed.

Lemma returned_commit_trace (fuel : nat) (this : ptr) (d d' : Driver File FS)
    (a : ActionDriver File) :
  heap d !! this = Some a ->
  missingDependencies a = ∅ ->
  state a = SUCCEEDED ∨ state a = PASSED ->
  returned fuel this d = Ok tt d' ->
  ∃ es, trace d' = trace d ++ es ∧ commitTrace a es.
Proof.
  intros Hheap Hmissing Hstate. unfold returned. intros Hrun.
  apply bind_Ok in Hrun as (a0 & d0 & Hderef & Hrun).
  apply deref_Ok in Hderef as [Ha0 ->]. rewrite Hheap in Ha0. injection Ha0 as <-.
  apply bind_Ok in Hrun as (active & d0 & Hgets & Hrun).
  apply gets_Ok in Hgets as [-> ->].
  destruct (releaseAndShift this (activeActions d)) as [self rest].
  rewrite decide_False in Hrun by (by intros []).
  rewrite decide_True in Hrun by done.
  apply bind_Ok in Hrun as ([] & d0 & Hmod & Hrun).
  apply modify_Ok in Hmod as ->.
  apply bind_Ok in Hrun as ([] & d1 & Hcommit & Hrun).
  apply bind_Ok in Hcommit as ([] & d2 & Htask & Hcommit).
  apply update_Ok in Htask as (a1 & _ & ->).
  apply bind_Ok in Hcommit as ([] & d3 & Hprov & Hscan).
  apply (forEach_Ok_trace provisionBlock) in Hprov as (blocks & Hblocks & Hall);
    [|intros p e e' _; apply registerProvider_trace].
  apply (forEach_Ok_trace (λ o es, es = [EvScan o o])) in Hscan
    as (scans & Hscans & Hsingle%concat_singletons);
    [|intros o e e' _ Ho; apply scanForActions_trace in Ho; eauto].
  assert (trace d' = trace d1) as ->.
  { destruct self; [|by apply ret_Ok in Hrun as [_ ->]].
    unfold ActionDriver_delete in Hrun. by run_inv. }
  rewrite Hscans, Hblocks, Hsingle. simpl. rewrite <- (assoc_L (++)).
  eexists. split; [done|]. by exists blocks.
Qed.

Lemma entityBlock_no_scan (f : File) (id : EntityId) (es : list (Event File)) :
  entityBlock f id es -> Forall (λ e, isScan e = false) es.
Proof.
  intros (waiters & factories & ->). apply Forall_app. split.
  - apply Forall_fmap. by apply Forall_true.
  - apply Forall_fmap. by apply Forall_true.
Qed.

Lemma provisionBlock_no_scan (p : Provision File) (es : list (Event File)) :
  provisionBlock p es -> Forall (λ e, isScan e = false) es.
Proof.
  intros (blocks & -> & Hall). apply Forall_concat.
  induction Hall as [|id block ids blocks Hblock _ IH]; constructor; [|done].
  by eapply entityBlock_no_scan.
Qed.

Lemma provisionBlocks_no_scan (ps : list (Provision File))
    (blocks : list (list (Event File))) :
  Forall2 provisionBlock ps blocks -> Forall (λ e, isScan e = false) (concat blocks).
Proof.
  intros Hall. apply Forall_concat.
  induction Hall as [|p block ps blocks Hblock _ IH]; constructor; [|done].
  by eapply provisionBlock_no_scan.
Qed.

Lemma commitTrace_scans_last (a : ActionDriver File) (es : list (Event File)) :
  commitTrace a es -> allBefore (λ e, negb (isScan e)) isScan es.
Proof.
  intros (blocks & -> & Hno%provisionBlocks_no_scan) i j ei ej Hi Hj Hei Hej.
  assert (length (concat blocks) ≤ j) as Hjge.
  { destruct (decide (length (concat blocks) ≤ j)) as [|Hlt]; [done|].
    rewrite lookup_app_l in Hj by lia.
    rewrite Forall_lookup in Hno. rewrite (Hno _ _ Hj) in Hej. done. }
  assert (i < length (concat blocks)); [|lia].
  destruct (decide (i < length (concat blocks))) as [|Hge]; [done|].
  rewrite lookup_app_r in Hi by lia.
  apply list_lookup_fmap_Some in Hi as (o & -> & _). done.
Qed.

(** C1, as the code has it.  A commit publishes the entities one at a time,
    provision by provision: for each entity its waiters are unblocked and
    then its triggers fire, so a trigger of an earlier entity fires before the
    waiters of a later one are unblocked; every unblock and every trigger of
    the commit comes before the scan of any output. *)
Theorem returned_commit_order (fuel : nat) (this : ptr) (d d' : Driver File FS)
    (a : ActionDriver File) :
  heap d !! this = Some a ->
  missingDependencies a = ∅ ->
  state a = SUCCEEDED ∨ state a = PASSED ->
  returned fuel this d = Ok tt d' ->
  ∃ es, trace d' = trace d ++ es ∧ commitTrace a es ∧
    allBefore isUnblock isScan es ∧ allBefore isTrigger isScan es.
Proof.
  intros Hheap Hmissing Hstate Hrun.
  destruct (returned_commit_trace fuel this d d' a Hheap Hmissing Hstate Hrun)
    as (es & Htrace & Hes).
  exists es. split; [done|]. split; [done|].
  pose proof (commitTrace_scans_last a es Hes) as Hlast.
  split; intros i j ei ej Hi Hj Hei Hej; apply (Hlast i j ei ej Hi Hj); try done;
    by destruct ei.
Qed.

(** ** ActionDriver::returned: publishing *)

Lemma keepsDrivers_refl (d : Driver File FS) :
  (∀ p : ptr, is_Some (heap d !! p) -> p < nextPtr d) -> keepsDrivers d d.
Proof.
  intros Halloc. repeat split; try done. intros p _.
  destruct (heap d !! p) as [a|]; [|done]. by exists a.
Qed.

Lemma keepsDrivers_frame (d0 d d' : Driver File FS) :
  activeActions d' = activeActions d ->
  blockedActionPtrs d' ⊆ blockedActionPtrs d ->
  nextPtr d' = nextPtr d ->
  heap d' = heap d ->
  keepsDrivers d0 d -> keepsDrivers d0 d'.
Proof.
  intros Ha Hb Hn Hh (? & ? & ? & ? & ?). unfold keepsDrivers.
  rewrite Ha, Hn, Hh. repeat split; try done. set_solver.
Qed.

Lemma keepsDrivers_update (d0 d : Driver File FS) (p : ptr) (a a' : ActionDriver File) :
  heap d !! p = Some a -> sameRun a a' ->
  keepsDrivers d0 d -> keepsDrivers d0 (set_heap (insert p a') d).
Proof.
  intros Ha (Hs & Hpr & Ho) (? & ? & ? & Halloc & Hkeep). repeat split; simpl; try done.
  - intros q. destruct (decide (p = q)) as [->|].
    + intros _. apply Halloc. eauto.
    + rewrite lookup_insert_ne by done. apply Halloc.
  - intros q Hq. specialize (Hkeep q Hq). destruct (decide (p = q)) as [->|].
    + rewrite lookup_insert_eq.
      destruct (heap d0 !! q) as [b|]; simpl in Hkeep; [|congruence].
      destruct Hkeep as (b' & Hb' & Hs' & Hpr' & Ho'). exists a'.
      rewrite Ha in Hb'. injection Hb' as <-.
      split; [done|]. unfold sameRun. rewrite Hs, Hpr, Ho. done.
    + by rewrite lookup_insert_ne.
Qed.

Lemma keepsDrivers_queueNewAction (d0 d : Driver File FS) (a : ActionDriver File) :
  keepsDrivers d0 d ->
  keepsDrivers d0 (set_pendingActions (λ q, q ++ [nextPtr d])
                     (set_heap (insert (nextPtr d) a) (set_nextPtr S d))).
Proof.
  intros (? & ? & ? & Halloc & Hkeep). repeat split; simpl; try done; [lia| |].
  - intros q. destruct (decide (nextPtr d = q)) as [<-|]; [lia|].
    rewrite lookup_insert_ne by done. intros ?%Halloc. lia.
  - intros q Hq. specialize (Hkeep q Hq). rewrite lookup_insert_ne by lia. done.
Qed.

(** Strips an assignment that keeps the drivers. *)
Ltac keeps_frame :=
  repeat match goal with
  | |- keepsDrivers ?d0 (_ _ ?d1) =>
      apply (keepsDrivers_frame d0 d1); [done|simpl; set_solver|done|done|]
  end.

Lemma unblockAction_keepsDrivers (d0 : Driver File FS) (id : EntityId) (w : ptr)
    (d d' : Driver File FS) :
  keepsDrivers d0 d -> unblockAction id w d = Ok tt d' ->
  keepsDrivers d0 d' ∧ entityMap d' = entityMap d ∧ blockedActions d' = blockedActions d.
Proof.
  intros HK Hrun. unfold unblockAction, record in Hrun. run_cases; simpl in *.
  all: split; [|done].
  all: keeps_frame; (eapply keepsDrivers_update; [done|done|]); by keeps_frame.
Qed.

Lemma fireTrigger_keepsDrivers (d0 : Driver File FS) (id : EntityId) (f : File)
    (factory : ActionFactory File) (d d' : Driver File FS) :
  keepsDrivers d0 d -> fireTrigger id f factory d = Ok tt d' ->
  keepsDrivers d0 d' ∧ entityMap d' = entityMap d ∧ blockedActions d' = blockedActions d.
Proof.
  intros HK Hrun. unfold fireTrigger, record in Hrun. run_cases.
  all: split; [|done].
  - apply keepsDrivers_queueNewAction. by keeps_frame.
  - by keeps_frame.
Qed.

Lemma registerEntity_frame (f : File) (id : EntityId) (d d' : Driver File FS) :
  (∀ p : ptr, is_Some (heap d !! p) -> p < nextPtr d) ->
  registerEntity f id d = Ok tt d' ->
  keepsDrivers d d' ∧
  entityMap d' = <[id := f]> (entityMap d) ∧
  blockedActions d' = erase_range id (blockedActions d).
Proof.
  intros Halloc Hrun. unfold registerEntity, unblockActions, fireTriggers in Hrun.
  run_inv.
  match goal with Hloop : forEach _ (unblockAction id) _ = Ok _ ?d1 |- _ =>
    assert (keepsDrivers d d1 ∧ entityMap d1 = <[id := f]> (entityMap d) ∧
            blockedActions d1 = blockedActions d) as (HK1 & He1 & Hb1);
    [eapply (forEach_Ok_inv (λ e, keepsDrivers d e ∧
              entityMap e = <[id := f]> (entityMap d) ∧
              blockedActions e = blockedActions d)); [| |exact Hloop]|] end.
  { intros w e e' _ (HK & He & Hb) Hw.
    destruct (unblockAction_keepsDrivers _ _ _ _ _ HK Hw) as (? & -> & ->). done. }
  { split; [|done]. keeps_frame. by apply keepsDrivers_refl. }
  eapply (forEach_Ok_inv (λ e, keepsDrivers d e ∧
              entityMap e = <[id := f]> (entityMap d) ∧
              blockedActions e = erase_range id (blockedActions d))); [| |exact Hrun].
  { intros w e e' _ (HK & He & Hb) Hw.
    destruct (fireTrigger_keepsDrivers _ _ _ _ _ _ HK Hw) as (? & -> & ->). done. }
  simpl. rewrite He1, Hb1. split; [|done]. by keeps_frame.
Qed.

(** A loop that offers something to factories and queues the actions they
    make, as the factory loop of [scanForActions] and the trigger loop of
    [returned] do. *)
Lemma offers_Ok (make : ActionFactory File -> option Action) (f t : File)
    (pre : Driver File FS -> Driver File FS)
    (factories : list (ActionFactory File)) (d : Driver File FS) :
  (∀ e act, pre (enqueued act f t e) = enqueued act f t (pre e)) ->
  forEach factories
    (λ factory, modify pre;;
       match make factory with
       | Some act => queueNewAction act f t
       | None => ret tt
       end) d =
  Ok tt (foldl (λ e factory,
                  match make factory with
                  | Some act => enqueued act f t (pre e)
                  | None => pre e
                  end) d factories).
Proof.
  intros Hpre. revert d. induction factories as [|x l IH]; intros d; [done|].
  simpl. unfold mbind, M_bind, bind, modify in *.
  destruct (make x) as [act|]; simpl; by rewrite IH.
Qed.

Lemma enqueued_all (make : ActionFactory File -> option Action) (f t : File)
    (pre : Driver File FS -> Driver File FS)
    (factories : list (ActionFactory File)) (d : Driver File FS) :
  (∀ e, pendingActions (pre e) = pendingActions e) ->
  (∀ e, nextPtr (pre e) = nextPtr e) ->
  (∀ e, heap (pre e) = heap e) ->
  let d' := foldl (λ e factory,
                     match make factory with
                     | Some act => enqueued act f t (pre e)
                     | None => pre e
                     end) d factories in
  let acts := omap make factories in
  pendingActions d' = pendingActions d ++ seq (nextPtr d) (length acts) ∧
  nextPtr d' = nextPtr d + length acts ∧
  (∀ i act, acts !! i = Some act ->
     heap d' !! (nextPtr d + i) =
       Some (ActionDriver_new act t
               (Dashboard.beginTask (getVerb act) (File_displayName f)))) ∧
  (∀ p : ptr, p < nextPtr d -> heap d' !! p = heap d !! p).
Proof.
  intros Hp Hn Hh. revert d. induction factories as [|x l IH]; intros d; simpl.
  - rewrite app_nil_r, Nat.add_0_r. repeat split; try done.
  - change (list_omap (ActionFactory File) Action make l) with (omap make l).
    destruct (make x) as [act|] eqn:Hmake.
    + destruct (IH (enqueued act f t (pre d))) as (IHp & IHn & IHnew & IHold).
      assert (nextPtr (enqueued act f t (pre d)) = S (nextPtr d)) as Hnext
        by (simpl; by rewrite Hn).
      rewrite Hnext in *. rewrite IHp, IHn. split; [|split; [|split]].
      * simpl. rewrite Hp, Hn, <- (assoc_L (++)). done.
      * simpl. lia.
      * intros [|i] act' Hact; simpl in Hact.
        -- injection Hact as <-. rewrite Nat.add_0_r, IHold by lia.
           simpl. rewrite Hn. by rewrite lookup_insert_eq.
        -- replace (nextPtr d + S i) with (S (nextPtr d) + i) by lia. by apply IHnew.
      * intros p Hlt. rewrite IHold by lia. simpl. rewrite Hn, Hh.
        by rewrite lookup_insert_ne by lia.
    + destruct (IH (pre d)) as (IHp & IHn & IHnew & IHold).
      rewrite Hp, Hn, Hh in *. done.
Qed.

Lemma enqueued_all_frame {B} (g : Driver File FS -> B)
    (make : ActionFactory File -> option Action) (f t : File)
    (pre : Driver File FS -> Driver File FS)
    (factories : list (ActionFactory File)) (d : Driver File FS) :
  (∀ e, g (pre e) = g e) ->
  (∀ act e, g (enqueued act f t e) = g e) ->
  g (foldl (λ e factory,
              match make factory with
              | Some act => enqueued act f t (pre e)
              | None => pre e
              end) d factories) = g d.
Proof.
  intros Hpre Henq. revert d. induction factories as [|x l IH]; intros d; [done|].
  simpl. rewrite IH. destruct (make x); by rewrite ?Henq, Hpre.
Qed.

Lemma enqueued_all_trace (ev : Event File)
    (make : ActionFactory File -> option Action) (f t : File)
    (factories : list (ActionFactory File)) (d : Driver File FS) :
  trace (foldl (λ e factory,
                  match make factory with
                  | Some act => enqueued act f t (set_trace (λ tr, tr ++ [ev]) e)
                  | None => set_trace (λ tr, tr ++ [ev]) e
                  end) d factories) = trace d ++ ((λ _, ev) <$> factories).
Proof.
  revert d. induction factories as [|x l IH]; intros d; simpl.
  - by rewrite app_nil_r.
  - rewrite IH. destruct (make x); simpl; by rewrite <- (assoc_L (++)).
Qed.

Lemma fireTriggers_Ok (id : EntityId) (f : File) (d : Driver File FS) :
  fireTriggers id f d =
    Ok tt (foldl (λ e factory,
                    match tryMakeActionForEntity factory id f with
                    | Some act => enqueued act f f (set_trace (λ tr, tr ++ [EvTrigger id f]) e)
                    | None => set_trace (λ tr, tr ++ [EvTrigger id f]) e
                    end) d (equal_range id (triggers d))).
Proof.
  exact (offers_Ok (λ factory, tryMakeActionForEntity factory id f) f f
           (set_trace (λ tr, tr ++ [EvTrigger id f]))
           (equal_range id (triggers d)) d (λ _ _, eq_refl)).
Qed.

Lemma unblockActions_allocates_nothing (id : EntityId) (d d' : Driver File FS) :
  unblockActions id d = Ok tt d' ->
  nextPtr d' = nextPtr d ∧ triggers d' = triggers d.
Proof.
  unfold unblockActions. intros Hrun. run_inv. simpl.
  eapply (forEach_Ok_inv (λ e, nextPtr e = nextPtr d ∧ triggers e = triggers d));
    [|done|done].
  intros w e e' _ [Hn Ht] Hw. unfold unblockAction, record in Hw.
  run_cases; simpl in *; done.
Qed.

(** C7.  Publication in [entityMap] is last-writer-wins, and idempotent on
    [entityMap] only: publishing [(id, f)] makes [f] the provider of [id],
    whatever was recorded before, and changes the provider of no other
    entity; publishing a pair that is already recorded leaves [entityMap] as
    it was.  A publication neither starts, stops, deletes nor revives a
    driver, nor adds anything to the blocked set or to any bucket of
    [blockedActions].  But every publication, repeated or not, empties the
    bucket of [id] and fires the triggers of [id]: for each action that a
    factory registered for [id] makes, a new driver, as the constructor
    leaves it, is queued as pending. *)
Theorem registerEntity_last_writer_wins (f : File) (id : EntityId) (d d' : Driver File FS) :
  (∀ p : ptr, is_Some (heap d !! p) -> p < nextPtr d) ->
  registerEntity f id d = Ok tt d' ->
  entityMap d' !! id = Some f ∧
  (∀ id', id' ≠ id -> entityMap d' !! id' = entityMap d !! id') ∧
  (entityMap d !! id = Some f -> entityMap d' = entityMap d) ∧
  keepsDrivers d d' ∧
  blockedActions d' = erase_range id (blockedActions d) ∧
  nextPtr d' =
    nextPtr d + length (omap (λ factory, tryMakeActionForEntity factory id f)
                          (equal_range id (triggers d))) ∧
  (∀ p : ptr, nextPtr d ≤ p < nextPtr d' ->
     p ∈ pendingActions d' ∧ ∃ a, heap d' !! p = Some a ∧ pristine a) ∧
  (∀ factory act, factory ∈ equal_range id (triggers d) ->
     tryMakeActionForEntity factory id f = Some act ->
     ∃ (p : ptr) a, nextPtr d ≤ p < nextPtr d' ∧
       heap d' !! p = Some a ∧ action a = act).
Proof.
  intros Halloc Hrun.
  destruct (registerEntity_frame f id d d' Halloc Hrun) as (HK & He & Hb).
  rewrite He.
  split; [apply lookup_insert_eq|]. split; [by intros id' Hne; apply lookup_insert_ne|].
  split; [by intros Hsame; apply insert_id|]. split; [done|]. split; [done|].
  unfold registerEntity in Hrun. run_inv.
  match goal with Hu : unblockActions _ _ = Ok _ ?e |- _ =>
    apply unblockActions_allocates_nothing in Hu as [Hn Ht]; simpl in Hn, Ht;
    rename e into mid end.
  rewrite fireTriggers_Ok in Hrun. injection Hrun as Hd'.
  set (make := λ factory : ActionFactory File, tryMakeActionForEntity factory id f).
  set (pre := set_trace (λ tr, tr ++ [EvTrigger id f])
               : Driver File FS -> Driver File FS).
  destruct (enqueued_all make f f pre (equal_range id (triggers mid)) mid)
    as (Hp & Hnext & Hnew & _); [done..|].
  unfold make, pre in Hp, Hnext, Hnew. rewrite Hd' in Hp, Hnext, Hnew.
  fold make in Hp, Hnext, Hnew. rewrite Ht, Hn in Hp, Hnext, Hnew.
  split; [exact Hnext|]. split.
  - intros p [Hlo Hhi]. rewrite Hnext in Hhi.
    destruct (lookup_lt_is_Some_2 (omap make (equal_range id (triggers d)))
                (p - nextPtr d)) as [act Hact]; [lia|].
    specialize (Hnew _ _ Hact). replace (nextPtr d + (p - nextPtr d)) with p in Hnew by lia.
    split.
    + rewrite Hp. apply elem_of_app. right. apply elem_of_seq. lia.
    + eexists. split; [exact Hnew|done].
  - intros factory act Hin Hmake.
    assert (act ∈ omap make (equal_range id (triggers d))) as Hact
      by (apply list_elem_of_omap; eauto).
    apply list_elem_of_lookup in Hact as [i Hi].
    pose proof (lookup_lt_Some _ _ _ Hi) as Hlt.
    exists (nextPtr d + i), (ActionDriver_new act f
              (Dashboard.beginTask (getVerb act) (File_displayName f))).
    split; [lia|]. split; [by apply Hnew|done].
Qed.

(** ** The invariant of the event loop *)

Lemma doneCallbacks_app (q1 q2 : list Callback) :
  doneCallbacks (q1 ++ q2) = doneCallbacks q1 ++ doneCallbacks q2.
Proof. apply omap_app. Qed.

Lemma doneCallbacks_cancelAll (owner : ptr) (q : list Callback) :
  doneCallbacks (EventGroup_cancelAll owner q) = doneCallbacks q.
Proof.
  unfold EventGroup_cancelAll. induction q as [|[p|p] q IH]; [done|..].
  - rewrite filter_cons. simpl. case_decide; simpl; apply IH.
  - rewrite filter_cons_True by done. simpl. by rewrite IH.
Qed.

Lemma releaseAndShift_elem_of_ne (this p : ptr) (v : list ptr) :
  p ∈ v -> p ≠ this -> p ∈ (releaseAndShift this v).2.
Proof.
  induction v as [|q v IH]; simpl; [done|].
  intros Hp Hne. destruct (decide (q = this)) as [->|]; simpl.
  - apply elem_of_cons in Hp as [?|?]; done.
  - destruct (releaseAndShift this v) as [self rest]. simpl in *.
    apply elem_of_cons in Hp as [->|Hp]; [by left|]. right. by apply IH.
Qed.

Section Invariant.

Variable cap : Z.

Lemma Inv_frame (L : list ptr) (dr : option EntityId) (d d' : Driver File FS) :
  pendingActions d' = pendingActions d ->
  activeActions d' = activeActions d ->
  blockedActionPtrs d' = blockedActionPtrs d ->
  blockedActions d' = blockedActions d ->
  heap d' = heap d ->
  nextPtr d' = nextPtr d ->
  maxConcurrentActions d' = maxConcurrentActions d ->
  doneCallbacks (eventManager d') = doneCallbacks (eventManager d) ->
  Inv cap L dr d -> Inv cap L dr d'.
Proof.
  intros Hp Ha Hb He Hh Hn Hm Hq
    [Hmax Hpnd Hand Hpend Hblk Hact Hlimbo Hheapb Hcap Hrunning Hdone Hdnd Hedges].
  split; unfold missingOf in *; rewrite ?Hp, ?Ha, ?Hb, ?He, ?Hh, ?Hn, ?Hm, ?Hq; done.
Qed.

Lemma Inv_new (fs : FS) (s t : File) : Inv cap [] None (Driver_new fs s t cap).
Proof.
  split; simpl; try (by constructor); try (by intros p ?%elem_of_nil);
    try (by intros p ?%elem_of_empty); try (by intros id p ?%elem_of_nil).
  - intros p [a Ha]. by rewrite lookup_empty in Ha.
  - lia.
Qed.

(** A driver in [limbo], or active, or in state RUNNING, is neither pending
    nor blocked; one in [limbo], or pending, or in state RUNNING, has no
    completion callback waiting. *)
Lemma Inv_limbo_free (L : list ptr) (dr : option EntityId) (p : ptr) (d : Driver File FS) :
  Inv cap L dr d -> p ∈ L ->
  (p ∉ pendingActions d) ∧ (p ∉ blockedActionPtrs d) ∧
  (p ∉ doneCallbacks (eventManager d)).
Proof.
  intros HI Hp. repeat split.
  - intros Hin. by destruct (inv_pending _ _ _ _ HI _ Hin) as (_ & _ & ? & _).
  - intros Hin. by destruct (inv_blocked _ _ _ _ HI _ Hin) as (_ & ? & _).
  - intros [Hin _]%(inv_done _ _ _ _ HI). by destruct (inv_active _ _ _ _ HI _ Hin).
Qed.

Lemma Inv_active_free (L : list ptr) (dr : option EntityId) (p : ptr) (d : Driver File FS) :
  Inv cap L dr d -> p ∈ activeActions d ->
  (p ∉ pendingActions d) ∧ (p ∉ blockedActionPtrs d).
Proof.
  intros HI Hp. split.
  - intros Hin. by destruct (inv_pending _ _ _ _ HI _ Hin) as (? & _).
  - intros Hin. by destruct (inv_blocked _ _ _ _ HI _ Hin) as (? & _).
Qed.

Lemma Inv_running_free (dr : option EntityId) (p : ptr) (a : ActionDriver File)
    (d : Driver File FS) :
  Inv cap [] dr d -> heap d !! p = Some a -> state a = RUNNING ->
  p ∈ activeActions d ∧ (p ∉ pendingActions d) ∧ (p ∉ blockedActionPtrs d) ∧
  (p ∉ doneCallbacks (eventManager d)).
Proof.
  intros HI Ha Hs.
  destruct (inv_running _ _ _ _ HI p a Ha) as [Hin|Hin%elem_of_nil]; [congruence| |done].
  destruct (Inv_active_free _ _ _ _ HI Hin) as [? ?]. repeat split; try done.
  intros (_ & b & Hb & _ & Hbs)%(inv_done _ _ _ _ HI). congruence.
Qed.

Lemma Inv_pending_free (L : list ptr) (dr : option EntityId) (p : ptr) (d : Driver File FS) :
  Inv cap L dr d -> p ∈ pendingActions d -> p ∉ doneCallbacks (eventManager d).
Proof.
  intros HI Hp [Hin _]%(inv_done _ _ _ _ HI).
  by destruct (inv_pending _ _ _ _ HI _ Hp) as (? & _).
Qed.

(** An assignment to members of an object that is neither pending nor
    blocked, and has no completion callback waiting. *)
Lemma Inv_update_free (L : list ptr) (dr : option EntityId) (p : ptr)
    (a' : ActionDriver File) (d : Driver File FS) :
  is_Some (heap d !! p) ->
  p ∉ pendingActions d -> p ∉ blockedActionPtrs d ->
  p ∉ doneCallbacks (eventManager d) ->
  p ∈ activeActions d ∨ p ∈ L ->
  Inv cap L dr d -> Inv cap L dr (set_heap (insert p a') d).
Proof.
  intros Halive Hnp Hnb Hnd Hown
    [Hmax Hpnd Hand Hpend Hblk Hact Hlimbo Hheapb Hcap Hrunning Hdone Hdnd Hedges].
  split; simpl; try done.
  - intros q Hq. destruct (Hpend q Hq) as (? & ? & ? & ?).
    repeat split; try done. rewrite lookup_insert_ne; [done|]. by intros ->.
  - intros q Hq. destruct (Hblk q Hq) as (? & ? & ?).
    repeat split; try done. rewrite lookup_insert_ne; [done|]. by intros ->.
  - intros q Hq. destruct (Hact q Hq) as [? ?]. split; [done|].
    apply lookup_insert_is_Some'. by right.
  - intros q Hq. apply lookup_insert_is_Some'. right. by apply Hlimbo.
  - intros q [->|Hq]%lookup_insert_is_Some'; by apply Hheapb.
  - intros q b. destruct (decide (p = q)) as [->|].
    + by intros _ _.
    + rewrite lookup_insert_ne by done. apply Hrunning.
  - intros q Hq. destruct (Hdone q Hq) as (? & ?). split; [done|].
    rewrite lookup_insert_ne; [done|]. by intros ->.
  - intros id q Hq. destruct (Hedges id q Hq) as [?|[Hb Hm]]; [by left|right].
    split; [done|]. unfold missingOf in *. simpl.
    rewrite lookup_insert_ne; [done|]. by intros ->.
Qed.

(** An assignment that keeps what the invariant says of the object. *)
Lemma Inv_update_compat (L : list ptr) (dr : option EntityId) (p : ptr)
    (a a' : ActionDriver File) (d : Driver File FS) :
  heap d !! p = Some a ->
  state a' = state a -> provisions a' = provisions a -> outputs a' = outputs a ->
  (missingDependencies a = ∅ -> missingDependencies a' = ∅) ->
  (∀ id, is_Some (missingDependencies a !! id) ->
     dr = Some id ∨ is_Some (missingDependencies a' !! id)) ->
  Inv cap L dr d -> Inv cap L dr (set_heap (insert p a') d).
Proof.
  intros Ha Hs Hpr Ho Hm Hkeys
    [Hmax Hpnd Hand Hpend Hblk Hact Hlimbo Hheapb Hcap Hrunning Hdone Hdnd Hedges].
  split; simpl; try done.
  - intros q Hq. destruct (Hpend q Hq) as (? & ? & ? & b & Hb & Hpristine).
    repeat split; try done. destruct (decide (p = q)) as [->|].
    + rewrite lookup_insert_eq. exists a'. split; [done|].
      rewrite Ha in Hb. injection Hb as <-. destruct Hpristine as (? & ? & ? & ?).
      unfold pristine. rewrite Hs, Hpr, Ho. auto.
    + rewrite lookup_insert_ne by done. eauto.
  - intros q Hq. destruct (Hblk q Hq) as (? & ? & b & Hb & Hrewound).
    repeat split; try done. destruct (decide (p = q)) as [->|].
    + rewrite lookup_insert_eq. exists a'. split; [done|].
      rewrite Ha in Hb. injection Hb as <-. destruct Hrewound as (? & ? & ?).
      unfold rewound. rewrite Hs, Hpr, Ho. auto.
    + rewrite lookup_insert_ne by done. eauto.
  - intros q Hq. destruct (Hact q Hq) as [? ?]. split; [done|].
    apply lookup_insert_is_Some'. by right.
  - intros q Hq. apply lookup_insert_is_Some'. right. by apply Hlimbo.
  - intros q [->|Hq]%lookup_insert_is_Some'; apply Hheapb; eauto.
  - intros q b. destruct (decide (p = q)) as [->|].
    + rewrite lookup_insert_eq. intros [= <-]. rewrite Hs. by apply Hrunning.
    + rewrite lookup_insert_ne by done. apply Hrunning.
  - intros q Hq. destruct (Hdone q Hq) as (? & b & Hb & ? & ?). split; [done|].
    destruct (decide (p = q)) as [->|].
    + rewrite lookup_insert_eq. exists a'. rewrite Ha in Hb. injection Hb as <-.
      rewrite Hs. done.
    + rewrite lookup_insert_ne by done. eauto.
  - intros id q Hq. destruct (Hedges id q Hq) as [?|[Hb Hmiss]]; [by left|].
    unfold missingOf in *. simpl. destruct (decide (p = q)) as [->|].
    + rewrite lookup_insert_eq. rewrite Ha in Hmiss. simpl in *.
      destruct (Hkeys id Hmiss); [by left|by right].
    + right. by rewrite lookup_insert_ne.
Qed.

Lemma Inv_update_same (L : list ptr) (dr : option EntityId) (p : ptr)
    (a a' : ActionDriver File) (d : Driver File FS) :
  heap d !! p = Some a ->
  state a' = state a -> provisions a' = provisions a -> outputs a' = outputs a ->
  missingDependencies a' = missingDependencies a ->
  Inv cap L dr d -> Inv cap L dr (set_heap (insert p a') d).
Proof.
  intros Ha Hs Hpr Ho Hm. apply (Inv_update_compat L dr p a a'); try done.
  - by rewrite Hm.
  - intros id. rewrite Hm. by right.
Qed.

Lemma Inv_queueNewAction (L : list ptr) (dr : option EntityId) (a : ActionDriver File)
    (d : Driver File FS) :
  pristine a ->
  Inv cap L dr d ->
  Inv cap L dr (set_pendingActions (λ q, q ++ [nextPtr d])
                 (set_heap (insert (nextPtr d) a) (set_nextPtr S d))).
Proof.
  intros Hpristine
    [Hmax Hpnd Hand Hpend Hblk Hact Hlimbo Hheapb Hcap Hrunning Hdone Hdnd Hedges].
  assert (∀ p : ptr, is_Some (heap d !! p) -> nextPtr d ≠ p) as Hnew.
  { intros p Hp%Hheapb. lia. }
  split; simpl; try done.
  - apply NoDup_app. split; [done|]. split; [|apply NoDup_singleton].
    intros p Hp ->%list_elem_of_singleton.
    destruct (Hpend _ Hp) as (_ & _ & _ & b & Hb & _). by apply (Hnew (nextPtr d)); eauto.
  - intros p [Hp| ->%list_elem_of_singleton]%elem_of_app.
    + destruct (Hpend _ Hp) as (? & ? & ? & b & Hb & ?).
      repeat split; try done. exists b. split; [|done].
      rewrite lookup_insert_ne; [done|]. apply Hnew. eauto.
    + repeat split.
      * intros [_ Halive]%Hact. by apply (Hnew (nextPtr d)).
      * intros (_ & _ & b & Hb & _)%Hblk. by apply (Hnew (nextPtr d)); eauto.
      * intros Halive%Hlimbo. by apply (Hnew (nextPtr d)).
      * exists a. by rewrite lookup_insert_eq.
  - intros p Hp. destruct (Hblk _ Hp) as (? & ? & b & Hb & ?).
    repeat split; try done. exists b. split; [|done].
    rewrite lookup_insert_ne; [done|]. apply Hnew. eauto.
  - intros p Hp. destruct (Hact _ Hp). split; [done|].
    apply lookup_insert_is_Some'. by right.
  - intros p Hp. apply lookup_insert_is_Some'. right. by apply Hlimbo.
  - intros p [<-|Hp%Hheapb]%lookup_insert_is_Some'; lia.
  - intros p b. destruct (decide (nextPtr d = p)) as [<-|].
    + rewrite lookup_insert_eq. intros [= <-]. by destruct Hpristine as [-> _].
    + rewrite lookup_insert_ne by done. apply Hrunning.
  - intros p Hp. destruct (Hdone p Hp) as (? & b & Hb & ?). split; [done|].
    exists b. split; [|done]. rewrite lookup_insert_ne; [done|]. apply Hnew. eauto.
  - intros id p Hp. destruct (Hedges id p Hp) as [?|[Hb Hm]]; [by left|right].
    split; [done|]. unfold missingOf in *. simpl.
    destruct (Hblk _ Hb) as (_ & _ & b & Hb' & _).
    rewrite lookup_insert_ne; [done|]. apply Hnew. eauto.
Qed.

(** The promotion of a blocked driver whose last dependency has arrived. *)
Lemma Inv_promote (L : list ptr) (dr : option EntityId) (w : ptr) (a : ActionDriver File)
    (d : Driver File FS) :
  w ∈ blockedActionPtrs d ->
  heap d !! w = Some a -> missingDependencies a = ∅ ->
  Inv cap L dr d ->
  Inv cap L dr (set_pendingActions (λ q, q ++ [w])
                 (set_blockedActionPtrs (λ s, s ∖ {[w]}) d)).
Proof.
  intros Hw Ha Hmissing
    [Hmax Hpnd Hand Hpend Hblk Hact Hlimbo Hheapb Hcap Hrunning Hdone Hdnd Hedges].
  destruct (Hblk _ Hw) as (Hwa & HwL & b & Hb & Hrewound).
  rewrite Ha in Hb. injection Hb as <-. split; simpl; try done.
  - apply NoDup_app. split; [done|]. split; [|apply NoDup_singleton].
    intros p Hp ->%list_elem_of_singleton.
    by destruct (Hpend _ Hp) as (_ & ? & _).
  - intros p [Hp| ->%list_elem_of_singleton]%elem_of_app.
    + destruct (Hpend _ Hp) as (? & ? & ? & ?).
      repeat split; try done. set_solver.
    + repeat split; try done; [set_solver|].
      exists a. split; [done|]. destruct Hrewound as (? & ? & ?). by repeat split.
  - intros p [Hp Hne]%elem_of_difference. by apply Hblk.
  - intros id p Hp. destruct (Hedges id p Hp) as [?|[Hb Hm]]; [by left|right].
    unfold missingOf in *. simpl. split; [|done].
    apply elem_of_difference. split; [done|]. intros ->%elem_of_singleton.
    rewrite Ha in Hm. simpl in Hm. rewrite Hmissing, lookup_empty in Hm.
    by destruct Hm.
Qed.

(** The head of [returned]: [this] leaves [activeActions] for [self]. *)
Lemma Inv_release (dr : option EntityId) (this : ptr) (d : Driver File FS) :
  this ∉ doneCallbacks (eventManager d) ->
  Inv cap [] dr d ->
  Inv cap (match (releaseAndShift this (activeActions d)).1 with
           | Some _ => [this]
           | None => []
           end) dr
    (set_activeActions (λ _, (releaseAndShift this (activeActions d)).2) d).
Proof.
  intros Hnd HI. destruct (decide (this ∈ activeActions d)) as [Hin|Hnin].
  - rewrite (releaseAndShift_elem_of _ _ Hin).
    destruct HI
      as [Hmax Hpnd Hand Hpend Hblk Hact Hlimbo Hheapb Hcap Hrunning Hdone Hdnd Hedges].
    pose proof (releaseAndShift_NoDup this _ Hand) as [Hthis Hnodup].
    pose proof (releaseAndShift_sublist this (activeActions d)) as Hsub.
    assert (∀ p, p ∈ (releaseAndShift this (activeActions d)).2 -> p ∈ activeActions d)
      as Hincl by (intros p Hp; by eapply elem_of_sublist).
    split; simpl; try done.
    + intros p Hp. destruct (Hpend _ Hp) as (Hpa & ? & ? & ?).
      repeat split; try done; [by intros ?%Hincl|].
      intros ->%list_elem_of_singleton. done.
    + intros p Hp. destruct (Hblk _ Hp) as (Hpa & ? & ?).
      repeat split; try done; [by intros ?%Hincl|].
      intros ->%list_elem_of_singleton. done.
    + intros p Hp. split; [|by apply Hact, Hincl].
      intros ->%list_elem_of_singleton. done.
    + intros p ->%list_elem_of_singleton. by apply Hact.
    + apply sublist_length in Hsub. lia.
    + intros p b Hb Hs. destruct (decide (p = this)) as [->|Hne]; [right; by left|].
      left. apply releaseAndShift_elem_of_ne; [|done].
      by destruct (Hrunning p b Hb Hs) as [?|?%elem_of_nil].
    + intros p Hp. destruct (Hdone p Hp) as (? & ?). split; [|done].
      apply releaseAndShift_elem_of_ne; [done|]. by intros ->.
  - rewrite (releaseAndShift_not_elem_of _ _ Hnin). simpl.
    eapply Inv_frame; [..|exact HI]; done.
Qed.

(** The rollback: [self] is adopted by [blockedActionPtrs]. *)
Lemma Inv_block (dr : option EntityId) (this : ptr) (a : ActionDriver File)
    (d : Driver File FS) :
  heap d !! this = Some a -> rewound a ->
  Inv cap [this] dr d ->
  Inv cap [] dr (set_blockedActionPtrs (λ s, {[this]} ∪ s) d).
Proof.
  intros Ha Hrewound
    [Hmax Hpnd Hand Hpend Hblk Hact Hlimbo Hheapb Hcap Hrunning Hdone Hdnd Hedges].
  split; simpl; try done.
  - intros p Hp. destruct (Hpend _ Hp) as (? & ? & HL & ?).
    repeat split; try done; [|by intros ?%elem_of_nil].
    intros [->%elem_of_singleton|?]%elem_of_union; [|done]. apply HL. by left.
  - intros p [->%elem_of_singleton|Hp]%elem_of_union.
    + repeat split; [|by intros ?%elem_of_nil|by exists a].
      intros [HL _]%Hact. apply HL. by left.
    + destruct (Hblk _ Hp) as (? & ? & ?).
      repeat split; try done. by intros ?%elem_of_nil.
  - intros p Hp. destruct (Hact _ Hp). split; [by intros ?%elem_of_nil|done].
  - by intros p ?%elem_of_nil.
  - intros p b Hb Hs. destruct (Hrunning p b Hb Hs) as [?| ->%list_elem_of_singleton];
      [by left|].
    rewrite Ha in Hb. injection Hb as <-. by destruct Hrewound as [? _].
  - intros id p Hp. destruct (Hedges id p Hp) as [?|[Hb Hm]]; [by left|right].
    split; [|done]. apply elem_of_union. by right.
Qed.

(** The rollback: one more edge to the driver just blocked. *)
Lemma Inv_add_edge (L : list ptr) (dr : option EntityId) (id : EntityId) (p : ptr)
    (d : Driver File FS) :
  p ∈ blockedActionPtrs d -> is_Some (missingOf d p !! id) ->
  Inv cap L dr d -> Inv cap L dr (set_blockedActions (λ m, m ++ [(id, p)]) d).
Proof.
  intros Hp Hm
    [Hmax Hpnd Hand Hpend Hblk Hact Hlimbo Hheapb Hcap Hrunning Hdone Hdnd Hedges].
  split; simpl; try done.
  intros id' q [Hq|Heq%list_elem_of_singleton]%elem_of_app; [by apply Hedges|].
  injection Heq as -> ->. by right.
Qed.

(** The unblock loop opens a bucket and the erasure closes it. *)
Lemma Inv_drain (L : list ptr) (id : EntityId) (d : Driver File FS) :
  Inv cap L None d -> Inv cap L (Some id) d.
Proof.
  intros [Hmax Hpnd Hand Hpend Hblk Hact Hlimbo Hheapb Hcap Hrunning Hdone Hdnd Hedges].
  split; try done. intros id' q Hq. destruct (Hedges id' q Hq) as [?|?]; [done|by right].
Qed.

Lemma Inv_erase (L : list ptr) (id : EntityId) (d : Driver File FS) :
  Inv cap L (Some id) d -> Inv cap L None (set_blockedActions (erase_range id) d).
Proof.
  intros [Hmax Hpnd Hand Hpend Hblk Hact Hlimbo Hheapb Hcap Hrunning Hdone Hdnd Hedges].
  split; simpl; try done.
  intros id' q [Hne Hq]%list_elem_of_filter. simpl in Hne.
  destruct (Hedges id' q Hq) as [[= ->]|?]; [done|by right].
Qed.

(** The end of a commit or of a failure: [self] deletes the object. *)
Lemma Inv_delete (dr : option EntityId) (this : ptr) (d : Driver File FS) :
  Inv cap [this] dr d -> Inv cap [] dr (set_heap (delete this) d).
Proof.
  intros [Hmax Hpnd Hand Hpend Hblk Hact Hlimbo Hheapb Hcap Hrunning Hdone Hdnd Hedges].
  split; simpl; try done.
  - intros p Hp. destruct (Hpend _ Hp) as (? & ? & HL & b & Hb & ?).
    repeat split; try done; [by intros ?%elem_of_nil|].
    exists b. split; [|done]. rewrite lookup_delete_ne; [done|].
    intros <-. apply HL. by left.
  - intros p Hp. destruct (Hblk _ Hp) as (? & HL & b & Hb & ?).
    repeat split; try done; [by intros ?%elem_of_nil|].
    exists b. split; [|done]. rewrite lookup_delete_ne; [done|].
    intros <-. apply HL. by left.
  - intros p Hp. destruct (Hact _ Hp) as [HL ?]. split; [by intros ?%elem_of_nil|].
    rewrite lookup_delete_ne; [done|]. intros <-. apply HL. by left.
  - by intros p ?%elem_of_nil.
  - intros p [b Hb]. apply lookup_delete_Some in Hb as [_ Hb]. apply Hheapb. eauto.
  - intros p b [Hne Hb]%lookup_delete_Some Hs.
    destruct (Hrunning p b Hb Hs) as [?|?%list_elem_of_singleton]; [by left|done].
  - intros p Hp. destruct (Hdone p Hp) as (Hin & b & Hb & ?). split; [done|].
    exists b. split; [|done]. rewrite lookup_delete_ne; [done|].
    intros <-. destruct (Hact _ Hin) as [HL _]. apply HL. by left.
  - intros id p Hp. destruct (Hedges id p Hp) as [?|[Hb Hm]]; [by left|right].
    split; [done|]. unfold missingOf in *. simpl.
    rewrite lookup_delete_ne; [done|].
    intros <-. destruct (Hblk _ Hb) as (_ & HL & _). apply HL. by left.
Qed.

(** One iteration of [startSomeActions]: the back of the pending queue
    becomes active. *)
Lemma Inv_adopt (rest : list ptr) (p : ptr) (d : Driver File FS) :
  pendingActions d = rest ++ [p] ->
  (Z.of_nat (length (activeActions d)) < maxConcurrentActions d)%Z ->
  Inv cap [] None d ->
  Inv cap [] None (set_activeActions (λ v, v ++ [p]) (set_pendingActions (λ _, rest) d)).
Proof.
  intros Hpending Hslot
    [Hmax Hpnd Hand Hpend Hblk Hact Hlimbo Hheapb Hcap Hrunning Hdone Hdnd Hedges].
  rewrite Hpending in *.
  apply NoDup_app in Hpnd as (Hnd & Hnp & _).
  destruct (Hpend p) as (Hpa & Hpb & _ & b & Hb & _); [set_solver|].
  split; simpl; try done.
  - apply NoDup_app. split; [done|]. split; [|apply NoDup_singleton].
    by intros q Hq ->%list_elem_of_singleton.
  - intros q Hq. destruct (Hpend q) as (? & ? & ? & ?); [set_solver|].
    repeat split; try done.
    intros [?| ->%list_elem_of_singleton]%elem_of_app; [done|].
    apply (Hnp _ Hq). by left.
  - intros q Hq. destruct (Hblk _ Hq) as (? & ? & ?).
    repeat split; try done.
    intros [?| ->%list_elem_of_singleton]%elem_of_app; done.
  - intros q [Hq| ->%list_elem_of_singleton]%elem_of_app; [by apply Hact|].
    split; [by intros ?%elem_of_nil|]. eauto.
  - rewrite length_app. simpl. lia.
  - intros q c Hc Hs. destruct (Hrunning q c Hc Hs) as [?|?]; [|by right].
    left. apply elem_of_app. by left.
  - intros q Hq. destruct (Hdone q Hq) as (? & ?). split; [|done].
    apply elem_of_app. by left.
Qed.

(** [queueDoneCallback] for an active driver that has just reported. *)
Lemma Inv_queueDone (L : list ptr) (dr : option EntityId) (this : ptr)
    (a : ActionDriver File) (d : Driver File FS) :
  heap d !! this = Some a -> state a ≠ PENDING -> state a ≠ RUNNING ->
  this ∈ activeActions d ->
  this ∉ doneCallbacks (eventManager d) ->
  Inv cap L dr d -> Inv cap L dr (set_eventManager (λ q, q ++ [DoneCallback this]) d).
Proof.
  intros Ha Hs1 Hs2 Hin Hnd
    [Hmax Hpnd Hand Hpend Hblk Hact Hlimbo Hheapb Hcap Hrunning Hdone Hdnd Hedges].
  split; simpl; try done.
  - intros p. rewrite doneCallbacks_app. simpl.
    intros [Hp| ->%list_elem_of_singleton]%elem_of_app; [by apply Hdone|]. eauto.
  - rewrite doneCallbacks_app. simpl. apply NoDup_app.
    split; [done|]. split; [|apply NoDup_singleton].
    by intros p Hp ->%list_elem_of_singleton.
Qed.

(** The event loop takes a callback off the queue. *)
Lemma Inv_pop (q1 q2 : list Callback) (c : Callback) (d : Driver File FS) :
  eventManager d = q1 ++ c :: q2 ->
  Inv cap [] None d ->
  Inv cap [] None (set_eventManager (λ _, q1 ++ q2) d) ∧
  ∀ p, c = DoneCallback p -> p ∉ doneCallbacks (q1 ++ q2).
Proof.
  intros Hq
    [Hmax Hpnd Hand Hpend Hblk Hact Hlimbo Hheapb Hcap Hrunning Hdone Hdnd Hedges].
  rewrite Hq, doneCallbacks_app in Hdone, Hdnd.
  split; [split; simpl; try done|].
  - intros p. rewrite doneCallbacks_app. intros [Hp|Hp]%elem_of_app; apply Hdone.
    + apply elem_of_app. by left.
    + apply elem_of_app. right. destruct c; simpl; [done|by right].
  - rewrite doneCallbacks_app. apply NoDup_app in Hdnd as (? & Hdisj & Hnd2).
    apply NoDup_app. split; [done|]. destruct c as [p|p]; simpl in *.
    + by split.
    + apply NoDup_cons in Hnd2 as [? ?]. split; [|done].
      intros x Hx Hx2. apply (Hdisj x Hx). by right.
  - intros p ->. simpl in *. rewrite doneCallbacks_app.
    apply NoDup_app in Hdnd as (? & Hdisj & [Hp ?]%NoDup_cons).
    intros [Hin|Hin]%elem_of_app; [|done]. apply (Hdisj p Hin). by left.
Qed.

(** Strips an assignment to a member the invariant does not mention, or to
    the queue when it leaves the completion callbacks alone. *)
Ltac inv_frame :=
  repeat match goal with
  | |- Inv ?c ?L ?dr (_ _ ?d0) =>
      apply (Inv_frame L dr d0);
        [done|done|done|done|done|done|done
        |solve [done
               |simpl; rewrite ?doneCallbacks_app, ?doneCallbacks_cancelAll;
                simpl; rewrite ?app_nil_r; done]
        |]
  end.

Lemma unblockAction_Inv (L : list ptr) (id : EntityId) (w : ptr) (d d' : Driver File FS) :
  Inv cap L (Some id) d -> unblockAction id w d = Ok tt d' -> Inv cap L (Some id) d'.
Proof.
  intros HI Hrun. unfold unblockAction, record in Hrun. run_cases; simpl in *.
  all: rewrite lookup_insert_eq in *; simplify_eq.
  1: eapply Inv_promote; [done|by apply lookup_insert_eq|done|].
  all: eapply Inv_update_compat; [done..| | |by inv_frame].
  all: simpl; try (intros ->; apply delete_empty).
  all: intros id' Hid'; destruct (decide (id = id')) as [->|Hne]; [by left|right].
  all: by rewrite lookup_delete_ne.
Qed.

Lemma unblockActions_Inv (L : list ptr) (id : EntityId) (d d' : Driver File FS) :
  Inv cap L None d -> unblockActions id d = Ok tt d' -> Inv cap L None d'.
Proof.
  intros HI Hrun. unfold unblockActions in Hrun. run_inv. apply Inv_erase.
  match goal with Hloop : forEach _ _ _ = Ok _ _ |- _ =>
    eapply (forEach_Ok_inv (Inv cap L (Some id))); [| |exact Hloop] end.
  - intros w e e' _. apply unblockAction_Inv.
  - by apply Inv_drain.
Qed.

Lemma ActionDriver_new_pristine (act : Action) (t : File) (task : Dashboard.Task) :
  pristine (ActionDriver_new act t task).
Proof. done. Qed.

Lemma fireTriggers_Inv (L : list ptr) (dr : option EntityId) (id : EntityId) (f : File)
    (d d' : Driver File FS) :
  Inv cap L dr d -> fireTriggers id f d = Ok tt d' -> Inv cap L dr d'.
Proof.
  intros HI Hrun. unfold fireTriggers in Hrun. run_inv.
  eapply (forEach_Ok_inv (Inv cap L dr)); [|exact HI|exact Hrun].
  intros factory e e' _ He Hfire. unfold fireTrigger, record in Hfire. run_cases.
  - apply Inv_queueNewAction; [done|]. by inv_frame.
  - by inv_frame.
Qed.

Lemma registerProvider_Inv (L : list ptr) (p : Provision File) (d d' : Driver File FS) :
  Inv cap L None d -> registerProvider p d = Ok tt d' -> Inv cap L None d'.
Proof.
  intros HI Hrun. unfold registerProvider in Hrun. run_inv.
  eapply (forEach_Ok_inv (Inv cap L None)); [| |exact Hrun]; [|by inv_frame].
  intros id e e' _ He Hreg. unfold registerEntity in Hreg. run_inv.
  eapply fireTriggers_Inv; [|done]. eapply unblockActions_Inv; [|done]. by inv_frame.
Qed.

Lemma scanForActions_loop_Inv (L : list ptr) (dr : option EntityId) (fuel : nat)
    (fileQueue : list (File * File)) (d d' : Driver File FS) :
  Inv cap L dr d -> scanForActions_loop fuel fileQueue d = Ok tt d' -> Inv cap L dr d'.
Proof.
  revert fileQueue d. induction fuel as [|fuel IH]; intros fileQueue d HI; simpl.
  - destruct (releaseBack fileQueue) as [[rest [srcFile tmpLocation]]|]; [done|].
    by intros [_ ->]%ret_Ok.
  - destruct (releaseBack fileQueue) as [[rest [srcFile tmpLocation]]|];
      [|by intros [_ ->]%ret_Ok].
    intros Hrun. run_inv.
    destruct (File_isDirectory srcFile (fileSystem d)).
    + run_cases; (eapply IH; [|done]); by inv_frame.
    + run_inv. eapply IH; [|done].
      match goal with Hloop : forEach _ _ _ = Ok _ _ |- _ =>
        eapply (forEach_Ok_inv (Inv cap L dr)); [|exact HI|exact Hloop] end.
      intros factory e e' _ He Hoffer. unfold offerFile in Hoffer. run_cases.
      * by apply Inv_queueNewAction.
      * done.
Qed.

Lemma scanForActions_Inv (L : list ptr) (dr : option EntityId) (fuel : nat) (s t : File)
    (d d' : Driver File FS) :
  Inv cap L dr d -> scanForActions fuel s t d = Ok tt d' -> Inv cap L dr d'.
Proof.
  intros HI Hrun. unfold scanForActions, record in Hrun. run_inv.
  eapply scanForActions_loop_Inv; [|done]. by inv_frame.
Qed.

Lemma Inv_update_limbo (L : list ptr) (dr : option EntityId) (p : ptr)
    (a' : ActionDriver File) (d : Driver File FS) :
  p ∈ L ->
  Inv cap L dr d -> Inv cap L dr (set_heap (insert p a') d).
Proof.
  intros Hp HI. destruct (Inv_limbo_free _ _ _ _ HI Hp) as (? & ? & ?).
  apply Inv_update_free; [|done|done|done|by right|done].
  by apply (inv_limbo _ _ _ _ HI).
Qed.

Lemma returned_Inv (fuel : nat) (this : ptr) (d d' : Driver File FS) :
  this ∉ doneCallbacks (eventManager d) ->
  Inv cap [] None d -> returned fuel this d = Ok tt d' -> Inv cap [] None d'.
Proof.
  intros Hnd HI Hrun. unfold returned in Hrun.
  apply bind_Ok in Hrun as (a & d0 & [Ha ->]%deref_Ok & Hrun).
  apply bind_Ok in Hrun as (active & d0 & [-> ->]%gets_Ok & Hrun).
  pose proof (Inv_release None this d Hnd HI) as HI0.
  destruct (releaseAndShift this (activeActions d)) as [self rest]. simpl in HI0.
  apply bind_Ok in Hrun as ([] & d0 & ->%modify_Ok & Hrun).
  destruct (decide (missingDependencies a ≠ ∅)) as [Hmissing|Hmissing].
  - (* rollback *)
    destruct self as [self|]; [|by run_inv].
    run_inv. simpl in *.
    repeat (rewrite lookup_insert_eq in *; simplify_eq).
    match goal with Hloop : forEach _ _ ?d1 = Ok _ _ |- _ =>
      assert (Inv cap [] None d1 ∧ this ∈ blockedActionPtrs d1 ∧
              missingOf d1 this = missingDependencies a) as HI1;
      [|eapply (forEach_Ok_inv (λ e, Inv cap [] None e ∧ this ∈ blockedActionPtrs e ∧
                  missingOf e this = missingDependencies a)) in Hloop as [? _];
        [done| |exact HI1]] end.
    { split; [|split; [simpl; set_solver|]].
      - eapply Inv_block; [apply lookup_insert_eq|done|].
        repeat (apply Inv_update_limbo; [by left|]).
        inv_frame.
        repeat (apply Inv_update_limbo; [by left|]).
        done.
      - unfold missingOf. simpl. by rewrite lookup_insert_eq. }
    intros [k v] e e' Hkv (He & Hthis & Hmiss) ->%modify_Ok.
    split; [|done]. apply Inv_add_edge; [done| |done].
    rewrite Hmiss. apply elem_of_map_to_list in Hkv. simpl. eauto.
  - (* commit or failure *)
    apply bind_Ok in Hrun as ([] & d1 & Hbody & Hrun).
    assert (Inv cap (match self with Some _ => [this] | None => [] end) None d1) as HI1.
    { destruct (decide (state a = SUCCEEDED ∨ state a = PASSED)).
      - run_inv. simpl in *.
        match goal with Hscan : forEach (outputs a) _ _ = Ok _ _ |- _ =>
          eapply (forEach_Ok_inv (Inv cap _ None)); [| |exact Hscan] end.
        { intros out e1 e2 _. apply scanForActions_Inv. }
        match goal with Hprov : forEach (provisions a) _ _ = Ok _ _ |- _ =>
          eapply (forEach_Ok_inv (Inv cap _ None)); [| |exact Hprov] end.
        { intros prov e1 e2 _. apply registerProvider_Inv. }
        by eapply Inv_update_same.
      - run_inv. simpl in *. by eapply Inv_update_same. }
    destruct self as [self|].
    + unfold ActionDriver_delete in Hrun. run_inv.
      apply Inv_delete. by inv_frame.
    + by run_inv.
Qed.

(** An assignment to members of an object in state RUNNING. *)
Lemma Inv_update_running (dr : option EntityId) (p : ptr) (a a' : ActionDriver File)
    (d : Driver File FS) :
  heap d !! p = Some a -> state a = RUNNING ->
  Inv cap [] dr d -> Inv cap [] dr (set_heap (insert p a') d).
Proof.
  intros Ha Hstate HI.
  destruct (Inv_running_free _ _ _ _ HI Ha Hstate) as (? & ? & ? & ?).
  apply Inv_update_free; [by eauto|done|done|done|by left|done].
Qed.

Lemma Inv_update_active (dr : option EntityId) (p : ptr) (a' : ActionDriver File)
    (d : Driver File FS) :
  p ∈ activeActions d -> p ∉ doneCallbacks (eventManager d) ->
  Inv cap [] dr d -> Inv cap [] dr (set_heap (insert p a') d).
Proof.
  intros Hp Hnd HI. destruct (Inv_active_free _ _ _ _ HI Hp) as [? ?].
  apply Inv_update_free; [|done|done|done|by left|done].
  by apply (inv_active _ _ _ _ HI).
Qed.
(** *** Exceptions *)

Lemma update_Throw (p : ptr) (f : ActionDriver File -> ActionDriver File)
    (d d' : Driver File FS) (e : string) :
  update p f d = Throw e d' -> False.
Proof. unfold update. by destruct (heap d !! p). Qed.

Lemma deref_Throw (p : ptr) (d d' : Driver File FS) (e : string) :
  deref p d = Throw e d' -> False.
Proof. unfold deref. by destruct (heap d !! p). Qed.

Lemma ensureRunning_Throw (this : ptr) (d d' : Driver File FS) (e : string) :
  ensureRunning this d = Throw e d' -> d' = d.
Proof.
  unfold ensureRunning. intros [Hd|(a & d1 & [_ ->]%deref_Ok & Hd)]%bind_Throw.
  - by apply deref_Throw in Hd.
  - destruct (decide (state a ≠ RUNNING)); [|done]. by injection Hd as _ <-.
Qed.

(** Forward execution of a run that is known to throw. *)
Ltac throw_inv :=
  repeat match goal with
  | Hrun : (_ ≫= _) _ = Throw _ _ |- _ =>
      let a := fresh "a" in let d := fresh "d" in let Ha := fresh "Hrun" in
      apply bind_Throw in Hrun as [Hrun|(a & d & Ha & Hrun)]
  | Hrun : update _ _ _ = Throw _ _ |- _ => by apply update_Throw in Hrun
  | Hrun : deref _ _ = Throw _ _ |- _ => by apply deref_Throw in Hrun
  | Hrun : ensureRunning _ _ = Throw _ _ |- _ => apply ensureRunning_Throw in Hrun as ->
  | Hrun : ensureRunning _ _ = Ok _ _ |- _ => apply ensureRunning_Ok in Hrun as [-> _]
  | Hrun : gets _ _ = Throw _ _ |- _ => discriminate Hrun
  | Hrun : modify _ _ = Throw _ _ |- _ => discriminate Hrun
  | Hrun : ret _ _ = Throw _ _ |- _ => discriminate Hrun
  | Hrun : throw _ _ = Throw _ _ |- _ => injection Hrun as _ <-
  | Hrun : (if ?b then _ else _) _ = Throw _ _ |- _ =>
      destruct b eqn:?; cbv beta iota in Hrun
  | Hrun : match ?o with Some _ => _ | None => _ end _ = Throw _ _ |- _ =>
      destruct o eqn:?; cbv beta iota in Hrun
  | _ => progress run_inv
  end.

Lemma ActionDriver_start_Throw (p : ptr) (d d' : Driver File FS) (e : string) :
  ActionDriver_start p d = Throw e d' -> False.
Proof. unfold ActionDriver_start. intros Hrun. throw_inv. Qed.

(** A [BuildContext] call that throws leaves the driver as it found it. *)
Lemma call_Throw (this : ptr) (c : Call) (d d' : Driver File FS) (e : string) :
  call this c d = Throw e d' -> d' = d.
Proof.
  destruct c; simpl;
    unfold findProvider, findOptionalProvider, provide, log, newOutput,
      success, passed, failed, queueDoneCallback;
    intros Hrun; by throw_inv.
Qed.

(** *** The steps of the event loop *)

(** Forward execution through [ensureRunning]. *)
Ltac run_ctx :=
  run_cases;
  repeat match goal with
  | Hrun : ensureRunning _ _ = Ok _ _ |- _ =>
      let a := fresh "a" in let Ha := fresh "Hheap" in let Hs := fresh "Hstate" in
      apply ensureRunning_Ok in Hrun as (-> & a & Ha & Hs)
  end;
  run_cases; simpl in *; simplify_eq.

Lemma report_Inv (s : State) (this : ptr) (a : ActionDriver File) (d : Driver File FS) :
  heap d !! this = Some a -> state a = RUNNING ->
  s ≠ PENDING -> s ≠ RUNNING ->
  Inv cap [] None d ->
  Inv cap [] None (set_eventManager (λ q, q ++ [DoneCallback this])
                     (set_heap (insert this (set_state s a)) d)).
Proof.
  intros Ha Hstate Hs1 Hs2 HI.
  destruct (Inv_running_free _ _ _ _ HI Ha Hstate) as (? & ? & ? & ?).
  eapply Inv_queueDone; [apply lookup_insert_eq|done..|].
  by eapply Inv_update_running.
Qed.

Lemma failed_Inv (this : ptr) (d d' : Driver File FS) :
  Inv cap [] None d -> failed this d = Ok tt d' -> Inv cap [] None d'.
Proof.
  intros HI Hrun. unfold failed, queueDoneCallback in Hrun. run_ctx.
  by apply report_Inv.
Qed.

Lemma call_Inv (this : ptr) (c : Call) (d d' : Driver File FS) :
  Inv cap [] None d -> call this c d = Ok tt d' -> Inv cap [] None d'.
Proof.
  intros HI. destruct c; simpl; try apply (failed_Inv _ _ _ HI);
    unfold findProvider, findOptionalProvider, provide, log, newOutput,
      success, passed, queueDoneCallback;
    intros Hrun; run_ctx; try done; try (by apply report_Inv);
    by eapply Inv_update_running.
Qed.

Lemma threwException_Inv (this : ptr) (what : string) (d d' : Driver File FS) :
  Inv cap [] None d -> threwException this what d = Ok tt d' -> Inv cap [] None d'.
Proof.
  intros HI Hrun. unfold threwException in Hrun.
  apply bind_Ok in Hrun as ([] & d1 & (a & Ha & ->)%update_Ok & Hrun).
  apply bind_Ok in Hrun as (a1 & d2 & [_ ->]%deref_Ok & Hrun).
  assert (Inv cap [] None (set_heap (insert this
    (set_dashboardTask (Dashboard.addOutput ("uncaught exception: " +:+ what +:+ newline)) a))
    d)) as HI1 by (by eapply Inv_update_same).
  destruct (decide (state a1 = RUNNING)).
  - by eapply failed_Inv.
  - by apply ret_Ok in Hrun as [_ ->].
Qed.

Lemma threwUnknownException_Inv (this : ptr) (d d' : Driver File FS) :
  Inv cap [] None d -> threwUnknownException this d = Ok tt d' -> Inv cap [] None d'.
Proof.
  intros HI Hrun. unfold threwUnknownException in Hrun.
  apply bind_Ok in Hrun as ([] & d1 & (a & Ha & ->)%update_Ok & Hrun).
  apply bind_Ok in Hrun as (a1 & d2 & [_ ->]%deref_Ok & Hrun).
  assert (Inv cap [] None (set_heap (insert this
    (set_dashboardTask (Dashboard.addOutput ("uncaught exception of unknown type" +:+ newline)) a))
    d)) as HI1 by (by eapply Inv_update_same).
  destruct (decide (state a1 = RUNNING)).
  - by eapply failed_Inv.
  - by apply ret_Ok in Hrun as [_ ->].
Qed.

Lemma try_catch_Ok {A} (m : M File FS A) (handler : string -> M File FS A)
    (d d' : Driver File FS) (a : A) :
  try_catch m handler d = Ok a d' ->
  m d = Ok a d' ∨ ∃ e d1, m d = Throw e d1 ∧ handler e d1 = Ok a d'.
Proof. unfold try_catch. destruct (m d); eauto; done. Qed.

Lemma ActionDriver_start_Inv (p : ptr) (d d' : Driver File FS) :
  p ∈ activeActions d -> p ∉ doneCallbacks (eventManager d) ->
  Inv cap [] None d -> ActionDriver_start p d = Ok tt d' -> Inv cap [] None d'.
Proof.
  intros Hp Hnd HI Hrun. unfold ActionDriver_start in Hrun. run_inv. simpl in *.
  inv_frame. repeat (apply Inv_update_active; [done|done|]). done.
Qed.

Lemma startSomeActions_loop_Inv (n : nat) (d d' : Driver File FS) :
  Inv cap [] None d -> startSomeActions_loop n d = Ok tt d' -> Inv cap [] None d'.
Proof.
  revert d. induction n as [|n IH]; intros d HI; simpl.
  - case_bool_decide; [case_bool_decide|]; simpl; try done;
      by intros [= <-].
  - case_bool_decide as Hslot; [case_bool_decide|]; simpl; try (by intros [= <-]).
    destruct (releaseBack (pendingActions d)) as [[rest p]|] eqn:Hback; [|done].
    apply releaseBack_Some in Hback. intros Hrun. run_inv.
    eapply IH; [|done].
    match goal with Hstart : try_catch _ _ _ = Ok _ _ |- _ =>
      apply try_catch_Ok in Hstart as [Hs|(? & ? & Hs & _)] end.
    + eapply ActionDriver_start_Inv; [| |by apply Inv_adopt|done]; simpl.
      * set_solver.
      * eapply Inv_pending_free; [done|]. rewrite Hback. set_solver.
    + by apply ActionDriver_start_Throw in Hs.
Qed.

Lemma startSomeActions_Inv (d d' : Driver File FS) :
  Inv cap [] None d -> startSomeActions d = Ok tt d' -> Inv cap [] None d'.
Proof. apply startSomeActions_loop_Inv. Qed.

Lemma addActionFactory_Inv (name : string) (factory : ActionFactory File)
    (d d' : Driver File FS) :
  Inv cap [] None d -> addActionFactory name factory d = Ok tt d' -> Inv cap [] None d'.
Proof.
  intros HI Hrun. unfold addActionFactory in Hrun. run_inv.
  eapply (forEach_Ok_inv (Inv cap [] None)); [| |exact Hrun]; [|by inv_frame].
  intros e1 e2 e3 _ He ->%modify_Ok. by inv_frame.
Qed.

Lemma Driver_start_Inv (fuel : nat) (d d' : Driver File FS) :
  Inv cap [] None d -> Driver_start fuel d = Ok tt d' -> Inv cap [] None d'.
Proof.
  intros HI Hrun. unfold Driver_start in Hrun. run_inv.
  eapply startSomeActions_Inv; [|done]. by eapply scanForActions_Inv.
Qed.

Lemma step_Inv (d d' : Driver File FS) :
  step d d' -> Inv cap [] None d -> Inv cap [] None d'.
Proof.
  destruct 1 as [name factory d d' Hrun|fuel d d' Hrun|q1 q2 p d d' Hq Hrun
    |fuel q1 q2 p d d' Hq Hrun|this c d d' Hrun|this c what d d' Hrun
    |this what d d' Hrun|this d d' Hrun]; intros HI.
  - by eapply addActionFactory_Inv.
  - by eapply Driver_start_Inv.
  - apply ret_Ok in Hrun as [_ ->]. by apply (Inv_pop _ _ _ _ Hq HI).
  - unfold DoneCallback_run in Hrun. run_inv.
    destruct (Inv_pop _ _ _ _ Hq HI) as [HI1 Hnd].
    eapply startSomeActions_Inv; [|done]. eapply returned_Inv; [|exact HI1|done].
    simpl. by apply Hnd.
  - by eapply call_Inv.
  - by apply call_Throw in Hrun as ->.
  - by eapply threwException_Inv.
  - by eapply threwUnknownException_Inv.
Qed.

Lemma rtc_step_Inv (fs : FS) (s t : File) (d : Driver File FS) :
  rtc step (Driver_new fs s t cap) d -> Inv cap [] None d.
Proof.
  intros Hsteps.
  eapply (rtc_ind_r (λ e, Inv cap [] None e)); [apply Inv_new| |exact Hsteps].
  intros d1 d2 _ Hstep IH. by eapply step_Inv.
Qed.


(** Every edge of [blockedActions] leads to a live driver that is owned by
    [blockedActionPtrs]: the waiters [unblockActions] finds in a bucket are
    the ones the rollback put there. *)
Lemma Inv_bucket_blocked (limbo : list ptr) (id : EntityId) (d : Driver File FS) (w : ptr) :
  Inv cap limbo None d ->
  w ∈ equal_range id (blockedActions d) ->
  is_Some (heap d !! w) ∧ w ∈ blockedActionPtrs d ∧ is_Some (missingOf d w !! id).
Proof.
  intros HI Hw. unfold equal_range in Hw.
  apply list_elem_of_fmap in Hw as ([id' w'] & -> & [Hid Hw]%list_elem_of_filter).
  simpl in *. subst id'.
  destruct (inv_edges _ _ _ _ HI _ _ Hw) as [?|[Hb Hmiss]]; [done|].
  destruct (inv_blocked _ _ _ _ HI _ Hb) as (_ & _ & a & Ha & _).
  rewrite Ha. eauto.
Qed.

End Invariant.

Lemma reachable_Inv (d : Driver File FS) : reachable d -> ∃ cap, Inv cap [] None d.
Proof. intros (fs & s & t & m & Hsteps). exists m. by eapply rtc_step_Inv. Qed.

(** When the event loop takes a [DoneCallback] from the queue, the driver it
    finalizes is alive, has reported an outcome and is one of the active
    drivers, none of which is listed twice. *)
Lemma DoneCallback_finalizes_active (q1 q2 : list Callback) (this : ptr)
    (d : Driver File FS) :
  reachable d ->
  eventManager d = q1 ++ DoneCallback this :: q2 ->
  this ∈ activeActions d ∧ NoDup (activeActions d) ∧
  ∃ a, heap d !! this = Some a ∧ state a ≠ PENDING ∧ state a ≠ RUNNING.
Proof.
  intros [cap HI]%reachable_Inv Hq.
  destruct (inv_done _ _ _ _ HI this) as [Hactive Hreported].
  { rewrite Hq, doneCallbacks_app. set_solver. }
  split; [done|]. split; [apply HI|done].
Qed.

(** Between two turns of the event loop, the waiters in the bucket of any
    entity are blocked drivers that miss that entity. *)
Lemma reachable_bucket_blocked (id : EntityId) (d : Driver File FS) (w : ptr) :
  reachable d ->
  w ∈ equal_range id (blockedActions d) ->
  is_Some (heap d !! w) ∧ w ∈ blockedActionPtrs d ∧ is_Some (missingOf d w !! id).
Proof. intros [cap HI]%reachable_Inv. by eapply Inv_bucket_blocked. Qed.

(** C6.  Between any two turns of the event loop of a driver created with a
    positive [maxConcurrentActions], whatever was queued and whatever the
    actions did, at most [maxConcurrentActions] drivers are active. *)
Theorem active_actions_within_cap (fs : FS) (s t : File) (m : Z) (d : Driver File FS) :
  (0 < m)%Z ->
  rtc step (Driver_new fs s t m) d ->
  maxConcurrentActions d = m ∧ (Z.of_nat (length (activeActions d)) ≤ m)%Z.
Proof.
  intros Hm Hsteps. apply rtc_step_Inv in Hsteps.
  split; [apply Hsteps|]. pose proof (inv_cap _ _ _ _ Hsteps). lia.
Qed.

(** C9.  Whenever the driver is destroyed, the body of [~Driver] returns
    and leaves FAILED the task of every driver that was blocked. *)
Theorem Driver_delete_fails_blocked (d : Driver File FS) :
  reachable d ->
  ∃ d', Driver_delete d = Ok tt d' ∧
    ∀ p, p ∈ blockedActionPtrs d ->
      ∃ a', heap d' !! p = Some a' ∧
        Dashboard.state (dashboardTask a') = Dashboard.FAILED.
Proof.
  intros [cap HI]%reachable_Inv.
  destruct (setState_all Dashboard.FAILED (elements (blockedActionPtrs d)) d)
    as (d' & Hrun & Hset & _).
  { intros p Hp%elem_of_elements.
    destruct (inv_blocked _ _ _ _ HI _ Hp) as (_ & _ & a & -> & _). eauto. }
  exists d'. split; [done|]. intros p Hp. apply Hset. by apply elem_of_elements.
Qed.


(** * Beyond the claims *)

(** ** The BuildContext calls: the guard and the frame *)

Lemma ensureRunning_refuses (this : ptr) (d : Driver File FS) (a : ActionDriver File) :
  heap d !! this = Some a -> state a ≠ RUNNING ->
  ensureRunning this d = Throw "Action is not running." d.
Proof.
  intros Hheap Hstate. unfold ensureRunning. run_unfold. rewrite Hheap.
  by rewrite decide_True.
Qed.

Lemma call_refused (this : ptr) (c : Call) (d : Driver File FS) (a : ActionDriver File) :
  heap d !! this = Some a -> state a ≠ RUNNING ->
  call this c d = Throw "Action is not running." d.
Proof.
  intros Hheap Hstate. pose proof (ensureRunning_refuses _ _ _ Hheap Hstate) as Hguard.
  destruct c; simpl;
    unfold findProvider, findOptionalProvider, provide, log, newOutput,
      success, passed, failed;
    unfold mbind, M_bind, bind; by rewrite Hguard.
Qed.

(** X1.  Every [BuildContext] call begins with [ensureRunning]: made on a driver
    that is not in state RUNNING, each of the eight throws and leaves the
    whole driver as it was. *)
Theorem calls_require_running (this : ptr) (d : Driver File FS) (a : ActionDriver File) :
  heap d !! this = Some a ->
  state a ≠ RUNNING ->
  (∀ id title, findProvider this id title d = Throw "Action is not running." d) ∧
  (∀ id, findOptionalProvider this id d = Throw "Action is not running." d) ∧
  (∀ f ids, provide this f ids d = Throw "Action is not running." d) ∧
  (∀ text, log this text d = Throw "Action is not running." d) ∧
  (∀ basename, newOutput this basename d = Throw "Action is not running." d) ∧
  success this d = Throw "Action is not running." d ∧
  passed this d = Throw "Action is not running." d ∧
  failed this d = Throw "Action is not running." d.
Proof.
  intros Hheap Hstate. pose proof (ensureRunning_refuses _ _ _ Hheap Hstate) as Hguard.
  unfold findProvider, findOptionalProvider, provide, log, newOutput,
    success, passed, failed.
  unfold mbind, M_bind, bind. by rewrite Hguard.
Qed.

Lemma ensureRunning_Throw_inv (this : ptr) (d d' : Driver File FS) (what : string) :
  ensureRunning this d = Throw what d' ->
  d' = d ∧ what = "Action is not running." ∧
  ∃ a, heap d !! this = Some a ∧ state a ≠ RUNNING.
Proof.
  unfold ensureRunning. run_unfold. destruct (heap d !! this) as [a|]; [|done].
  destruct (decide (state a ≠ RUNNING)); [|done]. intros [= <- <-]. eauto.
Qed.

Lemma ensureRunning_cases (this : ptr) (d : Driver File FS) :
  (∃ a, heap d !! this = Some a ∧ state a = RUNNING ∧ ensureRunning this d = Ok tt d) ∨
  (∃ a, heap d !! this = Some a ∧ state a ≠ RUNNING ∧
        ensureRunning this d = Throw "Action is not running." d) ∨
  (heap d !! this = None ∧ ensureRunning this d = Undefined).
Proof.
  destruct (heap d !! this) as [a|] eqn:Hheap.
  - destruct (decide (state a = RUNNING)) as [Hs|Hs].
    + left. exists a. by rewrite (ensureRunning_running _ _ _ Hheap Hs).
    + right. left. exists a. by rewrite (ensureRunning_refuses _ _ _ Hheap Hs).
  - right. right. split; [done|]. unfold ensureRunning. run_unfold. by rewrite Hheap.
Qed.

(** X2.  A [BuildContext] call throws for one of two reasons only, and in both
    it has changed nothing: the driver is not RUNNING, or it is RUNNING and
    reports [success] or [passed] with dependencies missing. *)
Theorem call_throws_before_any_change (this : ptr) (c : Call) (d d' : Driver File FS)
    (what : string) :
  call this c d = Throw what d' ->
  d' = d ∧ ∃ a, heap d !! this = Some a ∧
    ((what = "Action is not running." ∧ state a ≠ RUNNING) ∨
     (what = "Action reported success despite missing dependencies." ∧
      state a = RUNNING ∧ missingDependencies a ≠ ∅ ∧
      (c = CallSuccess ∨ c = CallPassed))).
Proof.
  destruct (ensureRunning_cases this d)
    as [(a & Hheap & Hstate & Hguard)|[(a & Hheap & Hstate & Hguard)|[Hheap Hguard]]].
  - destruct c; simpl;
      unfold findProvider, findOptionalProvider, provide, log, newOutput,
        success, passed, failed, queueDoneCallback;
      run_unfold; rewrite ?Hguard; simpl; rewrite ?Hguard, ?Hheap; simpl;
      try done.
    + destruct (entityMap d !! id); simpl; by rewrite ?Hheap.
    + destruct (decide (missingDependencies a ≠ ∅)); [|by rewrite Hheap].
      intros [= <- <-]. split; [done|]. exists a. split; [done|]. right. auto.
    + destruct (decide (missingDependencies a ≠ ∅)); [|by rewrite Hheap].
      intros [= <- <-]. split; [done|]. exists a. split; [done|]. right. auto.
  - rewrite (call_refused _ c _ _ Hheap Hstate). intros [= <- <-].
    split; [done|]. exists a. split; [done|]. by left.
  - destruct c; simpl;
      unfold findProvider, findOptionalProvider, provide, log, newOutput,
        success, passed, failed;
      unfold mbind, M_bind, bind; by rewrite Hguard.
Qed.

Lemma call_Ok_inv (this : ptr) (c : Call) (d d' : Driver File FS) :
  call this c d = Ok tt d' ->
  ∃ a, heap d !! this = Some a ∧ state a = RUNNING ∧
    d' = set_eventManager
           (λ q, q ++ if reports c then [DoneCallback this] else [])
           (set_heap (insert this (staged (entityMap d) c a)) d) ∧
    (c = CallSuccess ∨ c = CallPassed -> missingDependencies a = ∅).
Proof.
  intros Hrun.
  destruct (ensureRunning_cases this d)
    as [(a & Hheap & Hstate & Hguard)|[(a & Hheap & Hstate & Hguard)|[Hheap Hguard]]].
  - exists a. split; [done|]. split; [done|]. revert Hrun.
    destruct c; simpl;
      unfold findProvider, findOptionalProvider, provide, log, newOutput,
        success, passed, failed, queueDoneCallback;
      run_unfold; rewrite ?Hguard; simpl; rewrite ?Hguard, ?Hheap; simpl.
    + destruct (entityMap d !! id); simpl; rewrite ?Hheap; intros [= <-];
        (split; [|by intros [|]]); driver_eq;
        rewrite ?app_nil_r, ?insert_id; done.
    + intros [= <-]. split; [|by intros [|]]. driver_eq;
        rewrite ?app_nil_r, ?insert_id; done.
    + intros [= <-]. split; [|by intros [|]]. driver_eq. by rewrite app_nil_r.
    + intros [= <-]. split; [|by intros [|]]. driver_eq. by rewrite app_nil_r.
    + intros [= <-]. split; [|by intros [|]]. driver_eq. by rewrite app_nil_r.
    + destruct (decide (missingDependencies a ≠ ∅)) as [|Hempty]; [done|].
      rewrite Hheap. intros [= <-]. split; [done|]. intros _.
      by destruct (decide (missingDependencies a = ∅)).
    + destruct (decide (missingDependencies a ≠ ∅)) as [|Hempty]; [done|].
      rewrite Hheap. intros [= <-]. split; [done|]. intros _.
      by destruct (decide (missingDependencies a = ∅)).
    + intros [= <-]. split; [done|]. by intros [|].
  - by rewrite (call_refused _ c _ _ Hheap Hstate) in Hrun.
  - revert Hrun. destruct c; simpl;
      unfold findProvider, findOptionalProvider, provide, log, newOutput,
        success, passed, failed;
      unfold mbind, M_bind, bind; by rewrite Hguard.
Qed.

(** X3.  A [BuildContext] call that returns was made by a RUNNING driver and has
    touched nothing but the object of that driver, as [staged] says, and,
    when it is a report, the queue of the EventManager, which has one more
    [DoneCallback]: no entity is published, no driver is started, blocked or
    freed, and no other driver is changed.  A report of [success] or
    [passed] returns only when no dependency is missing. *)
Theorem calls_are_isolated (this : ptr) (c : Call) (d d' : Driver File FS) :
  call this c d = Ok tt d' ->
  ∃ a, heap d !! this = Some a ∧ state a = RUNNING ∧
    d' = set_eventManager
           (λ q, q ++ if reports c then [DoneCallback this] else [])
           (set_heap (insert this (staged (entityMap d) c a)) d) ∧
    (c = CallSuccess ∨ c = CallPassed -> missingDependencies a = ∅).
Proof. apply call_Ok_inv. Qed.

(** ** Reports and escaping exceptions *)

Lemma failed_Ok (this : ptr) (d : Driver File FS) (a : ActionDriver File) :
  heap d !! this = Some a -> state a = RUNNING ->
  failed this d =
    Ok tt (set_eventManager (λ q, q ++ [DoneCallback this])
             (set_heap (insert this (set_state FAILED a)) d)).
Proof.
  intros Hheap Hstate. unfold failed, queueDoneCallback. run_unfold.
  by rewrite (ensureRunning_running _ _ _ Hheap Hstate), Hheap.
Qed.

Lemma threwException_Ok (this : ptr) (what : string) (d : Driver File FS)
    (a : ActionDriver File) :
  heap d !! this = Some a ->
  let a1 := set_dashboardTask
              (Dashboard.addOutput ("uncaught exception: " +:+ what +:+ newline)) a in
  threwException this what d =
    if decide (state a = RUNNING)
    then Ok tt (set_eventManager (λ q, q ++ [DoneCallback this])
                  (set_heap (insert this (set_state FAILED a1)) d))
    else Ok tt (set_heap (insert this a1) d).
Proof.
  intros Hheap a1. unfold threwException. run_unfold. rewrite Hheap. simpl.
  rewrite lookup_insert_eq. simpl. destruct (decide (state a = RUNNING)) as [Hs|Hs]; [|done].
  rewrite (failed_Ok this _ a1); [|simpl; by rewrite lookup_insert_eq|done].
  f_equal. driver_eq. by rewrite insert_insert_eq.
Qed.

Lemma threwUnknownException_Ok (this : ptr) (d : Driver File FS) (a : ActionDriver File) :
  heap d !! this = Some a ->
  let a1 := set_dashboardTask
              (Dashboard.addOutput ("uncaught exception of unknown type" +:+ newline)) a in
  threwUnknownException this d =
    if decide (state a = RUNNING)
    then Ok tt (set_eventManager (λ q, q ++ [DoneCallback this])
                  (set_heap (insert this (set_state FAILED a1)) d))
    else Ok tt (set_heap (insert this a1) d).
Proof.
  intros Hheap a1. unfold threwUnknownException. run_unfold. rewrite Hheap. simpl.
  rewrite lookup_insert_eq. simpl. destruct (decide (state a = RUNNING)) as [Hs|Hs]; [|done].
  rewrite (failed_Ok this _ a1); [|simpl; by rewrite lookup_insert_eq|done].
  f_equal. driver_eq. by rewrite insert_insert_eq.
Qed.

(** X4.  An exception that escapes an action is written to its task; it makes
    the driver fail, with one completion callback queued, when the driver is
    RUNNING, and otherwise leaves the state and the queue alone, so that an
    exception after a report does not finalize the driver a second time.
    In both cases the staged provisions, outputs and missing dependencies
    stay as they are and no other driver is touched. *)
Theorem threwException_fails_running_driver (this : ptr) (what : string)
    (d : Driver File FS) (a : ActionDriver File) :
  heap d !! this = Some a ->
  ∃ d' a', threwException this what d = Ok tt d' ∧
    heap d' !! this = Some a' ∧
    Dashboard.output (dashboardTask a') =
      Dashboard.output (dashboardTask a)
        ++ ["uncaught exception: " +:+ what +:+ newline] ∧
    (state a = RUNNING ->
       state a' = FAILED ∧ eventManager d' = eventManager d ++ [DoneCallback this]) ∧
    (state a ≠ RUNNING -> state a' = state a ∧ eventManager d' = eventManager d) ∧
    provisions a' = provisions a ∧ outputs a' = outputs a ∧
    missingDependencies a' = missingDependencies a ∧
    (∀ p, p ≠ this -> heap d' !! p = heap d !! p) ∧
    entityMap d' = entityMap d ∧ activeActions d' = activeActions d ∧
    pendingActions d' = pendingActions d ∧
    blockedActionPtrs d' = blockedActionPtrs d.
Proof.
  intros Hheap. rewrite (threwException_Ok _ _ _ _ Hheap).
  destruct (decide (state a = RUNNING)) as [Hs|Hs]; eexists _, _;
    (split; [done|]); simpl; rewrite lookup_insert_eq; (split; [done|]); simpl;
    repeat split; try done; try (intros p Hp; by rewrite lookup_insert_ne).
Qed.

(** X5.  The same for an exception that is not a [std::exception]. *)
Theorem threwUnknownException_fails_running_driver (this : ptr)
    (d : Driver File FS) (a : ActionDriver File) :
  heap d !! this = Some a ->
  ∃ d' a', threwUnknownException this d = Ok tt d' ∧
    heap d' !! this = Some a' ∧
    Dashboard.output (dashboardTask a') =
      Dashboard.output (dashboardTask a)
        ++ ["uncaught exception of unknown type" +:+ newline] ∧
    (state a = RUNNING ->
       state a' = FAILED ∧ eventManager d' = eventManager d ++ [DoneCallback this]) ∧
    (state a ≠ RUNNING -> state a' = state a ∧ eventManager d' = eventManager d) ∧
    provisions a' = provisions a ∧ outputs a' = outputs a ∧
    missingDependencies a' = missingDependencies a ∧
    (∀ p, p ≠ this -> heap d' !! p = heap d !! p) ∧
    entityMap d' = entityMap d ∧ activeActions d' = activeActions d ∧
    pendingActions d' = pendingActions d ∧
    blockedActionPtrs d' = blockedActionPtrs d.
Proof.
  intros Hheap. rewrite (threwUnknownException_Ok _ _ _ Hheap).
  destruct (decide (state a = RUNNING)) as [Hs|Hs]; eexists _, _;
    (split; [done|]); simpl; rewrite lookup_insert_eq; (split; [done|]); simpl;
    repeat split; try done; try (intros p Hp; by rewrite lookup_insert_ne).
Qed.

(** X6.  An action reports once: when [success], [passed] or [failed] has
    returned, one [DoneCallback] is queued, every further [BuildContext]
    call on the driver throws without changing anything, and an exception
    that still escapes the action queues nothing more. *)
Theorem report_is_final (this : ptr) (c : Call) (d d' : Driver File FS) :
  reports c = true ->
  call this c d = Ok tt d' ->
  eventManager d' = eventManager d ++ [DoneCallback this] ∧
  (∀ c', call this c' d' = Throw "Action is not running." d') ∧
  (∀ what, ∃ d'', threwException this what d' = Ok tt d'' ∧
     eventManager d'' = eventManager d') ∧
  (∃ d'', threwUnknownException this d' = Ok tt d'' ∧
     eventManager d'' = eventManager d').
Proof.
  intros Hc Hrun.
  assert (∃ a', heap d' !! this = Some a' ∧ state a' ≠ RUNNING ∧
            eventManager d' = eventManager d ++ [DoneCallback this])
    as (a' & Hheap' & Hstate' & Hqueue).
  { destruct c; try done; simpl in Hrun;
      unfold success, passed, failed, queueDoneCallback in Hrun;
      apply bind_Ok in Hrun as ([] & d0 & (-> & a & Ha & Hs)%ensureRunning_Ok & Hrun);
      run_cases; simpl; rewrite lookup_insert_eq; eexists; (split; [done|]); done. }
  split; [done|]. split; [|split].
  - intros c'. by eapply call_refused.
  - intros what. rewrite (threwException_Ok _ _ _ _ Hheap').
    rewrite decide_False by done. eauto.
  - rewrite (threwUnknownException_Ok _ _ _ Hheap').
    rewrite decide_False by done. eauto.
Qed.

(** ** ActionDriver::returned: failure *)

Lemma releaseAndShift_length (this : ptr) (v : list ptr) :
  this ∈ v -> length v = S (length (releaseAndShift this v).2).
Proof.
  induction v as [|p v IH]; simpl; [by intros ?%elem_of_nil|].
  intros Hin. destruct (decide (p = this)) as [->|Hne]; [done|].
  apply elem_of_cons in Hin as [->|Hin]; [done|].
  specialize (IH Hin). destruct (releaseAndShift this v). simpl in *. by rewrite IH.
Qed.

Lemma releaseAndShift_elem_of_iff (this p : ptr) (v : list ptr) :
  p ≠ this -> p ∈ (releaseAndShift this v).2 ↔ p ∈ v.
Proof.
  intros Hne. split.
  - intros Hp. eapply elem_of_sublist; [done|]. apply releaseAndShift_sublist.
  - intros Hp. by apply releaseAndShift_elem_of_ne.
Qed.

Lemma returned_failure_Ok (fuel : nat) (this : ptr) (d : Driver File FS)
    (a : ActionDriver File) :
  heap d !! this = Some a ->
  missingDependencies a = ∅ ->
  state a ≠ SUCCEEDED -> state a ≠ PASSED ->
  this ∈ activeActions d ->
  returned fuel this d =
    Ok tt (set_heap (delete this)
          (set_eventManager (EventGroup_cancelAll this)
          (set_activeActions (λ _, (releaseAndShift this (activeActions d)).2) d))).
Proof.
  intros Hheap Hmissing Hs1 Hs2 Hactive.
  unfold returned, ActionDriver_delete. run_unfold. rewrite Hheap.
  pose proof (releaseAndShift_elem_of _ _ Hactive) as Hself.
  destruct (releaseAndShift this (activeActions d)) as [self rest]. simpl in Hself.
  subst self. rewrite decide_False by (by intros []). simpl.
  rewrite decide_False by (by intros [|]). simpl. rewrite Hheap. simpl.
  f_equal. driver_eq. by rewrite delete_insert_eq.
Qed.

(** X7.  When a driver with no missing dependency is finalized in a state other
    than SUCCEEDED or PASSED, what it staged is thrown away with it: nothing
    is published, unblocked, triggered or scanned, no action is queued, the
    driver leaves [activeActions] and its object is destroyed, which cancels
    the callbacks of its [EventGroup]; every other driver stays as it is. *)
Theorem returned_failure_discards (fuel : nat) (this : ptr) (d : Driver File FS)
    (a : ActionDriver File) :
  heap d !! this = Some a ->
  missingDependencies a = ∅ ->
  state a ≠ SUCCEEDED -> state a ≠ PASSED ->
  this ∈ activeActions d ->
  NoDup (activeActions d) ->
  ∃ d', returned fuel this d = Ok tt d' ∧
    entityMap d' = entityMap d ∧ filePtrs d' = filePtrs d ∧
    trace d' = trace d ∧ fileSystem d' = fileSystem d ∧
    pendingActions d' = pendingActions d ∧
    blockedActions d' = blockedActions d ∧
    blockedActionPtrs d' = blockedActionPtrs d ∧
    heap d' = delete this (heap d) ∧
    (this ∉ activeActions d') ∧
    (∀ p, p ≠ this -> p ∈ activeActions d' ↔ p ∈ activeActions d) ∧
    length (activeActions d) = S (length (activeActions d')) ∧
    eventManager d' = EventGroup_cancelAll this (eventManager d).
Proof.
  intros Hheap Hmissing Hs1 Hs2 Hactive Hnd.
  eexists. split; [by eapply returned_failure_Ok|]. simpl.
  pose proof (releaseAndShift_NoDup this _ Hnd) as [Hnin _].
  do 8 (split; [done|]). split; [done|]. split; [|split; [|done]].
  - intros p Hp. by apply releaseAndShift_elem_of_iff.
  - by apply releaseAndShift_length.
Qed.

(** ** ActionDriver::returned: what a commit publishes *)

Lemma forEach_Ok_ind {A} (I : list A -> Driver File FS -> Prop) (l : list A)
    (body : A -> M File FS unit) :
  (∀ x l' d d', I (x :: l') d -> body x d = Ok tt d' -> I l' d') ->
  ∀ d d', I l d -> forEach l body d = Ok tt d' -> I [] d'.
Proof.
  intros Hbody. induction l as [|x l IH]; intros d d' HI Hrun; simpl in Hrun.
  - by apply ret_Ok in Hrun as [_ ->].
  - run_inv. eapply IH; [|done]. by eapply Hbody.
Qed.

Lemma unblockActions_entityMap (id : EntityId) (d d' : Driver File FS) :
  unblockActions id d = Ok tt d' ->
  entityMap d' = entityMap d ∧ filePtrs d' = filePtrs d.
Proof.
  unfold unblockActions. intros Hrun. run_inv. simpl.
  eapply (forEach_Ok_inv (λ e, entityMap e = entityMap d ∧ filePtrs e = filePtrs d));
    [|done|done].
  intros w e e' _ [He Hf] Hw. unfold unblockAction, record in Hw.
  run_cases; simpl in *; done.
Qed.

Lemma fireTriggers_entityMap (id : EntityId) (f : File) (d d' : Driver File FS) :
  fireTriggers id f d = Ok tt d' ->
  entityMap d' = entityMap d ∧ filePtrs d' = filePtrs d.
Proof.
  unfold fireTriggers. intros Hrun. run_inv.
  eapply (forEach_Ok_inv (λ e, entityMap e = entityMap d ∧ filePtrs e = filePtrs d));
    [|done|done].
  intros w e e' _ [He Hf] Hw. unfold fireTrigger, record in Hw.
  run_cases; simpl in *; done.
Qed.

Lemma scanForActions_loop_entityMap (fuel : nat) (fileQueue : list (File * File))
    (d d' : Driver File FS) :
  scanForActions_loop fuel fileQueue d = Ok tt d' ->
  entityMap d' = entityMap d ∧ filePtrs d' = filePtrs d.
Proof.
  revert fileQueue d. induction fuel as [|fuel IH]; intros fileQueue d; simpl.
  - destruct (releaseBack fileQueue) as [[rest [srcFile tmpLocation]]|]; [done|].
    by intros [_ ->]%ret_Ok.
  - destruct (releaseBack fileQueue) as [[rest [srcFile tmpLocation]]|];
      [|by intros [_ ->]%ret_Ok].
    intros Hrun. run_inv.
    destruct (File_isDirectory srcFile (fileSystem d)).
    + run_cases; by apply IH in Hrun as [-> ->].
    + run_inv. apply IH in Hrun as [-> ->].
      match goal with Hloop : forEach _ _ _ = Ok _ _ |- _ =>
        eapply (forEach_Ok_inv (λ e, entityMap e = entityMap d ∧ filePtrs e = filePtrs d));
          [|done|exact Hloop] end.
      intros x e e' _ [He Hf] Hoffer. unfold offerFile in Hoffer.
      run_cases; simpl in *; done.
Qed.

Lemma scanForActions_entityMap (fuel : nat) (s t : File) (d d' : Driver File FS) :
  scanForActions fuel s t d = Ok tt d' ->
  entityMap d' = entityMap d ∧ filePtrs d' = filePtrs d.
Proof.
  unfold scanForActions, record. intros Hrun. run_inv.
  by apply scanForActions_loop_entityMap in Hrun as [-> ->].
Qed.

Lemma registerEntity_entityMap (f : File) (id : EntityId) (d d' : Driver File FS) :
  registerEntity f id d = Ok tt d' ->
  entityMap d' = <[id := f]> (entityMap d) ∧ filePtrs d' = filePtrs d.
Proof.
  unfold registerEntity. intros Hrun. run_inv.
  match goal with Hu : unblockActions _ _ = Ok _ _ |- _ =>
    apply unblockActions_entityMap in Hu as [Hu1 Hu2] end.
  apply fireTriggers_entityMap in Hrun as [-> ->]. by rewrite Hu1, Hu2.
Qed.

Lemma registerProvider_entityMap (p : Provision File) (d d' : Driver File FS) :
  registerProvider p d = Ok tt d' ->
  entityMap d' = foldl (λ m id, <[id := file p]> m) (entityMap d) (entities p) ∧
  filePtrs d' = filePtrs d ++ [file p].
Proof.
  unfold registerProvider. intros Hrun. run_inv.
  assert (∀ (l : list EntityId) (e e' : Driver File FS),
            forEach l (registerEntity (file p)) e = Ok tt e' ->
            entityMap e' = foldl (λ m id, <[id := file p]> m) (entityMap e) l ∧
            filePtrs e' = filePtrs e) as Hloop.
  { clear Hrun. induction l as [|id l IH]; intros e e' Hrun; simpl in Hrun.
    - by apply ret_Ok in Hrun as [_ ->].
    - run_inv. apply IH in Hrun as [-> ->]. simpl.
      match goal with Hr : registerEntity _ _ _ = Ok _ _ |- _ =>
        by apply registerEntity_entityMap in Hr as [-> ->] end. }
  by apply Hloop in Hrun.
Qed.

Lemma registerProviders_entityMap (ps : list (Provision File)) (d d' : Driver File FS) :
  forEach ps registerProvider d = Ok tt d' ->
  entityMap d' = publish ps (entityMap d) ∧
  filePtrs d' = filePtrs d ++ (file <$> ps).
Proof.
  revert d. induction ps as [|p ps IH]; intros d Hrun; simpl in Hrun.
  - apply ret_Ok in Hrun as [_ ->]. by rewrite app_nil_r.
  - run_inv. apply IH in Hrun as [-> ->].
    match goal with Hr : registerProvider _ _ = Ok _ _ |- _ =>
      apply registerProvider_entityMap in Hr as [-> ->] end.
    simpl. by rewrite <- (assoc_L (++)).
Qed.

Lemma publish_app (ps1 ps2 : list (Provision File)) (m : gmap EntityId File) :
  publish (ps1 ++ ps2) m = publish ps2 (publish ps1 m).
Proof. apply foldl_app. Qed.

Lemma publish_entities_elem_of (f : File) (ids : list EntityId) (m : gmap EntityId File)
    (id : EntityId) :
  id ∈ ids -> foldl (λ m id, <[id := f]> m) m ids !! id = Some f.
Proof.
  revert m. induction ids as [|i ids IH] using rev_ind; intros m;
    [by intros ?%elem_of_nil|].
  rewrite foldl_app. simpl. destruct (decide (i = id)) as [->|Hne].
  - intros _. apply lookup_insert_eq.
  - intros [Hin|Hin%list_elem_of_singleton]%elem_of_app; [|done].
    rewrite lookup_insert_ne by done. by apply IH.
Qed.

Lemma publish_entities_not_elem_of (f : File) (ids : list EntityId)
    (m : gmap EntityId File) (id : EntityId) :
  id ∉ ids -> foldl (λ m id, <[id := f]> m) m ids !! id = m !! id.
Proof.
  revert m. induction ids as [|i ids IH]; intros m; [done|].
  intros [Hne Hnin]%not_elem_of_cons. simpl. rewrite IH by done.
  by rewrite lookup_insert_ne.
Qed.

Lemma publish_not_elem_of (ps : list (Provision File)) (m : gmap EntityId File)
    (id : EntityId) :
  (∀ p, p ∈ ps -> id ∉ entities p) -> publish ps m !! id = m !! id.
Proof.
  revert m. induction ps as [|p ps IH]; intros m Hnone; [done|].
  unfold publish in *. simpl. rewrite IH by (intros q Hq; apply Hnone; by right).
  apply publish_entities_not_elem_of, Hnone. by left.
Qed.

(** X8.  A commit publishes what the driver staged with [provide], and nothing
    else: when [returned] comes back from finalizing a driver that reported
    [success] or [passed], every entity of every provision is in
    [entityMap], mapped to the file of the last provision that lists it, no
    other entity has changed, the files of the provisions have joined the
    file pool in order, and the object of the driver is gone. *)
Theorem returned_commit_publishes (fuel : nat) (this : ptr) (d d' : Driver File FS)
    (a : ActionDriver File) :
  heap d !! this = Some a ->
  missingDependencies a = ∅ ->
  state a = SUCCEEDED ∨ state a = PASSED ->
  this ∈ activeActions d ->
  returned fuel this d = Ok tt d' ->
  entityMap d' = publish (provisions a) (entityMap d) ∧
  (∀ ps1 p ps2 id, provisions a = ps1 ++ p :: ps2 -> id ∈ entities p ->
     (∀ q, q ∈ ps2 -> id ∉ entities q) -> entityMap d' !! id = Some (file p)) ∧
  (∀ id, (∀ p, p ∈ provisions a -> id ∉ entities p) ->
     entityMap d' !! id = entityMap d !! id) ∧
  filePtrs d' = filePtrs d ++ (file <$> provisions a) ∧
  heap d' !! this = None.
Proof.
  intros Hheap Hmissing Hstate Hactive Hrun. unfold returned in Hrun.
  apply bind_Ok in Hrun as (a0 & d0 & [Ha0 ->]%deref_Ok & Hrun).
  rewrite Hheap in Ha0. injection Ha0 as <-.
  apply bind_Ok in Hrun as (active & d0 & [-> ->]%gets_Ok & Hrun).
  pose proof (releaseAndShift_elem_of _ _ Hactive) as Hself.
  destruct (releaseAndShift this (activeActions d)) as [self rest]. simpl in Hself.
  subst self.
  rewrite decide_False in Hrun by (by intros []).
  rewrite decide_True in Hrun by done.
  apply bind_Ok in Hrun as ([] & d0 & ->%modify_Ok & Hrun).
  apply bind_Ok in Hrun as ([] & d1 & Hcommit & Hrun).
  apply bind_Ok in Hcommit as ([] & d2 & (a1 & _ & ->)%update_Ok & Hcommit).
  apply bind_Ok in Hcommit as ([] & d3 & Hprov & Hscan).
  apply registerProviders_entityMap in Hprov as [Hentities Hfiles]. simpl in *.
  assert (entityMap d1 = entityMap d3 ∧ filePtrs d1 = filePtrs d3) as [He1 Hf1].
  { eapply (forEach_Ok_inv (λ e, entityMap e = entityMap d3 ∧ filePtrs e = filePtrs d3));
      [|done|exact Hscan].
    intros o e e' _ [<- <-]. apply scanForActions_entityMap. }
  unfold ActionDriver_delete in Hrun. run_inv. simpl.
  rewrite He1, Hf1, Hentities, Hfiles.
  split; [done|]. split; [|split; [|split; [done|]]].
  - intros ps1 p ps2 id -> Hin Hlater.
    rewrite publish_app. change (p :: ps2) with ([p] ++ ps2). rewrite publish_app.
    rewrite publish_not_elem_of by done. unfold publish. simpl.
    by apply publish_entities_elem_of.
  - intros id Hnone. by apply publish_not_elem_of.
  - apply lookup_delete_eq.
Qed.

(** X9.  The rollback does not look at [entityMap]: a driver that recorded [id]
    as missing is blocked on [id] also when [id] has been published since,
    by a commit that ran between the lookup and the report.  It goes back
    to PENDING, held by [blockedActionPtrs] and not queued, with an edge
    under [id] in [blockedActions], while [id] has a provider. *)
Theorem rollback_ignores_later_publication (fuel : nat) (this : ptr) (d : Driver File FS)
    (a : ActionDriver File) (id : EntityId) (title : string) (f : File) :
  heap d !! this = Some a ->
  this ∈ activeActions d ->
  missingDependencies a !! id = Some title ->
  entityMap d !! id = Some f ->
  ∃ d' a', returned fuel this d = Ok tt d' ∧
    entityMap d' !! id = Some f ∧
    this ∈ blockedActionPtrs d' ∧
    (id, this) ∈ blockedActions d' ∧
    heap d' !! this = Some a' ∧ state a' = PENDING ∧
    missingDependencies a' !! id = Some title ∧
    pendingActions d' = pendingActions d.
Proof.
  intros Hheap Hactive Hmissing Hpublished.
  assert (missingDependencies a ≠ ∅) as Hne.
  { intros Hempty. by rewrite Hempty, lookup_empty in Hmissing. }
  eexists _, (rolledBack a). split; [by eapply returned_rollback_Ok|]. simpl.
  rewrite lookup_insert_eq. repeat split; try done; [set_solver|].
  apply elem_of_app. right. apply list_elem_of_fmap. exists (id, title).
  split; [done|]. by apply elem_of_map_to_list.
Qed.

(** ** Driver::addActionFactory *)

Lemma add_triggers_Ok (factory : ActionFactory File) (l : list EntityId)
    (d : Driver File FS) :
  forEach l (λ e, modify (set_triggers (λ t, t ++ [(e, factory)]))) d =
    Ok tt (set_triggers (λ t, t ++ ((λ e, (e, factory)) <$> l)) d).
Proof.
  revert d. induction l as [|x l IH]; intros d; simpl.
  - unfold ret. f_equal. driver_eq. by rewrite app_nil_r.
  - run_unfold. rewrite IH. f_equal. driver_eq. by rewrite <- (assoc_L (++)).
Qed.

Lemma equal_range_app {V} (id : EntityId) (m1 m2 : list (EntityId * V)) :
  equal_range id (m1 ++ m2) = equal_range id m1 ++ equal_range id m2.
Proof. unfold equal_range. by rewrite filter_app, fmap_app. Qed.

Lemma equal_range_fmap_const {V} (id : EntityId) (v : V) (l : list EntityId) :
  equal_range id ((λ e, (e, v)) <$> l) = (λ _, v) <$> filter (λ e, e = id) l.
Proof.
  unfold equal_range. induction l as [|e l IH]; [done|]. rewrite fmap_cons.
  destruct (decide (e = id)) as [->|Hne].
  - rewrite (filter_cons_True _ (id, v)) by done.
    rewrite (filter_cons_True _ id) by done. rewrite !fmap_cons. simpl.
    f_equal. apply IH.
  - rewrite (filter_cons_False _ (e, v)) by done.
    rewrite (filter_cons_False _ e) by done. apply IH.
Qed.

Lemma addActionFactory_Ok (name : string) (factory : ActionFactory File)
    (d : Driver File FS) :
  addActionFactory name factory d =
    Ok tt (set_triggers
             (λ t, t ++ ((λ e, (e, factory)) <$> enumerateTriggerEntities factory))
             (set_actionFactories (insert name factory) d)).
Proof.
  pose proof (add_triggers_Ok factory (enumerateTriggerEntities factory)) as Hloop.
  unfold addActionFactory. unfold mbind, M_bind, bind, modify in *.
  by rewrite Hloop.
Qed.

Lemma fmap_const_replicate {A B} (b : B) (l : list A) :
  (λ _, b) <$> l = replicate (length l) b.
Proof. induction l as [|a l IH]; [done|]. simpl. by rewrite <- IH. Qed.

(** X10.  [addActionFactory] always returns.  The factory is then the one
    registered under [name], in place of any earlier one, and the other
    names keep theirs; the trigger table has gained one entry per listed
    trigger entity, with repetitions, and has lost none: the triggers of a
    factory that was replaced under its name stay in force.  Nothing is
    said of the order of the table, and nothing else of the driver
    changes. *)
Theorem addActionFactory_registers (name : string) (factory : ActionFactory File)
    (d : Driver File FS) :
  ∃ d' table, addActionFactory name factory d = Ok tt d' ∧
    d' = set_triggers (λ _, table) (set_actionFactories (insert name factory) d) ∧
    table ≡ₚ triggers d ++ ((λ e, (e, factory)) <$> enumerateTriggerEntities factory) ∧
    actionFactories d' !! name = Some factory ∧
    (∀ other, other ≠ name -> actionFactories d' !! other = actionFactories d !! other) ∧
    (∀ id, equal_range id (triggers d') ≡ₚ
             equal_range id (triggers d)
               ++ replicate (length (filter (λ e, e = id) (enumerateTriggerEntities factory)))
                    factory) ∧
    (∀ id old, old ∈ equal_range id (triggers d) -> old ∈ equal_range id (triggers d')).
Proof.
  exists (set_triggers
            (λ t, t ++ ((λ e, (e, factory)) <$> enumerateTriggerEntities factory))
            (set_actionFactories (insert name factory) d)),
         (triggers d ++ ((λ e, (e, factory)) <$> enumerateTriggerEntities factory)).
  split; [apply addActionFactory_Ok|].
  split; [done|]. split; [done|]. simpl.
  split; [apply lookup_insert_eq|]. split; [|split].
  - intros other Hne. by rewrite lookup_insert_ne.
  - intros id. by rewrite equal_range_app, equal_range_fmap_const, fmap_const_replicate.
  - intros id old Hold. rewrite equal_range_app. apply elem_of_app. by left.
Qed.

(** ** The trigger loop of a commit *)

(** X11.  The trigger loop of a commit offers [(id, f)] once to every factory
    registered for [id], as many times as it is registered, and queues one
    new driver for every action made, in the order in which the loop comes
    to the factories, whichever that is.  The new drivers are as the
    constructor leaves them; their temporary directory is the parent of the
    provided file [f] itself.  Nothing is started, and no driver that
    existed is touched. *)
Theorem fireTriggers_queues_triggered_actions (id : EntityId) (f : File)
    (d : Driver File FS) :
  let offered := equal_range id (triggers d) in
  ∃ d' acts, fireTriggers id f d = Ok tt d' ∧
    acts ≡ₚ omap (λ factory, tryMakeActionForEntity factory id f) offered ∧
    trace d' = trace d ++ replicate (length offered) (EvTrigger id f) ∧
    pendingActions d' = pendingActions d ++ seq (nextPtr d) (length acts) ∧
    nextPtr d' = nextPtr d + length acts ∧
    (∀ i act, acts !! i = Some act ->
       heap d' !! (nextPtr d + i) =
         Some (ActionDriver_new act f
                 (Dashboard.beginTask (getVerb act) (File_displayName f)))) ∧
    (∀ p : ptr, p < nextPtr d -> heap d' !! p = heap d !! p) ∧
    activeActions d' = activeActions d ∧ eventManager d' = eventManager d ∧
    entityMap d' = entityMap d ∧ blockedActionPtrs d' = blockedActionPtrs d ∧
    blockedActions d' = blockedActions d.
Proof.
  intros offered.
  set (make := λ factory : ActionFactory File, tryMakeActionForEntity factory id f).
  set (pre := set_trace (λ tr, tr ++ [EvTrigger id f])
               : Driver File FS -> Driver File FS).
  eexists. exists (omap make offered). split; [apply fireTriggers_Ok|].
  destruct (enqueued_all make f f pre offered d) as (Hp & Hn & Hnew & Hold); [done..|].
  split; [done|].
  split; [rewrite <- fmap_const_replicate; apply enqueued_all_trace|].
  do 4 (split; [done|]).
  repeat split;
    by apply (enqueued_all_frame _ make f f pre offered d).
Qed.

(** ** Driver::scanForActions *)

Lemma offerFiles_Ok (s t : File) (factories : list (ActionFactory File))
    (d : Driver File FS) :
  forEach factories (offerFile s t) d =
    Ok tt (foldl (λ e factory,
                    match tryMakeAction factory s with
                    | Some act => enqueued act s t e
                    | None => e
                    end) d factories).
Proof.
  revert d. induction factories as [|x l IH]; intros d; [done|].
  simpl. unfold mbind, M_bind, bind, offerFile.
  destruct (tryMakeAction x s); simpl; apply IH.
Qed.



Lemma onlyQueued_refl (d : Driver File FS) : onlyQueued d d.
Proof.
  exists 0, []. simpl. rewrite app_nil_r, Nat.add_0_r.
  repeat split; try done. intros i Hi. lia.
Qed.

Lemma onlyQueued_record (d0 d : Driver File FS) (f : list (Event File) -> list (Event File)) :
  onlyQueued d0 d -> onlyQueued d0 (set_trace f d).
Proof. intros (n & dirs & H). by exists n, dirs. Qed.

Lemma onlyQueued_createDirectory (d0 d : Driver File FS) (t : File) :
  onlyQueued d0 d -> onlyQueued d0 (set_fileSystem (File_createDirectory t) d).
Proof.
  intros (n & dirs & Hp & Hn & Hnew & Hold & Hfs & ? & ? & ? & ? & ? & ? & ? & ? & ?). exists n, (dirs ++ [t]).
  simpl. rewrite foldl_app. simpl. rewrite Hfs. by repeat split.
Qed.

Lemma onlyQueued_enqueued (d0 d : Driver File FS) (act : Action) (f t : File) :
  onlyQueued d0 d -> onlyQueued d0 (enqueued act f t d).
Proof.
  intros (n & dirs & Hp & Hn & Hnew & Hold & Hfs & ? & ? & ? & ? & ? & ? & ? & ? & ?). exists (S n), dirs.
  rewrite seq_S. simpl. rewrite Hp, Hn, (assoc_L (++)).
  split; [done|]. split; [lia|]. split; [|split; [|by repeat split]].
  - intros i Hi. destruct (decide (i = n)) as [->|Hne].
    + rewrite lookup_insert_eq. eexists. split; [done|]. done.
    + rewrite lookup_insert_ne by lia. apply Hnew. lia.
  - intros p Hlt. rewrite lookup_insert_ne by lia. by apply Hold.
Qed.

Lemma scanForActions_loop_onlyQueued (d0 : Driver File FS) (fuel : nat)
    (fileQueue : list (File * File)) (d d' : Driver File FS) :
  onlyQueued d0 d -> scanForActions_loop fuel fileQueue d = Ok tt d' -> onlyQueued d0 d'.
Proof.
  revert fileQueue d. induction fuel as [|fuel IH]; intros fileQueue d HQ; simpl.
  - destruct (releaseBack fileQueue) as [[rest [srcFile tmpLocation]]|]; [done|].
    by intros [_ ->]%ret_Ok.
  - destruct (releaseBack fileQueue) as [[rest [srcFile tmpLocation]]|];
      [|by intros [_ ->]%ret_Ok].
    intros Hrun. run_inv.
    destruct (File_isDirectory srcFile (fileSystem d)).
    + run_cases; (eapply IH; [|done]); [done|by apply onlyQueued_createDirectory].
    + run_inv. eapply IH; [|done].
      match goal with Hloop : forEach _ _ _ = Ok _ _ |- _ =>
        eapply (forEach_Ok_inv (onlyQueued d0)); [|exact HQ|exact Hloop] end.
      intros factory e e' _ He Hoffer. unfold offerFile in Hoffer. run_cases; [|done].
      by apply onlyQueued_enqueued.
Qed.

(** X13.  Whatever it finds, a scan that returns has only created directories and
    queued new drivers: the drivers are as the constructor leaves them, at
    addresses that were not in use, and appended to the pending queue in the
    order of their creation.  Nothing is started, blocked or published, no
    callback is queued, and no driver that existed is touched. *)
Theorem scanForActions_only_queues (fuel : nat) (s t : File) (d d' : Driver File FS) :
  scanForActions fuel s t d = Ok tt d' ->
  onlyQueued d d' ∧ trace d' = trace d ++ [EvScan s t].
Proof.
  intros Hrun. split; [|by apply scanForActions_trace in Hrun].
  unfold scanForActions, record in Hrun. run_inv.
  eapply scanForActions_loop_onlyQueued; [|done].
  apply onlyQueued_record, onlyQueued_refl.
Qed.

Lemma scanForActions_loop_descends (chain : nat -> File) :
  (∀ n fs, File_isDirectory (chain n) fs = true) ->
  (∀ n fs, ∃ others, File_list (chain n) fs = others ++ [chain (S n)]) ->
  ∀ fuel n rest t (d : Driver File FS),
    scanForActions_loop fuel (rest ++ [(chain n, t)]) d = Diverge.
Proof.
  intros Hdir Hlist. induction fuel as [|fuel IH]; intros n rest t d; simpl;
    rewrite releaseBack_snoc; [done|].
  run_unfold. rewrite Hdir.
  destruct (File_isDirectory t (fileSystem d)); simpl.
  - destruct (Hlist n (fileSystem d)) as [others ->].
    rewrite fmap_app, (assoc_L (++)). apply IH.
  - destruct (Hlist n (File_createDirectory t (fileSystem d))) as [others ->].
    rewrite fmap_app, (assoc_L (++)). apply IH.
Qed.

(** X14.  The scan keeps no record of where it has been and knows no bound
    on depth.  Below a directory from which a chain of directories descends
    without end, each the last entry of the one before (the work list is a
    stack, so the last entry is the next to be visited; a directory that
    lists itself is such a chain), it goes on forever, creating deeper and
    deeper temporary directories: however many turns the loop is given, it
    has not returned. *)
Theorem scanForActions_loops_on_cycle (chain : nat -> File) (t : File)
    (d : Driver File FS) :
  (∀ n fs, File_isDirectory (chain n) fs = true) ->
  (∀ n fs, ∃ others, File_list (chain n) fs = others ++ [chain (S n)]) ->
  ∀ fuel, scanForActions fuel (chain 0) t d = Diverge.
Proof.
  intros Hdir Hlist fuel. unfold scanForActions, record. run_unfold.
  by apply (scanForActions_loop_descends chain Hdir Hlist fuel 0 []).
Qed.

Lemma treeSize_pos (b r : nat) : 1 ≤ treeSize b r.
Proof. destruct r; simpl; lia. Qed.

Lemma treeSize_mono (b r r' : nat) : r ≤ r' -> treeSize b r ≤ treeSize b r'.
Proof.
  revert r'. induction r as [|r IH]; intros r' Hle.
  - apply treeSize_pos.
  - destruct r' as [|r']; [lia|]. simpl. specialize (IH r' ltac:(lia)). nia.
Qed.

Lemma scanCost_app (rank : File -> nat) (b : nat) (q1 q2 : list (File * File)) :
  scanCost rank b (q1 ++ q2) = scanCost rank b q1 + scanCost rank b q2.
Proof.
  unfold scanCost. induction q1 as [|x q1 IH]; [done|].
  rewrite <- app_comm_cons, !fmap_cons. simpl. rewrite IH. lia.
Qed.

Lemma scanCost_children (rank : File -> nat) (b : nat) (f : File)
    (g : File -> File) (children : list File) :
  (∀ c, c ∈ children -> rank c < rank f) ->
  length children ≤ b ->
  S (scanCost rank b ((λ c, (c, g c)) <$> children)) ≤ treeSize b (rank f).
Proof.
  intros Hrank Hlen. destruct (rank f) as [|r] eqn:Hr.
  - destruct children as [|c l]; [simpl; done|].
    specialize (Hrank c ltac:(by left)). lia.
  - simpl. apply le_n_S.
    assert (scanCost rank b ((λ c, (c, g c)) <$> children)
            ≤ length children * treeSize b r) as Hsum.
    { clear Hlen. induction children as [|c l IH]; [done|].
      pose proof (treeSize_mono b (rank c) r) as Hc.
      pose proof (Hrank c ltac:(by left)) as Hlt.
      specialize (IH (λ x Hx, Hrank x (list_elem_of_further _ _ _ Hx))).
      change ((λ c, (c, g c)) <$> c :: l)
        with ([(c, g c)] ++ ((λ c, (c, g c)) <$> l)).
      rewrite scanCost_app. unfold scanCost at 1. simpl. lia. }
    pose proof (treeSize_pos b r). nia.
Qed.

Lemma scanForActions_loop_returns (rank : File -> nat) (b : nat) :
  (∀ fs f c, c ∈ File_list f fs -> rank c < rank f) ->
  (∀ fs f, length (File_list f fs) ≤ b) ->
  ∀ fuel fileQueue (d : Driver File FS),
    scanCost rank b fileQueue ≤ fuel ->
    ∃ d', scanForActions_loop fuel fileQueue d = Ok tt d'.
Proof.
  intros Hrank Hb. induction fuel as [|fuel IH]; intros fileQueue d Hcost.
  - destruct fileQueue as [|[s t] q _] using rev_ind; [by exists d|].
    rewrite scanCost_app in Hcost. unfold scanCost in Hcost. simpl in Hcost.
    pose proof (treeSize_pos b (rank s)). lia.
  - destruct fileQueue as [|[s t] q _] using rev_ind; [by exists d|].
    simpl. rewrite releaseBack_snoc.
    rewrite scanCost_app in Hcost.
    assert (scanCost rank b [(s, t)] = treeSize b (rank s)) as Hs
      by (unfold scanCost; simpl; lia).
    rewrite Hs in Hcost. run_unfold.
    destruct (File_isDirectory s (fileSystem d)).
    + destruct (File_isDirectory t (fileSystem d)); simpl; apply IH;
        rewrite scanCost_app;
        match goal with |- context [File_list s ?fs] =>
          pose proof (scanCost_children rank b s
                        (λ c, File_relative t (File_basename c)) (File_list s fs)
                        (Hrank fs s) (Hb fs s)) end; lia.
    + rewrite offerFiles_Ok. apply IH. pose proof (treeSize_pos b (rank s)). lia.
Qed.

(** X15.  On a tree of files the scan returns.  When the entries of every
    directory lie strictly lower than the directory, whatever directories
    have been created meanwhile, and no directory has more than [b]
    entries, the loop returns within as many turns as such a tree can have
    files, and within any larger number. *)
Theorem scanForActions_returns_on_finite_tree (rank : File -> nat) (b : nat)
    (s t : File) (d : Driver File FS) :
  (∀ fs f c, c ∈ File_list f fs -> rank c < rank f) ->
  (∀ fs f, length (File_list f fs) ≤ b) ->
  ∀ fuel, treeSize b (rank s) ≤ fuel ->
    ∃ d', scanForActions fuel s t d = Ok tt d'.
Proof.
  intros Hrank Hb fuel Hfuel. unfold scanForActions, record. run_unfold.
  apply (scanForActions_loop_returns rank b Hrank Hb).
  unfold scanCost. simpl. lia.
Qed.

(** ** Driver::startSomeActions: how many are started *)

Lemma startSomeActions_loop_count (n : nat) (d : Driver File FS) :
  length (pendingActions d) ≤ n ->
  (∀ p, p ∈ pendingActions d -> is_Some (heap d !! p)) ->
  let m := min (Z.to_nat (maxConcurrentActions d - Z.of_nat (length (activeActions d))))
               (length (pendingActions d)) in
  let started := reverse (drop (length (pendingActions d) - m) (pendingActions d)) in
  ∃ d', startSomeActions_loop n d = Ok tt d' ∧
    pendingActions d' = take (length (pendingActions d) - m) (pendingActions d) ∧
    activeActions d' = activeActions d ++ started ∧
    eventManager d' = eventManager d ++ (StartCallback <$> started) ∧
    (∀ q, heap d' !! q = if decide (q ∈ started)
                         then startedRun <$> heap d !! q else heap d !! q) ∧
    (m = 0 -> d' = d) ∧
    maxConcurrentActions d' = maxConcurrentActions d ∧
    entityMap d' = entityMap d ∧
    blockedActionPtrs d' = blockedActionPtrs d ∧
    blockedActions d' = blockedActions d.
Proof.
  revert d. induction n as [|n IH]; intros d Hlen Halive; simpl.
  - destruct (pendingActions d) eqn:Hp; [|simpl in Hlen; lia].
    rewrite (bool_decide_eq_false_2 ([] ≠ [])) by (by intros []).
    rewrite andb_false_r. exists d. rewrite Hp. simpl.
    rewrite Nat.min_0_r. simpl. rewrite !app_nil_r. repeat split; try done.
  - assert (∀ m, m = 0 ->
      ∃ d', Ok tt d = Ok tt d' ∧
        pendingActions d' = take (length (pendingActions d) - m) (pendingActions d) ∧
        activeActions d' = activeActions d
          ++ reverse (drop (length (pendingActions d) - m) (pendingActions d)) ∧
        eventManager d' = eventManager d
          ++ (StartCallback <$> reverse (drop (length (pendingActions d) - m)
                                           (pendingActions d))) ∧
        (∀ q, heap d' !! q =
                if decide (q ∈ reverse (drop (length (pendingActions d) - m)
                                          (pendingActions d)))
                then startedRun <$> heap d !! q else heap d !! q) ∧
        (m = 0 -> d' = d) ∧
        maxConcurrentActions d' = maxConcurrentActions d ∧
        entityMap d' = entityMap d ∧
        blockedActionPtrs d' = blockedActionPtrs d ∧
        blockedActions d' = blockedActions d) as Hnone.
    { intros m ->. exists d. rewrite Nat.sub_0_r, firstn_all, drop_all. simpl.
      rewrite !app_nil_r. repeat split; try done. }
    case_bool_decide as Hact; simpl; [case_bool_decide as Hne; simpl|].
    + destruct (releaseBack (pendingActions d)) as [[rest p]|] eqn:Hback;
        [|by apply releaseBack_None in Hback].
      apply releaseBack_Some in Hback.
      destruct (Halive p) as [a Ha]; [rewrite Hback; set_solver|].
      run_unfold. unfold try_catch. rewrite ActionDriver_start_Ok with (a := a) by done.
      match goal with |- ∃ d', startSomeActions_loop n ?d1 = _ ∧ _ =>
        destruct (IH d1)
          as (d' & Hrun & Hpend & Hactive & Hqueue & Hheap & _ & Hmax & He & Hb & Hbs) end.
      { simpl. rewrite Hback, length_app in Hlen. simpl in Hlen. lia. }
      { simpl. intros q Hq. destruct (decide (p = q)) as [->|].
        - rewrite lookup_insert_eq. eauto.
        - rewrite !lookup_insert_ne by done. apply Halive. rewrite Hback. set_solver. }
      simpl in Hpend, Hactive, Hqueue, Hheap, Hmax, He, Hb, Hbs.
      rewrite Hback in *. rewrite !length_app in *. simpl in *.
      set (free := Z.to_nat (maxConcurrentActions d - Z.of_nat (length (activeActions d)))) in *.
      set (m1 := min (Z.to_nat (maxConcurrentActions d
                        - Z.of_nat (length (activeActions d) + 1))) (length rest)) in *.
      assert (min free (length rest + 1) = S m1) as -> by (unfold free, m1; lia).
      replace (length rest + 1 - S m1) with (length rest - m1) by lia.
      assert (length rest - m1 ≤ length rest) as Hle by lia.
      exists d'. rewrite take_app_le, drop_app_le, reverse_snoc by done.
      rewrite Hactive, Hqueue, <- !(assoc_L (++)). simpl.
      repeat split; try done.
      intros q. rewrite Hheap. destruct (decide (p = q)) as [->|Hpq].
      * rewrite lookup_insert_eq, Ha. rewrite (decide_True (P := q ∈ q :: _)) by (by left).
        by case_decide.
      * rewrite !lookup_insert_ne by done. case_decide as Hin.
        -- by rewrite decide_True by (by right).
        -- rewrite decide_False; [done|]. by intros [?|?]%elem_of_cons.
    + assert (pendingActions d = []) as Hnil
        by (destruct (pendingActions d); [done|by destruct Hne]).
      apply Hnone. rewrite Hnil. simpl. lia.
    + apply Hnone. lia.
Qed.

(** X16.  [startSomeActions] always returns when the pending drivers are alive.
    It starts as many actions as there are free slots, or all that are
    pending when they are fewer, taking them from the back of the queue:
    each is then RUNNING on the dashboard and in the driver, with its
    [StartCallback] queued, and nothing else of it has changed.  With no
    free slot, or nothing pending, it does nothing at all.  Afterwards no
    slot is idle while an action waits. *)
Theorem startSomeActions_fills_free_slots (d : Driver File FS) :
  (∀ p, p ∈ pendingActions d -> is_Some (heap d !! p)) ->
  let m := min (Z.to_nat (maxConcurrentActions d - Z.of_nat (length (activeActions d))))
               (length (pendingActions d)) in
  let started := reverse (drop (length (pendingActions d) - m) (pendingActions d)) in
  ∃ d', startSomeActions d = Ok tt d' ∧
    length started = m ∧
    pendingActions d' = take (length (pendingActions d) - m) (pendingActions d) ∧
    activeActions d' = activeActions d ++ started ∧
    eventManager d' = eventManager d ++ (StartCallback <$> started) ∧
    (∀ q, heap d' !! q = if decide (q ∈ started)
                         then startedRun <$> heap d !! q else heap d !! q) ∧
    (m = 0 -> d' = d) ∧
    saturated d'.
Proof.
  intros Halive m started.
  destruct (startSomeActions_loop_count (length (pendingActions d)) d)
    as (d' & Hrun & Hpend & Hactive & Hqueue & Hheap & Hsame & Hmax & _); [done..|].
  assert (length started = m) as Hlen.
  { unfold started. rewrite length_reverse, length_drop. unfold m. lia. }
  exists d'. repeat split; try done.
  unfold saturated. rewrite Hpend, Hactive, Hmax, length_app.
  fold m. fold started. rewrite Hlen.
  destruct (decide (m = length (pendingActions d))) as [Heq|Hne].
  - left. rewrite Heq, Nat.sub_diag. done.
  - right. unfold m in *. lia.
Qed.

(** ** Turns of the event loop *)

Lemma threwException_Ok_inv (this : ptr) (what : string) (d d' : Driver File FS) :
  threwException this what d = Ok tt d' ->
  ∃ a, heap d !! this = Some a ∧
    d' = let a1 := set_dashboardTask
                     (Dashboard.addOutput ("uncaught exception: " +:+ what +:+ newline)) a in
         if decide (state a = RUNNING)
         then set_eventManager (λ q, q ++ [DoneCallback this])
                (set_heap (insert this (set_state FAILED a1)) d)
         else set_heap (insert this a1) d.
Proof.
  intros Hrun. destruct (heap d !! this) as [a|] eqn:Hheap.
  - exists a. split; [done|]. rewrite (threwException_Ok _ _ _ _ Hheap) in Hrun.
    simpl in *. by destruct (decide (state a = RUNNING)); injection Hrun as <-.
  - unfold threwException in Hrun. run_inv. congruence.
Qed.

Lemma threwUnknownException_Ok_inv (this : ptr) (d d' : Driver File FS) :
  threwUnknownException this d = Ok tt d' ->
  ∃ a, heap d !! this = Some a ∧
    d' = let a1 := set_dashboardTask
                     (Dashboard.addOutput ("uncaught exception of unknown type" +:+ newline))
                     a in
         if decide (state a = RUNNING)
         then set_eventManager (λ q, q ++ [DoneCallback this])
                (set_heap (insert this (set_state FAILED a1)) d)
         else set_heap (insert this a1) d.
Proof.
  intros Hrun. destruct (heap d !! this) as [a|] eqn:Hheap.
  - exists a. split; [done|]. rewrite (threwUnknownException_Ok _ _ _ Hheap) in Hrun.
    simpl in *. by destruct (decide (state a = RUNNING)); injection Hrun as <-.
  - unfold threwUnknownException in Hrun. run_inv. congruence.
Qed.

(** A turn is [Driver::start], or a [DoneCallback], or leaves the
    collections, the entities and the file system as they are. *)
Lemma step_cases (d d' : Driver File FS) :
  step d d' ->
  (∃ fuel, Driver_start fuel d = Ok tt d') ∨
  (∃ fuel q1 q2 p, eventManager d = q1 ++ DoneCallback p :: q2 ∧
     DoneCallback_run fuel p (set_eventManager (λ _, q1 ++ q2) d) = Ok tt d') ∨
  (pendingActions d' = pendingActions d ∧ activeActions d' = activeActions d ∧
   maxConcurrentActions d' = maxConcurrentActions d ∧
   entityMap d' = entityMap d ∧ filePtrs d' = filePtrs d ∧
   blockedActionPtrs d' = blockedActionPtrs d ∧
   blockedActions d' = blockedActions d ∧
   fileSystem d' = fileSystem d ∧ nextPtr d' = nextPtr d).
Proof.
  destruct 1 as [name factory d d' Hrun|fuel d d' Hrun|q1 q2 p d d' Hq Hrun
    |fuel q1 q2 p d d' Hq Hrun|this c d d' Hrun|this c what d d' Hrun
    |this what d d' Hrun|this d d' Hrun].
  - rewrite addActionFactory_Ok in Hrun. injection Hrun as <-. right. right. done.
  - left. eauto.
  - apply ret_Ok in Hrun as [_ ->]. right. right. done.
  - right. left. eauto 10.
  - apply call_Ok_inv in Hrun as (a & _ & _ & -> & _). right. right. done.
  - apply call_Throw in Hrun as ->. right. right. done.
  - apply threwException_Ok_inv in Hrun as (a & _ & ->). right. right.
    simpl. by destruct (decide (state a = RUNNING)).
  - apply threwUnknownException_Ok_inv in Hrun as (a & _ & ->). right. right.
    simpl. by destruct (decide (state a = RUNNING)).
Qed.

Lemma startSomeActions_loop_frame (n : nat) (d d' : Driver File FS) :
  startSomeActions_loop n d = Ok tt d' ->
  saturated d' ∧
  maxConcurrentActions d' = maxConcurrentActions d ∧
  entityMap d' = entityMap d ∧ filePtrs d' = filePtrs d ∧
  blockedActionPtrs d' = blockedActionPtrs d ∧
  blockedActions d' = blockedActions d.
Proof.
  revert d. induction n as [|n IH]; intros d; simpl.
  - case_bool_decide as Hact; simpl; [case_bool_decide as Hne; simpl|]; try done.
    + intros [= <-]. split; [|done]. left.
      destruct (pendingActions d); [done|by destruct Hne].
    + intros [= <-]. split; [|done]. right. lia.
  - case_bool_decide as Hact; simpl; [case_bool_decide as Hne; simpl|].
    + destruct (releaseBack (pendingActions d)) as [[rest p]|] eqn:Hback; [|done].
      intros Hrun. run_inv.
      match goal with Hstart : try_catch _ _ _ = Ok _ _ |- _ =>
        apply try_catch_Ok in Hstart as [Hs|(? & ? & Hs & _)] end;
        [|by apply ActionDriver_start_Throw in Hs].
      unfold ActionDriver_start in Hs. run_inv.
      apply IH in Hrun as (? & -> & -> & -> & -> & ->). done.
    + intros [= <-]. split; [|done]. left.
      destruct (pendingActions d); [done|by destruct Hne].
    + intros [= <-]. split; [|done]. right. lia.
Qed.

(** X17.  Between any two turns of the event loop no slot is idle while an action
    waits: the pending queue is empty, or as many actions are active as
    [maxConcurrentActions] allows (none, when that is not positive). *)
Theorem no_idle_slot_between_turns (d : Driver File FS) :
  reachable d -> saturated d.
Proof.
  intros (fs & s & t & m & Hsteps).
  eapply (rtc_ind_r (λ e, saturated e) (Driver_new fs s t m)); [by left| |exact Hsteps].
  intros d1 d2 _ Hstep IH.
  destruct (step_cases _ _ Hstep)
    as [[fuel Hrun]|[(fuel & q1 & q2 & p & _ & Hrun)|(Hp & Ha & Hm & _)]].
  - unfold Driver_start in Hrun. run_inv.
    by apply startSomeActions_loop_frame in Hrun as [? _].
  - unfold DoneCallback_run in Hrun. run_inv.
    by apply startSomeActions_loop_frame in Hrun as [? _].
  - unfold saturated. by rewrite Hp, Ha, Hm.
Qed.

Lemma returned_entityMap (fuel : nat) (this : ptr) (d d' : Driver File FS) :
  returned fuel this d = Ok tt d' ->
  ∃ a, heap d !! this = Some a ∧
    entityMap d' =
      if decide (missingDependencies a ≠ ∅) then entityMap d
      else if decide (state a = SUCCEEDED ∨ state a = PASSED)
           then publish (provisions a) (entityMap d)
           else entityMap d.
Proof.
  intros Hrun. unfold returned in Hrun.
  apply bind_Ok in Hrun as (a & d0 & [Ha ->]%deref_Ok & Hrun). exists a. split; [done|].
  apply bind_Ok in Hrun as (active & d0 & [-> ->]%gets_Ok & Hrun).
  destruct (releaseAndShift this (activeActions d)) as [self rest].
  apply bind_Ok in Hrun as ([] & d0 & ->%modify_Ok & Hrun).
  destruct (decide (missingDependencies a ≠ ∅)) as [Hmissing|Hmissing].
  - destruct self as [self|]; [|by run_inv]. run_inv.
    match goal with Hloop : forEach _ _ _ = Ok _ _ |- _ =>
      eapply (forEach_Ok_inv (λ e, entityMap e = entityMap d)) in Hloop; [done| |done] end.
    by intros kv e e' _ He ->%modify_Ok.
  - apply bind_Ok in Hrun as ([] & d1 & Hbody & Hrun).
    assert (entityMap d' = entityMap d1) as ->.
    { destruct self; [|by apply ret_Ok in Hrun as [_ ->]].
      unfold ActionDriver_delete in Hrun. by run_inv. }
    destruct (decide (state a = SUCCEEDED ∨ state a = PASSED)).
    + apply bind_Ok in Hbody as ([] & d2 & (a1 & _ & ->)%update_Ok & Hbody).
      apply bind_Ok in Hbody as ([] & d3 & Hprov & Hscan).
      apply registerProviders_entityMap in Hprov as [Hentities _]. simpl in *.
      rewrite <- Hentities.
      eapply (forEach_Ok_inv (λ e, entityMap e = entityMap d3)); [|done|exact Hscan].
      intros out e e' _ <- Hout. by apply scanForActions_entityMap in Hout as [-> _].
    + by run_inv.
Qed.

Lemma publish_is_Some (ps : list (Provision File)) (m : gmap EntityId File) (id : EntityId) :
  is_Some (m !! id) -> is_Some (publish ps m !! id).
Proof.
  revert m. induction ps as [|p ps IH]; intros m Hm; [done|].
  unfold publish in *. simpl. apply IH. clear IH.
  revert m Hm. induction (entities p) as [|i l IH]; intros m Hm; [done|].
  simpl. apply IH. apply lookup_insert_is_Some'. by right.
Qed.

(** X18.  An entity, once published, stays published: whatever turns the event
    loop takes, an entity that has a provider keeps having one (the last
    to have provided it). *)
Theorem published_entities_stay (d d' : Driver File FS) (id : EntityId) :
  rtc step d d' ->
  is_Some (entityMap d !! id) ->
  is_Some (entityMap d' !! id).
Proof.
  intros Hsteps Hid.
  eapply (rtc_ind_r (λ e, is_Some (entityMap e !! id))); [exact Hid| |exact Hsteps].
  clear. intros d1 d2 _ Hstep IH.
  destruct (step_cases _ _ Hstep)
    as [[fuel Hrun]|[(fuel & q1 & q2 & p & _ & Hrun)|(_ & _ & _ & He & _)]].
  - unfold Driver_start in Hrun. run_inv.
    apply startSomeActions_loop_frame in Hrun as (_ & _ & -> & _).
    match goal with Hscan : scanForActions _ _ _ _ = Ok _ _ |- _ =>
      by apply scanForActions_entityMap in Hscan as [-> _] end.
  - unfold DoneCallback_run in Hrun. run_inv.
    apply startSomeActions_loop_frame in Hrun as (_ & _ & -> & _).
    match goal with Hret : returned _ _ _ = Ok _ _ |- _ =>
      apply returned_entityMap in Hret as (a & _ & ->) end.
    simpl. repeat case_decide; try done. by apply publish_is_Some.
  - by rewrite He.
Qed.

(** ** What the collections say of one another *)

Lemma elem_of_cancelAll (owner p : ptr) (q : list Callback) :
  StartCallback p ∈ EventGroup_cancelAll owner q ↔ StartCallback p ∈ q ∧ p ≠ owner.
Proof.
  unfold EventGroup_cancelAll. rewrite list_elem_of_filter. simpl.
  rewrite bool_decide_eq_false. tauto.
Qed.

Lemma Consistent_new (fs : FS) (s t : File) (m : Z) :
  Consistent [] (Driver_new fs s t m).
Proof.
  split; simpl.
  - intros p [a Ha]. by rewrite lookup_empty in Ha.
  - by intros p ?%elem_of_nil.
  - by intros p a ?%elem_of_nil.
  - by intros p a ?%elem_of_empty.
  - constructor.
Qed.

Lemma Consistent_frame (fin : list ptr) (d d' : Driver File FS) :
  pendingActions d' = pendingActions d ->
  activeActions d' = activeActions d ->
  blockedActionPtrs d' = blockedActionPtrs d ->
  blockedActions d' = blockedActions d ->
  heap d' = heap d ->
  eventManager d' = eventManager d ->
  Consistent fin d -> Consistent fin d'.
Proof.
  intros Hp Ha Hb He Hh Hq [Howned Hstart Hactive Hblocked Hnd].
  split; rewrite ?Hp, ?Ha, ?Hb, ?He, ?Hh, ?Hq; done.
Qed.

(** Strips an assignment to a member that [Consistent] does not mention. *)
Ltac con_frame :=
  repeat match goal with
  | |- Consistent ?fin (_ _ ?d0) =>
      apply (Consistent_frame fin d0); [done|done|done|done|done|done|]
  end.

Lemma Consistent_enqueued (cap : Z) (L : list ptr) (dr : option EntityId)
    (fin : list ptr) (act : Action) (f t : File) (d : Driver File FS) :
  Inv cap L dr d -> Consistent fin d -> Consistent fin (enqueued act f t d).
Proof.
  intros HI [Howned Hstart Hactive Hblocked Hnd].
  assert (∀ p : ptr, is_Some (heap d !! p) -> nextPtr d ≠ p) as Hnew.
  { intros p Hp%(inv_heap _ _ _ _ HI). lia. }
  split; simpl; try done.
  - intros p [<-|Hp]%lookup_insert_is_Some'.
    + left. apply elem_of_app. right. by left.
    + destruct (Howned p Hp) as [?|?]; [|by right]. left. apply elem_of_app. by left.
  - intros p a Hp. rewrite lookup_insert_ne; [by apply Hactive|].
    apply Hnew. by apply (inv_active _ _ _ _ HI).
  - intros p a Hp. rewrite lookup_insert_ne; [by apply Hblocked|].
    apply Hnew. destruct (inv_blocked _ _ _ _ HI _ Hp) as (_ & _ & b & -> & _). eauto.
Qed.

(** An assignment that keeps the state of the object, what its task shows
    and, when the driver is blocked, what it misses. *)
Lemma Consistent_update (fin : list ptr) (p : ptr) (a a' : ActionDriver File)
    (d : Driver File FS) :
  heap d !! p = Some a ->
  state a' = state a ->
  Dashboard.state (dashboardTask a') = Dashboard.state (dashboardTask a) ->
  (p ∈ blockedActionPtrs d -> missingDependencies a' = missingDependencies a) ->
  Consistent fin d -> Consistent fin (set_heap (insert p a') d).
Proof.
  intros Ha Hs Ht Hm [Howned Hstart Hactive Hblocked Hnd].
  split; simpl; try done.
  - intros q [<-|Hq]%lookup_insert_is_Some'; apply Howned; eauto.
  - intros q b Hq. destruct (decide (p = q)) as [->|Hne].
    + rewrite lookup_insert_eq. intros [= <-]. rewrite Hs, Ht. by apply Hactive.
    + rewrite lookup_insert_ne by done. by apply Hactive.
  - intros q b Hq. destruct (decide (p = q)) as [->|Hne].
    + rewrite lookup_insert_eq. intros [= <-]. rewrite Ht, (Hm Hq). by apply Hblocked.
    + rewrite lookup_insert_ne by done. by apply Hblocked.
Qed.

(** An assignment to members of an object that is neither active nor
    blocked. *)
Lemma Consistent_update_free (fin : list ptr) (p : ptr) (a' : ActionDriver File)
    (d : Driver File FS) :
  is_Some (heap d !! p) ->
  p ∉ activeActions d -> p ∉ blockedActionPtrs d ->
  Consistent fin d -> Consistent fin (set_heap (insert p a') d).
Proof.
  intros Halive Hna Hnb [Howned Hstart Hactive Hblocked Hnd].
  split; simpl; try done.
  - intros q [<-|Hq]%lookup_insert_is_Some'; by apply Howned.
  - intros q b Hq. rewrite lookup_insert_ne; [by apply Hactive|]. by intros ->.
  - intros q b Hq. rewrite lookup_insert_ne; [by apply Hblocked|]. by intros ->.
Qed.

(** A report: the state leaves RUNNING and the completion callback is
    queued. *)
Lemma Consistent_report (fin : list ptr) (p : ptr) (a a' : ActionDriver File)
    (d : Driver File FS) :
  heap d !! p = Some a ->
  p ∉ blockedActionPtrs d ->
  state a' ≠ PENDING ->
  Dashboard.state (dashboardTask a') = Dashboard.state (dashboardTask a) ->
  Consistent fin d ->
  Consistent fin (set_eventManager (λ q, q ++ [DoneCallback p])
                    (set_heap (insert p a') d)).
Proof.
  intros Ha Hnb Hs Ht [Howned Hstart Hactive Hblocked Hnd].
  split; simpl; try done.
  - intros q [<-|Hq]%lookup_insert_is_Some'; apply Howned; eauto.
  - intros q [Hq|Hq%list_elem_of_singleton]%elem_of_app; [by apply Hstart|done].
  - intros q b Hq. rewrite doneCallbacks_app. simpl.
    destruct (decide (p = q)) as [->|Hne].
    + rewrite lookup_insert_eq. intros [= <-].
      destruct (Hactive q a Hq Ha) as (_ & Htask & _). rewrite Ht.
      split; [done|]. split; [done|]. right. left. apply elem_of_app. right. by left.
    + rewrite lookup_insert_ne by done. intros Hb.
      destruct (Hactive q b Hq Hb) as (? & ? & [?|[?|?]]); repeat split; auto.
      right. left. apply elem_of_app. by left.
  - intros q b Hq. rewrite lookup_insert_ne; [by apply Hblocked|]. by intros ->.
Qed.

Lemma Consistent_pop_start (q1 q2 : list Callback) (p : ptr) (d : Driver File FS) :
  eventManager d = q1 ++ StartCallback p :: q2 ->
  Consistent [] d -> Consistent [] (set_eventManager (λ _, q1 ++ q2) d).
Proof.
  intros Hq [Howned Hstart Hactive Hblocked Hnd]. rewrite Hq in *.
  split; simpl; try done.
  - intros x Hx. apply Hstart. set_solver.
  - intros x b Hx Hb. destruct (Hactive x b Hx Hb) as (? & ? & Hdone).
    repeat split; try done. by rewrite !doneCallbacks_app in *.
Qed.

Lemma Consistent_pop_done (q1 q2 : list Callback) (p : ptr) (d : Driver File FS) :
  eventManager d = q1 ++ DoneCallback p :: q2 ->
  Consistent [] d -> Consistent [p] (set_eventManager (λ _, q1 ++ q2) d).
Proof.
  intros Hq [Howned Hstart Hactive Hblocked Hnd]. rewrite Hq in *.
  split; simpl; try done.
  - intros x Hx. destruct (Howned x Hx) as [?|[?|[?|[]%elem_of_nil]]]; auto.
  - intros x Hx. left. destruct (Hstart x) as [?|?%elem_of_nil]; [set_solver|done..].
  - intros x b Hx Hb. destruct (Hactive x b Hx Hb) as (? & ? & Hdone).
    repeat split; try done. rewrite !doneCallbacks_app in *. simpl in *.
    destruct Hdone as [?|[Hdone|?%elem_of_nil]]; [by left| |done].
    destruct (decide (x = p)) as [->|Hne]; [right; right; by left|].
    right. left. set_solver.
Qed.

(** The head of [returned]. *)
Lemma Consistent_release (this : ptr) (d : Driver File FS) :
  Consistent [this] d ->
  Consistent [this]
    (set_activeActions (λ _, (releaseAndShift this (activeActions d)).2) d).
Proof.
  intros [Howned Hstart Hactive Hblocked Hnd].
  pose proof (releaseAndShift_sublist this (activeActions d)) as Hsub.
  split; simpl; try done.
  - intros x Hx. destruct (decide (x = this)) as [->|Hne]; [right; right; right; by left|].
    destruct (Howned x Hx) as [?|[?|[?|?]]]; auto.
    right. left. by apply releaseAndShift_elem_of_ne.
  - intros x Hx. destruct (decide (x = this)) as [->|Hne]; [right; by left|].
    destruct (Hstart x Hx) as [?|?]; [|by right].
    left. by apply releaseAndShift_elem_of_ne.
  - intros x b Hx. apply Hactive. by eapply elem_of_sublist.
Qed.

(** The end of a commit or of a failure. *)
Lemma Consistent_delete (cap : Z) (dr : option EntityId) (this : ptr)
    (d : Driver File FS) :
  Inv cap [this] dr d -> Consistent [this] d ->
  Consistent [] (set_heap (delete this)
                  (set_eventManager (EventGroup_cancelAll this) d)).
Proof.
  intros HI [Howned Hstart Hactive Hblocked Hnd].
  assert (this ∉ activeActions d) as Hna.
  { intros [Hl _]%(inv_active _ _ _ _ HI). apply Hl. by left. }
  assert (this ∉ blockedActionPtrs d) as Hnb.
  { intros (_ & Hl & _)%(inv_blocked _ _ _ _ HI). apply Hl. by left. }
  split; simpl; try done.
  - intros x [b [Hne Hb]%lookup_delete_Some].
    destruct (Howned x) as [?|[?|[?|?%list_elem_of_singleton]]]; eauto. by subst.
  - intros x [Hx Hne]%elem_of_cancelAll.
    destruct (Hstart x Hx) as [?|?%list_elem_of_singleton]; [by left|done].
  - intros x b Hx [Hne Hb]%lookup_delete_Some. rewrite doneCallbacks_cancelAll.
    destruct (Hactive x b Hx Hb) as (? & ? & [?|[?|?%list_elem_of_singleton]]);
      repeat split; auto. by subst.
  - intros x b Hx [Hne Hb]%lookup_delete_Some. by apply Hblocked.
Qed.

(** The rollback, from the driver that [returned] found to the one it
    leaves. *)
Lemma Consistent_rollback (cap : Z) (this : ptr) (a : ActionDriver File)
    (d : Driver File FS) :
  Inv cap [] None d -> Consistent [this] d ->
  heap d !! this = Some a ->
  missingDependencies a ≠ ∅ ->
  this ∈ activeActions d ->
  Consistent []
    (set_blockedActions
       (λ m, m ++ ((λ kv, (kv.1, this)) <$> map_to_list (missingDependencies a)))
    (set_blockedActionPtrs (λ s, {[this]} ∪ s)
    (set_heap (λ _, <[this := rolledBack a]> (heap d))
    (set_eventManager (EventGroup_cancelAll this)
    (set_activeActions (λ _, (releaseAndShift this (activeActions d)).2) d))))).
Proof.
  intros HI [Howned Hstart Hactive Hblocked Hnd] Ha Hmissing Hin.
  pose proof (releaseAndShift_NoDup this _ (inv_active_NoDup _ _ _ _ HI)) as [Hthis _].
  pose proof (releaseAndShift_sublist this (activeActions d)) as Hsub.
  destruct (Inv_active_free _ _ _ _ _ HI Hin) as [Hnp Hnb].
  split; simpl.
  - intros x Hx. destruct (decide (x = this)) as [->|Hne]; [right; right; left; set_solver|].
    rewrite lookup_insert_ne in Hx by done.
    destruct (Howned x Hx) as [?|[?|[?|?%list_elem_of_singleton]]]; auto.
    + right. left. by apply releaseAndShift_elem_of_ne.
    + right. right. left. set_solver.
    + done.
  - intros x [Hx Hne]%elem_of_cancelAll. left.
    destruct (Hstart x Hx) as [?|?%list_elem_of_singleton]; [|done].
    by apply releaseAndShift_elem_of_ne.
  - intros x b Hx. assert (x ≠ this) as Hne by (by intros ->).
    rewrite lookup_insert_ne by done. intros Hb. rewrite doneCallbacks_cancelAll.
    destruct (Hactive x b (elem_of_sublist _ _ _ Hx Hsub) Hb)
      as (? & ? & [?|[?|?%list_elem_of_singleton]]); repeat split; auto. done.
  - intros x b [->%elem_of_singleton|Hx]%elem_of_union.
    + rewrite lookup_insert_eq. intros [= <-]. simpl. split; [done|]. split; [done|].
      intros id [title Hid]. apply elem_of_app. right.
      apply list_elem_of_fmap. exists (id, title). split; [done|].
      by apply elem_of_map_to_list.
    + assert (x ≠ this) as Hne by (by intros ->).
      rewrite lookup_insert_ne by done. intros Hb.
      destruct (Hblocked x b Hx Hb) as (? & ? & Hedges). repeat split; try done.
      intros id Hid. apply elem_of_app. left. by apply Hedges.
  - apply NoDup_app. split; [done|]. split.
    + intros [id x] Hold ([k v] & [= -> ->] & _)%list_elem_of_fmap.
      destruct (inv_edges _ _ _ _ HI _ _ Hold) as [?|[? _]]; done.
    + apply NoDup_fmap_2_strong; [|apply NoDup_map_to_list].
      intros [i x] [j y] Hx Hy [= Hij]. simpl in Hij. subst j.
      apply elem_of_map_to_list in Hx, Hy. congruence.
Qed.

(** One iteration of [startSomeActions], from adoption to the queued
    [StartCallback]. *)
Lemma Consistent_start (cap : Z) (rest : list ptr) (p : ptr) (a : ActionDriver File)
    (d : Driver File FS) :
  Inv cap [] None d -> Consistent [] d ->
  pendingActions d = rest ++ [p] ->
  heap d !! p = Some a ->
  Consistent []
    (set_eventManager (λ q, q ++ [StartCallback p])
      (set_heap (insert p (set_dashboardTask (Dashboard.setState Dashboard.RUNNING)
                            (set_state RUNNING a)))
        (set_heap (insert p (set_state RUNNING a))
          (set_activeActions (λ v, v ++ [p]) (set_pendingActions (λ _, rest) d))))).
Proof.
  intros HI [Howned Hstart Hactive Hblocked Hnd] Hpending Ha.
  destruct (inv_pending _ _ _ _ HI p) as (Hna & Hnb & _); [rewrite Hpending; set_solver|].
  split; simpl; try done.
  - intros x Hx. assert (is_Some (heap d !! x)) as Hx'.
    { apply lookup_insert_is_Some' in Hx as [<-|Hx]; [by eauto|].
      apply lookup_insert_is_Some' in Hx as [<-|Hx]; by eauto. }
    destruct (Howned x Hx') as [Hp|[?|[?|?]]]; auto.
    + rewrite Hpending in Hp. apply elem_of_app in Hp as [?|?%list_elem_of_singleton];
        [by left|]. right. left. subst. set_solver.
    + right. left. set_solver.
  - intros x [Hx|Hx%list_elem_of_singleton]%elem_of_app.
    + destruct (Hstart x Hx) as [?|?]; [|by right]. left. set_solver.
    + injection Hx as ->. left. set_solver.
  - intros x b Hx. rewrite doneCallbacks_app. simpl. rewrite app_nil_r.
    destruct (decide (p = x)) as [->|Hne].
    + rewrite lookup_insert_eq. intros [= <-]. simpl. repeat split; auto.
    + rewrite !lookup_insert_ne by done.
      apply elem_of_app in Hx as [Hx|?%list_elem_of_singleton]; [|done].
      by apply Hactive.
  - intros x b Hx. assert (p ≠ x) as Hne by (by intros ->).
    rewrite !lookup_insert_ne by done. by apply Hblocked.
Qed.

(** A waiter loses [id] and has nothing left to wait for: it is promoted. *)
Lemma Consistent_unblock_promote (fin : list ptr) (id : EntityId) (w : ptr)
    (l : list ptr) (a : ActionDriver File) (d : Driver File FS) :
  heap d !! w = Some a ->
  Consistent fin d -> drained id (w :: l) d ->
  let d' := set_pendingActions (λ q, q ++ [w])
              (set_blockedActionPtrs (λ s, s ∖ {[w]})
                (set_heap (insert w (set_missingDependencies (delete id) a)) d)) in
  Consistent fin d' ∧ drained id l d'.
Proof.
  intros Ha [Howned Hstart Hactive Hblocked Hnd] Hdr.
  split; [split|unfold drained]; simpl; try done.
  - intros x Hx. assert (is_Some (heap d !! x)) as Hx'.
    { apply lookup_insert_is_Some' in Hx as [<-|Hx]; by eauto. }
    destruct (decide (x = w)) as [->|Hne]; [left; set_solver|].
    destruct (Howned x Hx') as [?|[?|[?|?]]]; auto; [left|right; right; left]; set_solver.
  - intros x b Hx. destruct (decide (w = x)) as [->|Hne].
    + rewrite lookup_insert_eq. intros [= <-]. simpl. by apply (Hactive x a).
    + rewrite lookup_insert_ne by done. by apply Hactive.
  - intros x b [Hx Hne%not_elem_of_singleton]%elem_of_difference.
    rewrite lookup_insert_ne by done. by apply Hblocked.
  - intros x b [Hx Hne%not_elem_of_singleton]%elem_of_difference.
    rewrite lookup_insert_ne by done. intros Hb Hid.
    by pose proof (Hdr x b Hx Hb Hid) as [->|?]%elem_of_cons.
Qed.

(** A waiter loses [id] and stays where it is: it still misses something,
    or is not blocked. *)
Lemma Consistent_unblock_stay (fin : list ptr) (id : EntityId) (w : ptr)
    (l : list ptr) (a : ActionDriver File) (d : Driver File FS) :
  heap d !! w = Some a ->
  (w ∈ blockedActionPtrs d -> delete id (missingDependencies a) ≠ ∅) ->
  Consistent fin d -> drained id (w :: l) d ->
  let d' := set_heap (insert w (set_missingDependencies (delete id) a)) d in
  Consistent fin d' ∧ drained id l d'.
Proof.
  intros Ha Hstay [Howned Hstart Hactive Hblocked Hnd] Hdr.
  split; [split|unfold drained]; simpl; try done.
  - intros x [<-|Hx]%lookup_insert_is_Some'; apply Howned; eauto.
  - intros x b Hx. destruct (decide (w = x)) as [->|Hne].
    + rewrite lookup_insert_eq. intros [= <-]. simpl. by apply (Hactive x a).
    + rewrite lookup_insert_ne by done. by apply Hactive.
  - intros x b Hx. destruct (decide (w = x)) as [->|Hne].
    + rewrite lookup_insert_eq. intros [= <-]. simpl.
      destruct (Hblocked x a Hx Ha) as (_ & ? & Hedges).
      split; [by apply Hstay|]. split; [done|].
      intros id' [v [_ Hv]%lookup_delete_Some]. apply Hedges. eauto.
    + rewrite lookup_insert_ne by done. by apply Hblocked.
  - intros x b Hx. destruct (decide (w = x)) as [->|Hne].
    + rewrite lookup_insert_eq. intros [= <-]. simpl. rewrite lookup_delete_eq.
      by intros [? ?].
    + rewrite lookup_insert_ne by done. intros Hb Hid.
      by pose proof (Hdr x b Hx Hb Hid) as [->|?]%elem_of_cons.
Qed.

Lemma unblockAction_Consistent (fin : list ptr) (id : EntityId) (w : ptr) (l : list ptr)
    (d d' : Driver File FS) :
  Consistent fin d -> drained id (w :: l) d ->
  unblockAction id w d = Ok tt d' ->
  Consistent fin d' ∧ drained id l d'.
Proof.
  intros HC Hdr Hrun.
  assert (is_Some (heap d !! w)) as [a Ha].
  { unfold unblockAction, record in Hrun. run_inv. simpl in *. eauto. }
  rewrite (unblockAction_Ok _ _ _ _ Ha) in Hrun. injection Hrun as <-.
  unfold unblocked.
  set (dt := set_trace (λ t, t ++ (EvUnblock id <$> [w])) d).
  assert (Consistent fin dt) as HC' by (by unfold dt; con_frame).
  case_decide as Hcase.
  - destruct Hcase as [Hempty Hin].
    destruct (Consistent_unblock_promote fin id w l a dt Ha HC' Hdr) as [HC1 Hdr1].
    split.
    + eapply Consistent_frame; [..|exact HC1]; try done. simpl. set_solver.
    + intros x b Hx. apply Hdr1. simpl in *. set_solver.
  - destruct (Consistent_unblock_stay fin id w l a dt Ha) as [HC1 Hdr1];
      [tauto|done|done|].
    split.
    + eapply Consistent_frame; [..|exact HC1]; try done; simpl;
        [by rewrite app_nil_r|set_solver].
    + intros x b Hx. apply Hdr1. simpl in *. set_solver.
Qed.

Lemma NoDup_erase_range {V} (id : EntityId) (m : list (EntityId * V)) :
  NoDup m -> NoDup (erase_range id m).
Proof. apply NoDup_filter. Qed.

Lemma unblockActions_Consistent (fin : list ptr) (id : EntityId) (d d' : Driver File FS) :
  Consistent fin d -> unblockActions id d = Ok tt d' -> Consistent fin d'.
Proof.
  intros HC Hrun. unfold unblockActions in Hrun. run_inv.
  match goal with Hloop : forEach _ _ _ = Ok _ _ |- _ =>
    apply (forEach_Ok_ind (λ l e, Consistent fin e ∧ drained id l e)) in Hloop
      as [[Howned Hstart Hactive Hblocked Hnd] Hdr] end.
  - split; simpl; try done.
    + intros x b Hx Hb. destruct (Hblocked x b Hx Hb) as (? & ? & Hedges).
      repeat split; try done. intros id' Hid'. apply list_elem_of_filter.
      split; [|by apply Hedges]. simpl. intros ->.
      by pose proof (Hdr x b Hx Hb Hid') as ?%elem_of_nil.
    + by apply NoDup_erase_range.
  - intros w l e e' [He Hdr]. by apply unblockAction_Consistent.
  - split; [done|]. intros x b Hx Hb Hid.
    destruct (con_blocked _ _ HC x b Hx Hb) as (_ & _ & Hedges).
    unfold equal_range. apply list_elem_of_fmap. exists (id, x). split; [done|].
    apply list_elem_of_filter. split; [done|]. by apply Hedges.
Qed.

(** Strips an assignment to a member that [Inv] does not mention. *)
Ltac inv_strip :=
  repeat match goal with
  | |- Inv ?c ?L ?dr (_ _ ?d0) =>
      apply (Inv_frame c L dr d0);
        [done|done|done|done|done|done|done
        |solve [done
               |simpl; rewrite ?doneCallbacks_app, ?doneCallbacks_cancelAll;
                simpl; rewrite ?app_nil_r; done]
        |]
  end.

Lemma enqueued_sound (cap : Z) (L : list ptr) (dr : option EntityId) (fin : list ptr)
    (act : Action) (f t : File) (d : Driver File FS) :
  Inv cap L dr d ∧ Consistent fin d ->
  Inv cap L dr (enqueued act f t d) ∧ Consistent fin (enqueued act f t d).
Proof.
  intros [HI HC]. split.
  - by apply Inv_queueNewAction.
  - by eapply Consistent_enqueued.
Qed.

Lemma fireTriggers_sound (cap : Z) (L : list ptr) (dr : option EntityId) (fin : list ptr)
    (id : EntityId) (f : File) (d d' : Driver File FS) :
  Inv cap L dr d ∧ Consistent fin d ->
  fireTriggers id f d = Ok tt d' ->
  Inv cap L dr d' ∧ Consistent fin d'.
Proof.
  intros Hd Hrun. unfold fireTriggers in Hrun. run_inv.
  eapply (forEach_Ok_inv (λ e, Inv cap L dr e ∧ Consistent fin e)); [|exact Hd|exact Hrun].
  intros factory e e' _ [HI HC] Hfire. unfold fireTrigger, record in Hfire. run_cases.
  - apply (enqueued_sound cap L dr fin _ f f (set_trace _ e)).
    split; [by inv_strip|by con_frame].
  - split; [by inv_strip|by con_frame].
Qed.

Lemma registerProvider_sound (cap : Z) (L : list ptr) (fin : list ptr)
    (p : Provision File) (d d' : Driver File FS) :
  Inv cap L None d ∧ Consistent fin d ->
  registerProvider p d = Ok tt d' ->
  Inv cap L None d' ∧ Consistent fin d'.
Proof.
  intros [HI HC] Hrun. unfold registerProvider in Hrun. run_inv.
  eapply (forEach_Ok_inv (λ e, Inv cap L None e ∧ Consistent fin e)); [| |exact Hrun].
  - intros id e e' _ [He1 He2] Hreg. unfold registerEntity in Hreg. run_inv.
    eapply fireTriggers_sound; [|done]. split.
    + eapply unblockActions_Inv; [|done]. by inv_strip.
    + eapply unblockActions_Consistent; [|done]. by con_frame.
  - split; [by inv_strip|by con_frame].
Qed.

Lemma scanForActions_loop_sound (cap : Z) (L : list ptr) (dr : option EntityId)
    (fin : list ptr) (fuel : nat) (fileQueue : list (File * File))
    (d d' : Driver File FS) :
  Inv cap L dr d ∧ Consistent fin d ->
  scanForActions_loop fuel fileQueue d = Ok tt d' ->
  Inv cap L dr d' ∧ Consistent fin d'.
Proof.
  revert fileQueue d. induction fuel as [|fuel IH]; intros fileQueue d Hd; simpl.
  - destruct (releaseBack fileQueue) as [[rest [srcFile tmpLocation]]|]; [done|].
    by intros [_ ->]%ret_Ok.
  - destruct (releaseBack fileQueue) as [[rest [srcFile tmpLocation]]|];
      [|by intros [_ ->]%ret_Ok].
    intros Hrun. run_inv. destruct Hd as [HI HC].
    destruct (File_isDirectory srcFile (fileSystem d)).
    + run_cases; (eapply IH; [|done]); [done|].
      split; [by inv_strip|by con_frame].
    + run_inv. eapply IH; [|done].
      match goal with Hloop : forEach _ _ _ = Ok _ _ |- _ =>
        eapply (forEach_Ok_inv (λ e, Inv cap L dr e ∧ Consistent fin e));
          [|by split|exact Hloop] end.
      intros factory e e' _ He Hoffer. unfold offerFile in Hoffer. run_cases; [|done].
      by apply (enqueued_sound cap L dr fin _ srcFile tmpLocation e).
Qed.

Lemma scanForActions_sound (cap : Z) (L : list ptr) (dr : option EntityId)
    (fin : list ptr) (fuel : nat) (s t : File) (d d' : Driver File FS) :
  Inv cap L dr d ∧ Consistent fin d ->
  scanForActions fuel s t d = Ok tt d' ->
  Inv cap L dr d' ∧ Consistent fin d'.
Proof.
  intros [HI HC] Hrun. unfold scanForActions, record in Hrun. run_inv.
  eapply scanForActions_loop_sound; [|done]. split; [by inv_strip|by con_frame].
Qed.

Lemma returned_Consistent (cap : Z) (fuel : nat) (this : ptr) (d d' : Driver File FS) :
  Inv cap [] None d -> Consistent [this] d ->
  this ∈ activeActions d ->
  this ∉ doneCallbacks (eventManager d) ->
  returned fuel this d = Ok tt d' ->
  Consistent [] d'.
Proof.
  intros HI HC Hin Hnd Hrun.
  destruct (inv_active _ _ _ _ HI _ Hin) as [_ [a Ha]].
  destruct (decide (missingDependencies a ≠ ∅)) as [Hmissing|Hmissing].
  { rewrite (returned_rollback_Ok _ _ _ _ Ha Hmissing Hin) in Hrun.
    injection Hrun as <-. by eapply Consistent_rollback. }
  unfold returned in Hrun.
  apply bind_Ok in Hrun as (a0 & d0 & [Ha0 ->]%deref_Ok & Hrun).
  rewrite Ha in Ha0. injection Ha0 as <-.
  apply bind_Ok in Hrun as (active & d0 & [-> ->]%gets_Ok & Hrun).
  pose proof (Inv_release cap None this d Hnd HI) as HI0.
  pose proof (Consistent_release this d HC) as HC0.
  pose proof (releaseAndShift_NoDup this _ (inv_active_NoDup _ _ _ _ HI)) as [Hthis _].
  destruct (Inv_active_free _ _ _ _ _ HI Hin) as [_ Hnb].
  rewrite (releaseAndShift_elem_of _ _ Hin) in HI0.
  pose proof (releaseAndShift_elem_of _ _ Hin) as Hself.
  destruct (releaseAndShift this (activeActions d)) as [self rest]. simpl in *.
  subst self.
  apply bind_Ok in Hrun as ([] & d0 & ->%modify_Ok & Hrun).
  rewrite decide_False in Hrun by done.
  apply bind_Ok in Hrun as ([] & d1 & Hbody & Hrun).
  unfold ActionDriver_delete in Hrun. run_inv.
  apply (Consistent_delete cap None).
  - destruct (decide (state a = SUCCEEDED ∨ state a = PASSED)).
    + run_inv. simpl in *. simplify_eq.
      match goal with Hscan : forEach (outputs _) _ _ = Ok _ _ |- _ =>
        eapply (forEach_Ok_inv (λ e, Inv cap [this] None e ∧ Consistent [this] e))
          in Hscan as [? _]; [done| |] end.
      { intros out e1 e2 _. apply scanForActions_sound. }
      match goal with Hprov : forEach (provisions _) _ _ = Ok _ _ |- _ =>
        eapply (forEach_Ok_inv (λ e, Inv cap [this] None e ∧ Consistent [this] e));
          [| |exact Hprov] end.
      { intros prov e1 e2 _. apply registerProvider_sound. }
      split; [by eapply Inv_update_same|].
      apply Consistent_update_free; [by eexists|done..].
    + run_inv. simpl in *. simplify_eq. by eapply Inv_update_same.
  - destruct (decide (state a = SUCCEEDED ∨ state a = PASSED)).
    + run_inv. simpl in *. simplify_eq.
      match goal with Hscan : forEach (outputs _) _ _ = Ok _ _ |- _ =>
        eapply (forEach_Ok_inv (λ e, Inv cap [this] None e ∧ Consistent [this] e))
          in Hscan as [_ ?]; [done| |] end.
      { intros out e1 e2 _. apply scanForActions_sound. }
      match goal with Hprov : forEach (provisions _) _ _ = Ok _ _ |- _ =>
        eapply (forEach_Ok_inv (λ e, Inv cap [this] None e ∧ Consistent [this] e));
          [| |exact Hprov] end.
      { intros prov e1 e2 _. apply registerProvider_sound. }
      split; [by eapply Inv_update_same|].
      apply Consistent_update_free; [by eexists|done..].
    + run_inv. simpl in *. simplify_eq. apply Consistent_update_free; [by eexists|done..].
Qed.

Lemma startSomeActions_loop_Consistent (cap : Z) (n : nat) (d d' : Driver File FS) :
  Inv cap [] None d -> Consistent [] d ->
  startSomeActions_loop n d = Ok tt d' -> Consistent [] d'.
Proof.
  revert d. induction n as [|n IH]; intros d HI HC; simpl.
  - case_bool_decide; [case_bool_decide|]; simpl; try done; by intros [= <-].
  - case_bool_decide as Hslot; [case_bool_decide|]; simpl; try (by intros [= <-]).
    destruct (releaseBack (pendingActions d)) as [[rest p]|] eqn:Hback; [|done].
    apply releaseBack_Some in Hback. intros Hrun. run_inv.
    destruct (inv_pending _ _ _ _ HI p) as (_ & _ & _ & a & Ha & _);
      [rewrite Hback; set_solver|].
    match goal with Hstart : try_catch _ _ _ = Ok _ _ |- _ =>
      apply try_catch_Ok in Hstart as [Hs|(? & ? & Hs & _)] end;
      [|by apply ActionDriver_start_Throw in Hs].
    eapply IH; [| |done].
    + eapply ActionDriver_start_Inv; [| |by apply Inv_adopt|done]; simpl.
      * set_solver.
      * eapply Inv_pending_free; [done|]. rewrite Hback. set_solver.
    + rewrite (ActionDriver_start_Ok p _ a) in Hs by done. injection Hs as <-.
      by eapply Consistent_start.
Qed.

Lemma startSomeActions_Consistent (cap : Z) (d d' : Driver File FS) :
  Inv cap [] None d -> Consistent [] d ->
  startSomeActions d = Ok tt d' -> Consistent [] d'.
Proof. apply startSomeActions_loop_Consistent. Qed.

Lemma call_Consistent (cap : Z) (this : ptr) (c : Call) (d d' : Driver File FS) :
  Inv cap [] None d -> Consistent [] d ->
  call this c d = Ok tt d' -> Consistent [] d'.
Proof.
  intros HI HC (a & Ha & Hs & -> & _)%call_Ok_inv.
  destruct (Inv_running_free _ _ _ _ _ HI Ha Hs) as (Hin & _ & Hnb & _).
  destruct (reports c) eqn:Hc.
  - apply (Consistent_report [] this a); try done; by destruct c.
  - apply (Consistent_frame [] (set_heap (insert this (staged (entityMap d) c a)) d));
      [done|done|done|done|done|simpl; apply app_nil_r|].
    apply (Consistent_update [] this a); try done.
    + destruct c; try done. simpl. by destruct (entityMap d !! id).
    + destruct c; try done. simpl. by destruct (entityMap d !! id).
Qed.

Lemma threwException_Consistent (cap : Z) (this : ptr) (what : string)
    (d d' : Driver File FS) :
  Inv cap [] None d -> Consistent [] d ->
  threwException this what d = Ok tt d' -> Consistent [] d'.
Proof.
  intros HI HC (a & Ha & ->)%threwException_Ok_inv. simpl.
  destruct (decide (state a = RUNNING)) as [Hs|Hs].
  - destruct (Inv_running_free _ _ _ _ _ HI Ha Hs) as (Hin & _ & Hnb & _).
    by apply (Consistent_report [] this a).
  - by apply (Consistent_update [] this a).
Qed.

Lemma threwUnknownException_Consistent (cap : Z) (this : ptr) (d d' : Driver File FS) :
  Inv cap [] None d -> Consistent [] d ->
  threwUnknownException this d = Ok tt d' -> Consistent [] d'.
Proof.
  intros HI HC (a & Ha & ->)%threwUnknownException_Ok_inv. simpl.
  destruct (decide (state a = RUNNING)) as [Hs|Hs].
  - destruct (Inv_running_free _ _ _ _ _ HI Ha Hs) as (Hin & _ & Hnb & _).
    by apply (Consistent_report [] this a).
  - by apply (Consistent_update [] this a).
Qed.

Lemma step_Consistent (cap : Z) (d d' : Driver File FS) :
  step d d' -> Inv cap [] None d -> Consistent [] d -> Consistent [] d'.
Proof.
  destruct 1 as [name factory d d' Hrun|fuel d d' Hrun|q1 q2 p d d' Hq Hrun
    |fuel q1 q2 p d d' Hq Hrun|this c d d' Hrun|this c what d d' Hrun
    |this what d d' Hrun|this d d' Hrun]; intros HI HC.
  - rewrite addActionFactory_Ok in Hrun. injection Hrun as <-. by con_frame.
  - unfold Driver_start in Hrun. run_inv.
    match goal with Hscan : scanForActions _ _ _ _ = Ok _ _ |- _ =>
      apply (scanForActions_sound cap [] None []) in Hscan as [? ?]; [|done] end.
    eapply startSomeActions_Consistent; [| |exact Hrun]; done.
  - apply ret_Ok in Hrun as [_ ->]. by eapply Consistent_pop_start.
  - unfold DoneCallback_run in Hrun. run_inv.
    destruct (Inv_pop cap _ _ _ _ Hq HI) as [HI1 Hnd].
    pose proof (Consistent_pop_done _ _ _ _ Hq HC) as HC1.
    assert (p ∈ activeActions d) as Hin.
    { apply (inv_done _ _ _ _ HI). rewrite Hq, doneCallbacks_app. set_solver. }
    match goal with Hret : returned _ _ ?e = Ok _ ?e' |- _ =>
      pose proof (returned_Inv cap fuel p e e' (Hnd p eq_refl) HI1 Hret);
      pose proof (returned_Consistent cap fuel p e e' HI1 HC1 Hin (Hnd p eq_refl) Hret) end.
    eapply startSomeActions_Consistent; [| |exact Hrun]; done.
  - by eapply call_Consistent.
  - by apply call_Throw in Hrun as ->.
  - by eapply threwException_Consistent.
  - by eapply threwUnknownException_Consistent.
Qed.

Lemma reachable_sound (d : Driver File FS) :
  reachable d -> ∃ cap, Inv cap [] None d ∧ Consistent [] d.
Proof.
  intros (fs & s & t & m & Hsteps). exists m.
  eapply (rtc_ind_r (λ e, Inv m [] None e ∧ Consistent [] e) (Driver_new fs s t m));
    [| |exact Hsteps].
  - split; [apply Inv_new|apply Consistent_new].
  - intros d1 d2 _ Hstep [HI HC]. split; [by eapply step_Inv|by eapply step_Consistent].
Qed.

Lemma elem_of_doneCallbacks (p : ptr) (q : list Callback) :
  p ∈ doneCallbacks q ↔ DoneCallback p ∈ q.
Proof.
  unfold doneCallbacks. rewrite list_elem_of_omap. split.
  - intros ([x|x] & Hx & [= ->]). done.
  - intros Hp. by exists (DoneCallback p).
Qed.

(** X19.  With a [maxConcurrentActions] that is not positive the driver never
    starts anything: whatever is queued stays pending, no driver leaves
    state PENDING, and the queue of the EventManager stays empty. *)
Theorem nothing_starts_without_slots (fs : FS) (s t : File) (m : Z) (d : Driver File FS) :
  (m ≤ 0)%Z ->
  rtc step (Driver_new fs s t m) d ->
  activeActions d = [] ∧
  eventManager d = [] ∧
  ∀ p a, heap d !! p = Some a -> state a = PENDING.
Proof.
  intros Hm Hsteps.
  assert (reachable d) as Hr by (by exists fs, s, t, m).
  destruct (reachable_sound d Hr) as (cap & _ & HC).
  apply rtc_step_Inv in Hsteps.
  assert (activeActions d = []) as Hactive.
  { pose proof (inv_cap _ _ _ _ Hsteps). destruct (activeActions d); [done|].
    simpl in *. lia. }
  split; [done|]. split.
  - destruct (eventManager d) as [|c q] eqn:Hq; [done|]. exfalso.
    destruct c as [p|p].
    + destruct (con_start _ _ HC p) as [Hin|Hin%elem_of_nil]; [rewrite Hq; by left| |done].
      rewrite Hactive in Hin. by apply elem_of_nil in Hin.
    + destruct (inv_done _ _ _ _ Hsteps p) as [Hin _].
      { apply elem_of_doneCallbacks. rewrite Hq. by left. }
      rewrite Hactive in Hin. by apply elem_of_nil in Hin.
  - intros p a Ha. destruct (decide (state a = PENDING)) as [|Hs]; [done|].
    destruct (inv_running _ _ _ _ Hsteps p a Ha Hs) as [Hin|Hin%elem_of_nil]; [|done].
    rewrite Hactive in Hin. by apply elem_of_nil in Hin.
Qed.

(** X20.  Between any two turns of the event loop every [ActionDriver] object is
    owned by exactly one of [pendingActions], [activeActions] and
    [blockedActionPtrs], which between them own nothing else and nothing
    twice: no driver is leaked, shared or left dangling. *)
Theorem every_driver_has_one_owner (d : Driver File FS) :
  reachable d ->
  NoDup (pendingActions d) ∧ NoDup (activeActions d) ∧
  ∀ p : ptr,
    (is_Some (heap d !! p) ↔
       p ∈ pendingActions d ∨ p ∈ activeActions d ∨ p ∈ blockedActionPtrs d) ∧
    ¬ (p ∈ pendingActions d ∧ p ∈ activeActions d) ∧
    ¬ (p ∈ pendingActions d ∧ p ∈ blockedActionPtrs d) ∧
    ¬ (p ∈ activeActions d ∧ p ∈ blockedActionPtrs d).
Proof.
  intros (cap & HI & HC)%reachable_sound.
  split; [apply HI|]. split; [apply HI|]. intros p. split; [split|].
  - intros Hp. destruct (con_owned _ _ HC p Hp) as [?|[?|[?|[]%elem_of_nil]]]; auto.
  - intros [Hp|[Hp|Hp]].
    + destruct (inv_pending _ _ _ _ HI p Hp) as (_ & _ & _ & a & -> & _). eauto.
    + by apply (inv_active _ _ _ _ HI).
    + destruct (inv_blocked _ _ _ _ HI p Hp) as (_ & _ & a & -> & _). eauto.
  - split; [|split].
    + intros [Hp Ha]. by destruct (inv_pending _ _ _ _ HI p Hp) as (? & _).
    + intros [Hp Hb]. by destruct (inv_pending _ _ _ _ HI p Hp) as (_ & ? & _).
    + intros [Ha Hb]. by destruct (inv_blocked _ _ _ _ HI p Hb) as (? & _).
Qed.

(** X21.  Between any two turns of the event loop every callback in the queue
    points to a live driver that is active and has been started; a
    [DoneCallback] points to one that has reported, and no driver has two:
    the event loop never runs a callback on a freed driver and never
    finalizes a driver twice. *)
Theorem queued_callbacks_have_live_drivers (d : Driver File FS) :
  reachable d ->
  NoDup (doneCallbacks (eventManager d)) ∧
  ∀ c, c ∈ eventManager d ->
    match c with
    | StartCallback p =>
        p ∈ activeActions d ∧ ∃ a, heap d !! p = Some a ∧ state a ≠ PENDING
    | DoneCallback p =>
        p ∈ activeActions d ∧
        ∃ a, heap d !! p = Some a ∧ state a ≠ PENDING ∧ state a ≠ RUNNING
    end.
Proof.
  intros (cap & HI & HC)%reachable_sound. split; [apply HI|].
  intros [p|p] Hc.
  - destruct (con_start _ _ HC p Hc) as [Hin|[]%elem_of_nil]. split; [done|].
    destruct (inv_active _ _ _ _ HI p Hin) as [_ [a Ha]]. exists a. split; [done|].
    by destruct (con_active _ _ HC p a Hin Ha) as [? _].
  - apply (inv_done _ _ _ _ HI). by apply elem_of_doneCallbacks.
Qed.

(** X22.  Between any two turns of the event loop [blockedActions] is exactly the
    index of what the blocked drivers miss: it has an edge from an entity to
    a driver if and only if the driver is blocked and has the entity among
    its missing dependencies, it has no edge twice, and every blocked driver
    misses something. *)
Theorem blocked_index_is_exact (d : Driver File FS) :
  reachable d ->
  NoDup (blockedActions d) ∧
  (∀ id (p : ptr), (id, p) ∈ blockedActions d ↔
     p ∈ blockedActionPtrs d ∧ is_Some (missingOf d p !! id)) ∧
  (∀ p : ptr, p ∈ blockedActionPtrs d -> missingOf d p ≠ ∅).
Proof.
  intros (cap & HI & HC)%reachable_sound.
  split; [apply HC|]. split.
  - intros id p. split.
    + intros Hedge. by destruct (inv_edges _ _ _ _ HI id p Hedge) as [?|?].
    + intros [Hp Hid]. destruct (inv_blocked _ _ _ _ HI p Hp) as (_ & _ & a & Ha & _).
      unfold missingOf in Hid. rewrite Ha in Hid.
      by apply (con_blocked _ _ HC p a Hp Ha).
  - intros p Hp. destruct (inv_blocked _ _ _ _ HI p Hp) as (_ & _ & a & Ha & _).
    unfold missingOf. rewrite Ha. simpl. by apply (con_blocked _ _ HC p a Hp Ha).
Qed.

(** X23.  Between any two turns of the event loop the state of a driver tells
    where it is: it is PENDING exactly when the driver is pending or
    blocked, anything else exactly when it is active, and SUCCEEDED, PASSED
    or FAILED exactly when its completion callback waits in the queue.  An
    active driver shows RUNNING on the dashboard, a blocked one BLOCKED. *)
Theorem state_tells_the_collection (d : Driver File FS) (p : ptr) (a : ActionDriver File) :
  reachable d ->
  heap d !! p = Some a ->
  (state a = PENDING ↔ p ∈ pendingActions d ∨ p ∈ blockedActionPtrs d) ∧
  (state a ≠ PENDING ↔ p ∈ activeActions d) ∧
  (state a ≠ PENDING ∧ state a ≠ RUNNING ↔ p ∈ doneCallbacks (eventManager d)) ∧
  (p ∈ activeActions d -> Dashboard.state (dashboardTask a) = Dashboard.RUNNING) ∧
  (p ∈ blockedActionPtrs d -> Dashboard.state (dashboardTask a) = Dashboard.BLOCKED).
Proof.
  intros (cap & HI & HC)%reachable_sound Ha.
  assert (p ∈ activeActions d -> state a ≠ PENDING) as Hactive.
  { intros Hin. by destruct (con_active _ _ HC p a Hin Ha) as [? _]. }
  assert (p ∈ pendingActions d ∨ p ∈ blockedActionPtrs d -> state a = PENDING) as Hidle.
  { intros [Hp|Hp].
    - destruct (inv_pending _ _ _ _ HI p Hp) as (_ & _ & _ & b & Hb & Hs & _). congruence.
    - destruct (inv_blocked _ _ _ _ HI p Hp) as (_ & _ & b & Hb & Hs & _). congruence. }
  assert (state a ≠ PENDING -> p ∈ activeActions d) as Hstarted.
  { intros Hs. by destruct (inv_running _ _ _ _ HI p a Ha Hs) as [?|[]%elem_of_nil]. }
  split; [|split; [|split; [|split]]].
  - split; [|done]. intros Hs.
    destruct (con_owned _ _ HC p) as [?|[Hin|[?|[]%elem_of_nil]]]; eauto.
    by destruct (Hactive Hin).
  - by split.
  - split.
    + intros [Hs1 Hs2].
      by destruct (con_active _ _ HC p a (Hstarted Hs1) Ha)
        as (_ & _ & [?|[?|[]%elem_of_nil]]).
    + intros (_ & b & Hb & ? & ?)%(inv_done _ _ _ _ HI). by simplify_eq.
  - intros Hin. by destruct (con_active _ _ HC p a Hin Ha) as (_ & ? & _).
  - intros Hin. by destruct (con_blocked _ _ HC p a Hin Ha) as (_ & ? & _).
Qed.

(** ** Turns that do not go wrong *)

Lemma finishes_bind {A B} (R : Prop) (J : A -> Driver File FS -> Prop)
    (I : B -> Driver File FS -> Prop) (m : M File FS A) (k : A -> M File FS B)
    (d : Driver File FS) :
  finishes R J (m d) ->
  (∀ a d1, J a d1 -> finishes R I (k a d1)) ->
  finishes R I ((m ≫= k) d).
Proof.
  unfold mbind, M_bind, bind. destruct (m d) as [a d1| | |]; simpl; [|done..].
  intros HJ Hk. by apply Hk.
Qed.

Lemma finishes_mono {A} (R R' : Prop) (J I : A -> Driver File FS -> Prop)
    (r : Outcome File FS A) :
  finishes R J r -> (R -> R') -> (∀ a d, J a d -> I a d) -> finishes R' I r.
Proof. destruct r; simpl; auto. Qed.

Lemma finishes_post {A} (R : Prop) (J I : A -> Driver File FS -> Prop)
    (r : Outcome File FS A) :
  finishes R J r -> (∀ a d, r = Ok a d -> I a d) -> finishes R I r.
Proof. destruct r; simpl; auto. Qed.

Lemma finishes_forEach {A} (R : Prop) (I : Driver File FS -> Prop) (l : list A)
    (body : A -> M File FS unit) (d : Driver File FS) :
  (∀ x e, x ∈ l -> I e -> finishes R (λ _, I) (body x e)) ->
  I d -> finishes R (λ _, I) (forEach l body d).
Proof.
  revert d. induction l as [|x l IH]; intros d Hbody HI; simpl; [done|].
  eapply finishes_bind; [apply Hbody; [by left|done]|].
  intros ? d1 H1. apply IH; [|done]. intros y e Hy. apply Hbody. by right.
Qed.

Lemma unblockActions_finishes (cap : Z) (L : list ptr) (id : EntityId)
    (d : Driver File FS) :
  Inv cap L None d ->
  finishes False (λ _, Inv cap L None) (unblockActions id d).
Proof.
  intros HI.
  destruct (unblock_loop id (equal_range id (blockedActions d)) d)
    as (h' & promoted & Hrun & _).
  { intros w Hw. by destruct (Inv_bucket_blocked cap L id d w HI Hw). }
  destruct (unblockActions id d) as [[] d'| | |] eqn:Hall.
  - simpl. by eapply unblockActions_Inv.
  - unfold unblockActions in Hall. run_unfold. unfold mbind, M_bind, bind in Hall.
    simpl in Hall. by rewrite Hrun in Hall.
  - unfold unblockActions in Hall. run_unfold. unfold mbind, M_bind, bind in Hall.
    simpl in Hall. by rewrite Hrun in Hall.
  - unfold unblockActions in Hall. run_unfold. unfold mbind, M_bind, bind in Hall.
    simpl in Hall. by rewrite Hrun in Hall.
Qed.

Lemma fireTriggers_finishes (cap : Z) (L : list ptr) (dr : option EntityId)
    (id : EntityId) (f : File) (d : Driver File FS) :
  Inv cap L dr d ->
  finishes False (λ _, Inv cap L dr) (fireTriggers id f d).
Proof.
  intros HI. pose proof (fireTriggers_Ok id f d) as Hrun.
  rewrite Hrun. simpl. by eapply fireTriggers_Inv.
Qed.

Lemma registerProvider_finishes (cap : Z) (L : list ptr) (p : Provision File)
    (d : Driver File FS) :
  Inv cap L None d ->
  finishes False (λ _, Inv cap L None) (registerProvider p d).
Proof.
  intros HI. unfold registerProvider.
  eapply (finishes_bind _ (λ _, Inv cap L None)); [simpl; by inv_strip|].
  intros ? d1 H1. apply finishes_forEach; [|done].
  intros id e _ He. unfold registerEntity.
  eapply (finishes_bind _ (λ _, Inv cap L None)); [simpl; by inv_strip|].
  intros ? e1 He1.
  eapply (finishes_bind _ (λ _, Inv cap L None)); [by apply unblockActions_finishes|].
  intros ? e2 He2. by apply fireTriggers_finishes.
Qed.

Lemma scanForActions_loop_finishes (cap : Z) (L : list ptr) (dr : option EntityId)
    (fuel : nat) (fileQueue : list (File * File)) (d : Driver File FS) :
  Inv cap L dr d ->
  finishes True (λ _, Inv cap L dr) (scanForActions_loop fuel fileQueue d).
Proof.
  intros HI.
  destruct (scanForActions_loop fuel fileQueue d) as [[] d'| | |] eqn:Hrun; simpl;
    [by eapply scanForActions_loop_Inv|..|done]; exfalso.
  - revert fileQueue d HI Hrun. induction fuel as [|fuel IH]; intros fileQueue d HI; simpl.
    + by destruct (releaseBack fileQueue) as [[rest [srcFile tmpLocation]]|].
    + destruct (releaseBack fileQueue) as [[rest [srcFile tmpLocation]]|]; [|done].
      run_unfold. destruct (File_isDirectory srcFile (fileSystem d)).
      * destruct (File_isDirectory tmpLocation (fileSystem d)); simpl; apply IH;
          by inv_strip.
      * rewrite offerFiles_Ok. apply IH.
        eapply (forEach_Ok_inv (Inv cap L dr)); [|exact HI|apply offerFiles_Ok].
        intros factory e e' _ He Hoffer. unfold offerFile in Hoffer. run_cases; [|done].
        by apply Inv_queueNewAction.
  - revert fileQueue d HI Hrun. induction fuel as [|fuel IH]; intros fileQueue d HI; simpl.
    + by destruct (releaseBack fileQueue) as [[rest [srcFile tmpLocation]]|].
    + destruct (releaseBack fileQueue) as [[rest [srcFile tmpLocation]]|]; [|done].
      run_unfold. destruct (File_isDirectory srcFile (fileSystem d)).
      * destruct (File_isDirectory tmpLocation (fileSystem d)); simpl; apply IH;
          by inv_strip.
      * rewrite offerFiles_Ok. apply IH.
        eapply (forEach_Ok_inv (Inv cap L dr)); [|exact HI|apply offerFiles_Ok].
        intros factory e e' _ He Hoffer. unfold offerFile in Hoffer. run_cases; [|done].
        by apply Inv_queueNewAction.
Qed.

Lemma scanForActions_finishes (cap : Z) (L : list ptr) (dr : option EntityId)
    (fuel : nat) (s t : File) (d : Driver File FS) :
  Inv cap L dr d ->
  finishes True (λ _, Inv cap L dr) (scanForActions fuel s t d).
Proof.
  intros HI. unfold scanForActions, record.
  eapply (finishes_bind _ (λ _, Inv cap L dr)); [simpl; by inv_strip|].
  intros ? d1 H1. by apply scanForActions_loop_finishes.
Qed.

Lemma startSomeActions_finishes (cap : Z) (d : Driver File FS) :
  Inv cap [] None d ->
  finishes False (λ _, Inv cap [] None) (startSomeActions d).
Proof.
  intros HI.
  destruct (startSomeActions_loop_count (length (pendingActions d)) d)
    as (d' & Hrun & _); [done| |].
  { intros p Hp. destruct (inv_pending _ _ _ _ HI p Hp) as (_ & _ & _ & a & -> & _). eauto. }
  unfold startSomeActions. rewrite Hrun. simpl. by eapply startSomeActions_Inv.
Qed.

(** The commit, written as the sequence of its three stages. *)
Lemma returned_commit_eq (fuel : nat) (this : ptr) (d : Driver File FS)
    (a : ActionDriver File) :
  heap d !! this = Some a ->
  missingDependencies a = ∅ ->
  state a = SUCCEEDED ∨ state a = PASSED ->
  this ∈ activeActions d ->
  returned fuel this d =
    (forEach (provisions a) registerProvider;;
     forEach (outputs a) (λ o, scanForActions fuel o o);;
     ActionDriver_delete this)
      (set_heap (insert this
          (set_dashboardTask (Dashboard.setState
             (if decide (state a = PASSED) then Dashboard.PASSED else Dashboard.SUCCESS)) a))
        (set_activeActions (λ _, (releaseAndShift this (activeActions d)).2) d)).
Proof.
  intros Hheap Hmissing Hstate Hactive.
  unfold returned. unfold mbind, M_bind, bind, deref, gets, modify, update. simpl.
  rewrite Hheap.
  pose proof (releaseAndShift_elem_of _ _ Hactive) as Hself.
  destruct (releaseAndShift this (activeActions d)) as [self rest]. simpl in Hself.
  subst self. rewrite decide_False by (by intros []). rewrite decide_True by done.
  simpl. rewrite Hheap.
  match goal with |- context [forEach (provisions a) registerProvider ?e] =>
    destruct (forEach (provisions a) registerProvider e) as [[] e1| | |]; [|done..] end.
  by destruct (forEach (outputs a) (λ o, scanForActions fuel o o) e1) as [[] e2| | |].
Qed.

Lemma returned_finishes (cap : Z) (fuel : nat) (this : ptr) (d : Driver File FS)
    (a : ActionDriver File) :
  Inv cap [] None d ->
  heap d !! this = Some a ->
  this ∈ activeActions d ->
  this ∉ doneCallbacks (eventManager d) ->
  finishes (missingDependencies a = ∅ ∧ (state a = SUCCEEDED ∨ state a = PASSED) ∧
            outputs a ≠ [])
    (λ _, Inv cap [] None) (returned fuel this d).
Proof.
  intros HI Ha Hin Hnd.
  apply (finishes_post _ (λ _ _, True)); [|intros [] d'; by apply returned_Inv].
  destruct (decide (missingDependencies a ≠ ∅)) as [Hmissing|Hmissing].
  { by rewrite (returned_rollback_Ok _ _ _ _ Ha Hmissing Hin). }
  assert (missingDependencies a = ∅) as Hempty
    by (by destruct (decide (missingDependencies a = ∅))).
  destruct (decide (state a = SUCCEEDED ∨ state a = PASSED)) as [Hstate|Hstate].
  - rewrite (returned_commit_eq _ _ _ _ Ha Hempty Hstate Hin).
    pose proof (Inv_release cap None this d Hnd HI) as HI0.
    rewrite (releaseAndShift_elem_of _ _ Hin) in HI0.
    match goal with |- finishes _ _ (_ ?e) =>
      assert (Inv cap [this] None e) as HI1 end.
    { apply Inv_update_limbo; [by left|done]. }
    eapply (finishes_bind _ (λ _, Inv cap [this] None)).
    { eapply (finishes_mono False _ (λ _, Inv cap [this] None));
        [apply finishes_forEach; [|exact HI1]|done|done].
      intros p e _ He. by apply registerProvider_finishes. }
    intros ? d1 H1. eapply (finishes_bind _ (λ _, Inv cap [this] None)).
    { apply finishes_forEach; [|done]. intros out e Hout He.
      eapply finishes_mono; [by apply scanForActions_finishes| |done].
      intros _. repeat split; try done. intros Hnil. rewrite Hnil in Hout.
      by apply elem_of_nil in Hout. }
    intros ? d2 H2. done.
  - rewrite (returned_failure_Ok _ _ _ _ Ha Hempty) by tauto. done.
Qed.

(** X24.  A turn of the event loop does not go wrong.  [Driver::start], in any
    state the driver can be in between two turns, returns or is still
    scanning when the turns of its loop have run out.  A [DoneCallback]
    taken off the queue finalizes a driver that is alive, and returns;
    only when it commits a driver that has written outputs can it be still
    scanning them instead.  Neither throws, and neither touches a driver
    that has been freed. *)
Theorem turns_do_not_go_wrong (d : Driver File FS) :
  reachable d ->
  (∀ fuel, finishes True (λ _ d', step d d') (Driver_start fuel d)) ∧
  (∀ fuel q1 q2 p, eventManager d = q1 ++ DoneCallback p :: q2 ->
     ∃ a, heap d !! p = Some a ∧
       finishes (missingDependencies a = ∅ ∧
                 (state a = SUCCEEDED ∨ state a = PASSED) ∧ outputs a ≠ [])
         (λ _ d', step d d')
         (DoneCallback_run fuel p (set_eventManager (λ _, q1 ++ q2) d))).
Proof.
  intros [cap HI]%reachable_Inv. split.
  - intros fuel. apply (finishes_post _ (λ _ _, True)).
    + unfold Driver_start.
      eapply (finishes_bind _ (λ _ e, e = d)); [done|]. intros s ? ->.
      eapply (finishes_bind _ (λ _ e, e = d)); [done|]. intros t ? ->.
      eapply (finishes_bind _ (λ _, Inv cap [] None));
        [by apply scanForActions_finishes|].
      intros ? d1 H1. eapply finishes_mono; [by apply startSomeActions_finishes|done..].
    + intros [] d' Hrun. by eapply step_start.
  - intros fuel q1 q2 p Hq.
    destruct (inv_done _ _ _ _ HI p) as (Hin & a & Ha & _).
    { rewrite Hq, doneCallbacks_app. set_solver. }
    exists a. split; [done|].
    destruct (Inv_pop cap _ _ _ _ Hq HI) as [HI1 Hnd].
    apply (finishes_post _ (λ _ _, True)).
    + unfold DoneCallback_run.
      eapply (finishes_bind _ (λ _, Inv cap [] None)).
      { apply (returned_finishes cap); try done. by apply Hnd. }
      intros ? d1 H1. eapply finishes_mono; [by apply startSomeActions_finishes|done..].
    + intros [] d' Hrun. by eapply step_DoneCallback.
Qed.

(** ** A lookup that failed *)

(** X25.  A lookup that has failed dooms the run.  Whatever [BuildContext]
    calls a running driver makes once it misses a dependency, as long as
    they return it still misses everything it missed, it has reported
    neither [success] nor [passed], and neither would return: the run can
    only end in [failed], an exception, or not at all. *)
Theorem missing_dependency_dooms_the_run (this : ptr) (cs : list Call)
    (d d' : Driver File FS) (a : ActionDriver File) :
  heap d !! this = Some a ->
  state a = RUNNING ->
  missingDependencies a ≠ ∅ ->
  forEach cs (call this) d = Ok tt d' ->
  ∃ a', heap d' !! this = Some a' ∧
    (state a' = RUNNING ∨ state a' = FAILED) ∧
    (∀ id, is_Some (missingDependencies a !! id) ->
       is_Some (missingDependencies a' !! id)) ∧
    (CallSuccess ∉ cs) ∧ (CallPassed ∉ cs) ∧
    (∀ u e, success this d' ≠ Ok u e) ∧ (∀ u e, passed this d' ≠ Ok u e).
Proof.
  intros Ha Hs Hm Hrun.
  assert (∃ a', heap d' !! this = Some a' ∧
            (state a' = RUNNING ∨ state a' = FAILED) ∧
            (∀ id, is_Some (missingDependencies a !! id) ->
               is_Some (missingDependencies a' !! id)) ∧
            (CallSuccess ∉ cs) ∧ (CallPassed ∉ cs)) as (a' & Ha' & Hs' & Hkeys & Hn1 & Hn2).
  { assert (state a = RUNNING ∨ state a = FAILED) as Hstate by (by left). clear Hs.
    revert d a Ha Hstate Hm Hrun. induction cs as [|c cs IH]; intros d a Ha Hs Hm Hrun.
    - apply ret_Ok in Hrun as [_ ->]. exists a. repeat split; try done;
        by intros ?%elem_of_nil.
    - simpl in Hrun. apply bind_Ok in Hrun as ([] & d1 & Hc & Hrun).
      apply call_Ok_inv in Hc as (a0 & Ha0 & Hs0 & -> & Hreport).
      rewrite Ha in Ha0. injection Ha0 as <-.
      assert (c ≠ CallSuccess ∧ c ≠ CallPassed) as [Hc1 Hc2].
      { split; intros ->; apply Hm, Hreport; auto. }
      assert (state (staged (entityMap d) c a) = RUNNING
              ∨ state (staged (entityMap d) c a) = FAILED) as H2.
      { destruct c; simpl; try (by left); try (by right); try done.
        destruct (entityMap d !! id); by left. }
      assert (missingDependencies (staged (entityMap d) c a) ≠ ∅) as H3.
      { destruct c; simpl; try done.
        destruct (entityMap d !! id); simpl; [done|]. apply insert_non_empty. }
      destruct (IH _ (staged (entityMap d) c a) (lookup_insert_eq _ _ _) H2 H3 Hrun)
        as (a' & Ha' & Hs' & Hkeys & Hn1 & Hn2).
      exists a'. split; [done|]. split; [done|]. split; [|split].
      + intros id Hid. apply Hkeys. destruct c; simpl; try done.
        destruct (entityMap d !! id0); simpl; [done|].
        apply lookup_insert_is_Some'. by right.
      + by intros [?|?]%elem_of_cons.
      + by intros [?|?]%elem_of_cons. }
  exists a'. repeat split; try done.
  - intros u e Hok. change (success this d') with (call this CallSuccess d') in Hok.
    destruct u. apply call_Ok_inv in Hok as (b & Hb & _ & _ & Hreport).
    rewrite Ha' in Hb. injection Hb as <-.
    destruct (map_choose _ Hm) as (id & title & Hid).
    destruct (Hkeys id) as [title' Hid']; [by eauto|].
    rewrite Hreport in Hid' by auto. by rewrite lookup_empty in Hid'.
  - intros u e Hok. change (passed this d') with (call this CallPassed d') in Hok.
    destruct u. apply call_Ok_inv in Hok as (b & Hb & _ & _ & Hreport).
    rewrite Ha' in Hb. injection Hb as <-.
    destruct (map_choose _ Hm) as (id & title & Hid).
    destruct (Hkeys id) as [title' Hid']; [by eauto|].
    rewrite Hreport in Hid' by auto. by rewrite lookup_empty in Hid'.
Qed.

End Properties.

(** ** The small build, step by step *)

Lemma blocked_reachable : rtc step Scenario.created Scenario.blocked.
Proof.
  eapply rtc_l.
  { apply (step_addActionFactory "source" Scenario.onSource _ Scenario.withSource).
    vm_compute. reflexivity. }
  eapply rtc_l.
  { apply (step_addActionFactory "header" Scenario.onHeader _ Scenario.withHeader).
    vm_compute. reflexivity. }
  eapply rtc_l.
  { apply (step_addActionFactory "lib" Scenario.onLib _ Scenario.configured).
    vm_compute. reflexivity. }
  eapply rtc_l.
  { apply (step_start 8 _ Scenario.started). vm_compute. reflexivity. }
  eapply rtc_l.
  { apply (step_StartCallback [] [StartCallback 0] 1 _ (Scenario.turn Scenario.started));
      vm_compute; reflexivity. }
  eapply rtc_l.
  { apply (step_StartCallback [] [] 0 _ Scenario.running); vm_compute; reflexivity. }
  eapply rtc_l.
  { apply (step_call_returns 0 (CallFindProvider "HDR" "header of p") _ Scenario.asked).
    vm_compute. reflexivity. }
  eapply rtc_l.
  { apply (step_call_returns 0 CallFailed _ Scenario.gaveUp). vm_compute. reflexivity. }
  eapply rtc_l.
  { apply (step_DoneCallback 8 [] [] 0 _ Scenario.blocked); vm_compute; reflexivity. }
  apply rtc_refl.
Qed.

Lemma provided_reachable : rtc step Scenario.created Scenario.provided.
Proof.
  etrans; [apply blocked_reachable|].
  eapply rtc_l.
  { apply (step_call_returns 1 (CallNewOutput "gen.h") _ Scenario.written).
    vm_compute. reflexivity. }
  eapply rtc_l.
  { apply (step_call_returns 1 (CallProvide ["tmp"; "p.o"] ["LIB"; "HDR"]) _
             Scenario.provided).
    vm_compute. reflexivity. }
  apply rtc_refl.
Qed.

Lemma committed_reachable : rtc step Scenario.created Scenario.committed.
Proof.
  etrans; [apply provided_reachable|].
  eapply rtc_l.
  { apply (step_call_returns 1 CallSuccess _ Scenario.succeeded). vm_compute. reflexivity. }
  eapply rtc_l.
  { apply (step_DoneCallback 8 [] [] 1 _ Scenario.committed); vm_compute; reflexivity. }
  apply rtc_refl.
Qed.

(** C1, as stated, fails on the small build: the commit of [p.c] fires the
    trigger of [LIB] before it unblocks the waiter of [HDR]. *)
Lemma returned_triggers_before_later_unblocks :
  ∃ es, returned 8 1 Scenario.committing = Ok tt Scenario.finalized ∧
    trace Scenario.finalized = trace Scenario.committing ++ es ∧
    ¬ unblockThenTriggerThenScan es.
Proof.
  exists [EvTrigger "LIB" ["tmp"; "p.o"]; EvUnblock "HDR" 0;
          EvScan ["tmp"; "gen.h"] ["tmp"; "gen.h"]].
  split; [vm_compute; reflexivity|]. split; [vm_compute; reflexivity|].
  intros [Horder _].
  specialize (Horder 1 0 (EvUnblock "HDR" 0) (EvTrigger "LIB" ["tmp"; "p.o"])
                eq_refl eq_refl eq_refl eq_refl).
  lia.
Qed.

Lemma returned_commit_order_witness :
  ∃ es, trace Scenario.finalized = trace Scenario.committing ++ es ∧
    allBefore isUnblock isScan es ∧ allBefore isTrigger isScan es.
Proof.
  edestruct (returned_commit_order 8 1 Scenario.committing Scenario.finalized)
    as (es & Htrace & _ & Hunblock & Htrigger).
  - vm_compute. reflexivity.
  - vm_compute. reflexivity.
  - left. reflexivity.
  - vm_compute. reflexivity.
  - exists es. auto.
Defined.

Lemma returned_rollback_is_total_witness :
  ∃ d', returned 8 0 (set_eventManager (λ _, []) Scenario.gaveUp) = Ok tt d' ∧
    entityMap d' = entityMap Scenario.gaveUp ∧ (0 ∉ activeActions d') ∧
    blockedActions d' = [("HDR", 0)].
Proof.
  edestruct (returned_rollback_is_total 8 0 (set_eventManager (λ _, []) Scenario.gaveUp))
    as (d' & a' & edges & Hrun & Hentities & _ & _ & _ & _ & _ & _ & _ & _ & Hactive & _
        & _ & Hblocked & _).
  - vm_compute. reflexivity.
  - intros Hempty. vm_compute in Hempty. discriminate Hempty.
  - vm_compute. apply list_elem_of_further, list_elem_of_here.
  - vm_compute. repeat constructor; set_solver.
  - exists d'. split; [exact Hrun|]. split; [exact Hentities|]. split; [exact Hactive|].
    vm_compute in Hrun. injection Hrun as <-. reflexivity.
Defined.

Lemma unblockActions_drains_bucket_witness :
  ∃ d' promoted, unblockActions "HDR" Scenario.provided = Ok tt d' ∧
    pendingActions d' = pendingActions Scenario.provided ++ promoted ∧
    equal_range "HDR" (blockedActions d') = [].
Proof.
  edestruct (unblockActions_drains_bucket "HDR" Scenario.provided)
    as (d' & promoted & Hrun & _ & _ & _ & Hpending & _ & _ & _ & Hbucket & _).
  - intros w Hw. vm_compute in Hw. apply list_elem_of_singleton in Hw. subst w. split.
    + eexists. vm_compute. reflexivity.
    + apply (bool_decide_unpack _). vm_compute. exact I.
  - exists d', promoted. auto.
Defined.

Lemma success_passed_require_no_missing_dependencies_witness :
  (∃ what, success 0 Scenario.asked = Throw what Scenario.asked) ∧
  (∃ d', passed 1 Scenario.asked = Ok tt d' ∧
     eventManager d' = eventManager Scenario.asked ++ [DoneCallback 1]).
Proof.
  split.
  - edestruct (success_passed_require_no_missing_dependencies 0 Scenario.asked)
      as [Hthrows _].
    + vm_compute. reflexivity.
    + reflexivity.
    + apply Hthrows. intros Hempty. vm_compute in Hempty. discriminate Hempty.
  - edestruct (success_passed_require_no_missing_dependencies 1 Scenario.asked)
      as [_ Hreturns].
    + vm_compute. reflexivity.
    + reflexivity.
    + destruct Hreturns as [_ (d' & Hrun & _ & Hqueue)]; [vm_compute; reflexivity|].
      exists d'. auto.
Defined.

Lemma startSomeActions_is_LIFO_witness :
  ∃ d' rest, startSomeActions Scenario.queued = Ok tt d' ∧
    activeActions d' = activeActions Scenario.queued ++ 1 :: rest.
Proof.
  edestruct (startSomeActions_is_LIFO Scenario.queued [] 0 1)
    as (d' & k & rest & Hrun & _ & _ & Hactive & _).
  - vm_compute. reflexivity.
  - intros p Hp. vm_compute in Hp.
    apply elem_of_cons in Hp as [->|Hp]; [eexists; vm_compute; reflexivity|].
    apply list_elem_of_singleton in Hp as ->. eexists. vm_compute. reflexivity.
  - vm_compute. reflexivity.
  - exists d', rest. auto.
Defined.

Lemma active_actions_within_cap_witness :
  (Z.of_nat (length (activeActions Scenario.committed)) ≤ 2)%Z.
Proof.
  apply (active_actions_within_cap Scenario.disk ["src"] ["tmp"] 2 Scenario.committed).
  - lia.
  - exact committed_reachable.
Defined.

Lemma succeededAgain_reachable : rtc step Scenario.created Scenario.succeededAgain.
Proof.
  etrans; [apply committed_reachable|].
  eapply rtc_l.
  { apply (step_StartCallback [] [StartCallback 0] 3 _ (Scenario.turn Scenario.committed));
      vm_compute; reflexivity. }
  eapply rtc_l.
  { apply (step_StartCallback [] [] 0 _ Scenario.rerun); vm_compute; reflexivity. }
  eapply rtc_l.
  { apply (step_call_returns 0 (CallProvide ["tmp"; "p.o"] ["LIB"]) _
             Scenario.providedAgain).
    vm_compute. reflexivity. }
  eapply rtc_l.
  { apply (step_call_returns 0 CallSuccess _ Scenario.succeededAgain).
    vm_compute. reflexivity. }
  apply rtc_refl.
Qed.

(** C7, as stated, fails on the small build.  [w.c], run again after the
    commit of [p.c], provides [LIB] with the file that already provides it.
    Its commit leaves [entityMap] as it was, and yet fires the trigger of
    [LIB] once more: a second link action is queued. *)
Lemma republication_fires_triggers_again :
  rtc step Scenario.created Scenario.succeededAgain ∧
  eventManager Scenario.succeededAgain = [DoneCallback 0] ∧
  entityMap Scenario.recommitting !! "LIB" = Some ["tmp"; "p.o"] ∧
  (∃ a, heap Scenario.recommitting !! 0 = Some a ∧ state a = SUCCEEDED ∧
     provisions a = [{| file := ["tmp"; "p.o"]; entities := ["LIB"] |}] ∧
     outputs a = []) ∧
  returned 8 0 Scenario.recommitting = Ok tt Scenario.republished ∧
  entityMap Scenario.republished = entityMap Scenario.recommitting ∧
  pendingActions Scenario.recommitting = [2] ∧
  pendingActions Scenario.republished = [2; 4] ∧
  ¬ republishChangesNothing ["tmp"; "p.o"] "LIB" Scenario.recommitting.
Proof.
  split; [exact succeededAgain_reachable|].
  split; [vm_compute; reflexivity|]. split; [vm_compute; reflexivity|].
  split.
  { eexists. split; [vm_compute; reflexivity|]. repeat split. }
  split; [vm_compute; reflexivity|]. split; [vm_compute; reflexivity|].
  split; [vm_compute; reflexivity|]. split; [vm_compute; reflexivity|].
  intros Hsame.
  assert (entityMap Scenario.recommitting !! "LIB" = Some ["tmp"; "p.o"]) as Hrecorded
    by (vm_compute; reflexivity).
  assert (registerEntity ["tmp"; "p.o"] "LIB" Scenario.recommitting
          = Ok tt (Scenario.exec (registerEntity ["tmp"; "p.o"] "LIB")
                     Scenario.recommitting)) as Hrun
    by (vm_compute; reflexivity).
  destruct (Hsame Hrecorded _ Hrun) as (_ & _ & Hpending & _).
  vm_compute in Hpending. discriminate Hpending.
Qed.

Lemma registerEntity_last_writer_wins_witness :
  ∃ d', registerEntity ["tmp"; "p.o"] "HDR" Scenario.provided = Ok tt d' ∧
    entityMap d' !! "HDR" = Some ["tmp"; "p.o"] ∧ keepsDrivers Scenario.provided d'.
Proof.
  eexists. split; [vm_compute; reflexivity|].
  edestruct (registerEntity_last_writer_wins ["tmp"; "p.o"] "HDR" Scenario.provided)
    as (Hlookup & _ & _ & Hkeeps & _).
  - exact (inv_heap _ _ _ _ (rtc_step_Inv _ _ _ _ _ provided_reachable)).
  - vm_compute. reflexivity.
  - split; [exact Hlookup|exact Hkeeps].
Defined.

Lemma findProvider_records_missing_dependency_witness :
  ∃ d', findProvider 0 "HDR" "header of p" Scenario.running = Ok None d'.
Proof.
  edestruct (λ a, findProvider_records_missing_dependency 0 Scenario.running a
                    "HDR" "header of p") as [_ Hfind].
  - vm_compute. reflexivity.
  - reflexivity.
  - revert Hfind. generalize (findProvider 0 "HDR" "header of p" Scenario.running).
    intros result Hfind. vm_compute in Hfind. eexists. exact Hfind.
Defined.

Lemma Driver_delete_fails_blocked_witness :
  ∃ d', Driver_delete Scenario.blocked = Ok tt d' ∧
    ∃ a', heap d' !! 0 = Some a' ∧ Dashboard.state (dashboardTask a') = Dashboard.FAILED.
Proof.
  destruct (Driver_delete_fails_blocked Scenario.blocked) as (d' & Hrun & Hfailed).
  - exists Scenario.disk, ["src"], ["tmp"], 2%Z. exact blocked_reachable.
  - exists d'. split; [exact Hrun|]. apply Hfailed.
    apply (bool_decide_unpack _). vm_compute. exact I.
Defined.


(** ** More of the small build *)

Lemma tooLate_reachable : rtc step Scenario.created Scenario.tooLate.
Proof.
  eapply rtc_l.
  { apply (step_addActionFactory "source" Scenario.onSource _ Scenario.withSource).
    vm_compute. reflexivity. }
  eapply rtc_l.
  { apply (step_addActionFactory "header" Scenario.onHeader _ Scenario.withHeader).
    vm_compute. reflexivity. }
  eapply rtc_l.
  { apply (step_addActionFactory "lib" Scenario.onLib _ Scenario.configured).
    vm_compute. reflexivity. }
  eapply rtc_l.
  { apply (step_start 8 _ Scenario.started). vm_compute. reflexivity. }
  eapply rtc_l.
  { apply (step_StartCallback [] [StartCallback 0] 1 _ (Scenario.turn Scenario.started));
      vm_compute; reflexivity. }
  eapply rtc_l.
  { apply (step_StartCallback [] [] 0 _ Scenario.running); vm_compute; reflexivity. }
  eapply rtc_l.
  { apply (step_call_returns 0 (CallFindProvider "HDR" "header of p") _ Scenario.asked).
    vm_compute. reflexivity. }
  eapply rtc_l.
  { apply (step_call_returns 1 (CallProvide ["tmp"; "p.o"] ["HDR"]) _
             (Scenario.exec (provide 1 ["tmp"; "p.o"] ["HDR"]) Scenario.asked)).
    vm_compute. reflexivity. }
  eapply rtc_l.
  { apply (step_call_returns 1 CallSuccess _
             (Scenario.exec (success 1)
                (Scenario.exec (provide 1 ["tmp"; "p.o"] ["HDR"]) Scenario.asked))).
    vm_compute. reflexivity. }
  eapply rtc_l.
  { apply (step_DoneCallback 8 [] [] 1 _ Scenario.overtaken); vm_compute; reflexivity. }
  eapply rtc_l.
  { apply (step_call_returns 0 CallFailed _ Scenario.tooLate). vm_compute. reflexivity. }
  apply rtc_refl.
Qed.

Lemma idle_reachable :
  rtc step (Driver_new Scenario.disk ["src"] ["tmp"] 0) Scenario.idle.
Proof.
  eapply rtc_l.
  { apply (step_addActionFactory "source" Scenario.onSource _
             (Scenario.exec (addActionFactory "source" Scenario.onSource)
                (Driver_new Scenario.disk ["src"] ["tmp"] 0))).
    vm_compute. reflexivity. }
  eapply rtc_l.
  { apply (step_start 8 _ Scenario.idle). vm_compute. reflexivity. }
  apply rtc_refl.
Qed.

Lemma succeeded_reachable : rtc step Scenario.created Scenario.succeeded.
Proof.
  etrans; [apply provided_reachable|].
  eapply rtc_l.
  { apply (step_call_returns 1 CallSuccess _ Scenario.succeeded). vm_compute. reflexivity. }
  apply rtc_refl.
Qed.

Lemma calls_require_running_witness :
  success 0 Scenario.blocked = Throw "Action is not running." Scenario.blocked ∧
  (∀ id, findOptionalProvider 0 id Scenario.blocked =
           Throw "Action is not running." Scenario.blocked).
Proof.
  edestruct (calls_require_running 0 Scenario.blocked)
    as (_ & Hfind & _ & _ & _ & Hsuccess & _).
  - vm_compute. reflexivity.
  - intros Hstate. vm_compute in Hstate. discriminate Hstate.
  - split; [exact Hsuccess|exact Hfind].
Defined.

Lemma call_throws_before_any_change_witness :
  ∃ a, heap Scenario.asked !! 0 = Some a ∧ state a = RUNNING ∧
    missingDependencies a ≠ ∅.
Proof.
  destruct (call_throws_before_any_change 0 CallSuccess Scenario.asked Scenario.asked
              "Action reported success despite missing dependencies.")
    as (_ & a & Ha & [[Hwhat _]|(_ & Hs & Hm & _)]).
  - vm_compute. reflexivity.
  - discriminate Hwhat.
  - exists a. auto.
Defined.

Lemma calls_are_isolated_witness :
  ∃ a, heap Scenario.written !! 1 = Some a ∧ state a = RUNNING ∧
    Scenario.provided =
      set_eventManager (λ q, q ++ [])
        (set_heap (insert 1 (staged (entityMap Scenario.written)
                               (CallProvide ["tmp"; "p.o"] ["LIB"; "HDR"]) a))
           Scenario.written).
Proof.
  destruct (calls_are_isolated 1 (CallProvide ["tmp"; "p.o"] ["LIB"; "HDR"])
              Scenario.written Scenario.provided) as (a & Ha & Hs & Hd & _).
  - vm_compute. reflexivity.
  - exists a. auto.
Defined.

Lemma threwException_fails_running_driver_witness :
  ∃ d', threwException 0 "boom" Scenario.running = Ok tt d' ∧
    eventManager d' = eventManager Scenario.running ++ [DoneCallback 0].
Proof.
  edestruct (threwException_fails_running_driver 0 "boom" Scenario.running)
    as (d' & a' & Hrun & _ & _ & Hfail & _).
  - vm_compute. reflexivity.
  - exists d'. split; [exact Hrun|]. apply Hfail. reflexivity.
Defined.

Lemma threwUnknownException_fails_running_driver_witness :
  ∃ d', threwUnknownException 0 Scenario.blocked = Ok tt d' ∧
    eventManager d' = eventManager Scenario.blocked.
Proof.
  edestruct (threwUnknownException_fails_running_driver 0 Scenario.blocked)
    as (d' & a' & Hrun & _ & _ & _ & Hkeep & _).
  - vm_compute. reflexivity.
  - exists d'. split; [exact Hrun|]. apply Hkeep.
    intros Hstate. vm_compute in Hstate. discriminate Hstate.
Defined.

Lemma report_is_final_witness :
  call 0 CallSuccess Scenario.gaveUp = Throw "Action is not running." Scenario.gaveUp.
Proof.
  destruct (report_is_final 0 CallFailed Scenario.asked Scenario.gaveUp)
    as (_ & Hcalls & _).
  - reflexivity.
  - vm_compute. reflexivity.
  - apply Hcalls.
Defined.

Lemma returned_failure_discards_witness :
  ∃ d', returned 8 1 Scenario.failing = Ok tt d' ∧
    entityMap d' = entityMap Scenario.failing ∧
    heap d' = delete 1 (heap Scenario.failing).
Proof.
  edestruct (returned_failure_discards 8 1 Scenario.failing)
    as (d' & Hrun & Hentities & _ & _ & _ & _ & _ & _ & Hheap & _).
  - vm_compute. reflexivity.
  - vm_compute. reflexivity.
  - intros Hstate. vm_compute in Hstate. discriminate Hstate.
  - intros Hstate. vm_compute in Hstate. discriminate Hstate.
  - vm_compute. apply list_elem_of_here.
  - vm_compute. repeat constructor; set_solver.
  - exists d'. auto.
Defined.

Lemma returned_commit_publishes_witness :
  entityMap Scenario.finalized !! "HDR" = Some ["tmp"; "p.o"] ∧
  heap Scenario.finalized !! 1 = None.
Proof.
  edestruct (returned_commit_publishes 8 1 Scenario.committing Scenario.finalized)
    as (_ & Hlast & _ & _ & Hgone).
  - vm_compute. reflexivity.
  - vm_compute. reflexivity.
  - left. reflexivity.
  - vm_compute. apply list_elem_of_here.
  - vm_compute. reflexivity.
  - split; [|exact Hgone].
    apply (Hlast [] {| file := ["tmp"; "p.o"]; entities := ["LIB"; "HDR"] |} [] "HDR").
    + vm_compute. reflexivity.
    + simpl. apply list_elem_of_further, list_elem_of_here.
    + intros q Hq%elem_of_nil. destruct Hq.
Defined.

Lemma rollback_ignores_later_publication_witness :
  ∃ d', returned 8 0 Scenario.tooLate = Ok tt d' ∧
    entityMap d' !! "HDR" = Some ["tmp"; "p.o"] ∧
    0 ∈ blockedActionPtrs d' ∧ ("HDR", 0) ∈ blockedActions d'.
Proof.
  edestruct (λ a, rollback_ignores_later_publication 8 0 Scenario.tooLate a
                    "HDR" "header of p" ["tmp"; "p.o"])
    as (d' & a' & Hrun & Hentity & Hblocked & Hedge & _).
  - vm_compute. reflexivity.
  - vm_compute. apply list_elem_of_here.
  - vm_compute. reflexivity.
  - vm_compute. reflexivity.
  - exists d'. auto.
Defined.


Lemma scanForActions_only_queues_witness :
  activeActions (Scenario.exec (scanForActions 8 ["src"] ["tmp"]) Scenario.configured) =
    activeActions Scenario.configured.
Proof.
  edestruct (scanForActions_only_queues 8 ["src"] ["tmp"] Scenario.configured
               (Scenario.exec (scanForActions 8 ["src"] ["tmp"]) Scenario.configured))
    as [(n & dirs & _ & _ & _ & _ & _ & _ & _ & _ & Hactive & _) _].
  - vm_compute. reflexivity.
  - exact Hactive.
Defined.

Lemma scanForActions_loops_on_cycle_witness :
  @scanForActions unit unit Scenario.Cycle_FileInterface 5 tt tt (Driver_new tt tt tt 1)
    = Diverge.
Proof.
  apply (@scanForActions_loops_on_cycle unit unit Scenario.Cycle_FileInterface
           (λ _, tt) tt (Driver_new tt tt tt 1)).
  - intros n fs. reflexivity.
  - intros n fs. exists []. reflexivity.
Defined.

Lemma scanForActions_returns_on_finite_tree_witness :
  ∃ d', @scanForActions nat unit Scenario.Tree_FileInterface 7 2 9 (Driver_new tt 2 9 1)
          = Ok tt d'.
Proof.
  apply (@scanForActions_returns_on_finite_tree nat unit Scenario.Tree_FileInterface
           (λ n, n) 2 2 9 (Driver_new tt 2 9 1)).
  - intros fs [|f] c Hc; simpl in Hc.
    + destruct (proj1 (elem_of_nil c) Hc).
    + apply elem_of_cons in Hc as [->|Hc]; [lia|].
      apply elem_of_cons in Hc as [->|Hc]; [lia|].
      destruct (proj1 (elem_of_nil c) Hc).
  - intros fs [|f]; simpl; lia.
  - simpl. lia.
Defined.

Lemma startSomeActions_fills_free_slots_witness :
  ∃ d', startSomeActions Scenario.queued = Ok tt d' ∧
    activeActions d' = [1; 0] ∧ saturated d'.
Proof.
  edestruct (startSomeActions_fills_free_slots Scenario.queued)
    as (d' & Hrun & _ & _ & Hactive & _ & _ & _ & Hsat).
  - intros p Hp. vm_compute in Hp.
    apply elem_of_cons in Hp as [->|Hp]; [eexists; vm_compute; reflexivity|].
    apply list_elem_of_singleton in Hp as ->. eexists. vm_compute. reflexivity.
  - exists d'. split; [exact Hrun|]. split; [|exact Hsat].
    rewrite Hactive. vm_compute. reflexivity.
Defined.

Lemma no_idle_slot_between_turns_witness : saturated Scenario.committed.
Proof.
  apply (no_idle_slot_between_turns Scenario.committed).
  exists Scenario.disk, ["src"], ["tmp"], 2%Z. exact committed_reachable.
Defined.

Lemma nothing_starts_without_slots_witness :
  activeActions Scenario.idle = [] ∧ eventManager Scenario.idle = [].
Proof.
  destruct (nothing_starts_without_slots Scenario.disk ["src"] ["tmp"] 0 Scenario.idle)
    as (Hactive & Hdone & _).
  - lia.
  - exact idle_reachable.
  - split; [exact Hactive|exact Hdone].
Defined.

Lemma published_entities_stay_witness :
  is_Some (entityMap (Scenario.turn Scenario.committed) !! "HDR").
Proof.
  apply (published_entities_stay Scenario.committed (Scenario.turn Scenario.committed)).
  - eapply rtc_l; [|apply rtc_refl].
    apply (step_StartCallback [] [StartCallback 0] 3 _ (Scenario.turn Scenario.committed));
      vm_compute; reflexivity.
  - eexists. vm_compute. reflexivity.
Defined.

Lemma every_driver_has_one_owner_witness :
  NoDup (activeActions Scenario.committed) ∧
  ¬ (0 ∈ pendingActions Scenario.committed ∧ 0 ∈ activeActions Scenario.committed).
Proof.
  destruct (every_driver_has_one_owner Scenario.committed) as (_ & Hnd & Hall).
  - exists Scenario.disk, ["src"], ["tmp"], 2%Z. exact committed_reachable.
  - split; [exact Hnd|]. apply (Hall 0).
Defined.

Lemma queued_callbacks_have_live_drivers_witness :
  0 ∈ activeActions Scenario.tooLate ∧
  ∃ a, heap Scenario.tooLate !! 0 = Some a ∧ state a ≠ PENDING ∧ state a ≠ RUNNING.
Proof.
  destruct (queued_callbacks_have_live_drivers Scenario.tooLate) as [_ Hall].
  - exists Scenario.disk, ["src"], ["tmp"], 2%Z. exact tooLate_reachable.
  - apply (Hall (DoneCallback 0)). vm_compute. apply list_elem_of_here.
Defined.

Lemma blocked_index_is_exact_witness :
  NoDup (blockedActions Scenario.blocked) ∧
  (0 ∈ blockedActionPtrs Scenario.blocked ∧
   is_Some (missingOf Scenario.blocked 0 !! "HDR")).
Proof.
  destruct (blocked_index_is_exact Scenario.blocked) as (Hnd & Hedges & _).
  - exists Scenario.disk, ["src"], ["tmp"], 2%Z. exact blocked_reachable.
  - split; [exact Hnd|]. apply Hedges. vm_compute. apply list_elem_of_here.
Defined.

Lemma state_tells_the_collection_witness :
  ∃ a, heap Scenario.blocked !! 0 = Some a ∧ state a = PENDING ∧
    Dashboard.state (dashboardTask a) = Dashboard.BLOCKED.
Proof.
  edestruct (state_tells_the_collection Scenario.blocked 0)
    as (Hidle & _ & _ & _ & Htask).
  - exists Scenario.disk, ["src"], ["tmp"], 2%Z. exact blocked_reachable.
  - vm_compute. reflexivity.
  - eexists. split; [reflexivity|].
    assert (0 ∈ blockedActionPtrs Scenario.blocked) as Hin
      by (apply (bool_decide_unpack _); vm_compute; exact I).
    split; [apply Hidle; by right|by apply Htask].
Defined.

Lemma turns_do_not_go_wrong_witness :
  ∃ a, heap Scenario.succeeded !! 1 = Some a ∧
    finishes (missingDependencies a = ∅ ∧
              (state a = SUCCEEDED ∨ state a = PASSED) ∧ outputs a ≠ [])
      (λ _ d', step Scenario.succeeded d')
      (DoneCallback_run 8 1 (set_eventManager (λ _, [] ++ []) Scenario.succeeded)).
Proof.
  destruct (turns_do_not_go_wrong Scenario.succeeded) as [_ Hdone].
  - exists Scenario.disk, ["src"], ["tmp"], 2%Z. exact succeeded_reachable.
  - apply (Hdone 8 [] [] 1). vm_compute. reflexivity.
Defined.

Lemma missing_dependency_dooms_the_run_witness :
  ∃ a', heap (Scenario.exec (forEach [CallLog "no header"; CallFailed] (call 0))
                Scenario.asked) !! 0 = Some a' ∧
    (state a' = RUNNING ∨ state a' = FAILED) ∧
    is_Some (missingDependencies a' !! "HDR").
Proof.
  edestruct (λ a, missing_dependency_dooms_the_run 0 [CallLog "no header"; CallFailed]
               Scenario.asked
               (Scenario.exec (forEach [CallLog "no header"; CallFailed] (call 0))
                  Scenario.asked)
               a)
    as (a' & Ha' & Hs' & Hkeys & _).
  - vm_compute. reflexivity.
  - reflexivity.
  - vm_compute. intros Heq. discriminate Heq.
  - vm_compute. reflexivity.
  - exists a'. split; [exact Ha'|]. split; [exact Hs'|].
    apply Hkeys. vm_compute. eexists. reflexivity.
Defined.
